(** * sedcli command-line grammar engine ([src/argp.c])

    A shallow embedding of the argument parser of sedcli: token
    classification, option matching, the cardinality pass, the consuming
    walk with its argument buffer, help rendering, the command runner and
    the log writer, followed by the properties proved about them.

    Conventions of the embedding.
    - A C string is a [string]: the bytes before the terminating NUL.
      [char_at s i] reads [s[i]] and yields NUL at the terminator.  A
      well-formed C string holds no NUL byte ([cstring]).
    - [argv] is a [list string] and [argc] is its length.
    - A sentinel-terminated table is the list of the entries that precede
      the sentinel.
    - [int] values are [Z]; counters that only grow from zero are [nat].
    - A [sedcli_printf(level, fmt, args...)] call is recorded as the stream
      it writes to, the format string as it is spelled in the source, and
      the arguments; what it adds to the log file is recorded apart.
    - The opaque callbacks act on an abstract [World]; every invocation is
      also recorded in [calls].
    - [print_options_usage] and [print_list_options], two exported
      renderers that args_parse never calls, are left out. *)

From Stdlib Require Import ZArith Ascii String Bool Lia.
From stdpp Require Import base list.

Local Open Scope string_scope.
Local Open Scope Z_scope.

(** ** C strings *)

Definition NUL : ascii := "000"%char.

Definition char_at (s : string) (i : nat) : ascii :=
  match String.get i s with
  | Some c => c
  | None => NUL
  end.

(** [&s[i]] for [i] not beyond the terminator. *)
Fixpoint str_from (s : string) (i : nat) : string :=
  match i, s with
  | O, _ => s
  | S i', String _ t => str_from t i'
  | S _, EmptyString => EmptyString
  end.

Fixpoint string_chars (s : string) : list ascii :=
  match s with
  | EmptyString => []
  | String c t => c :: string_chars t
  end.

Definition cstring (s : string) : Prop := Forall (fun c => c <> NUL) (string_chars s).

Definition char_code (c : ascii) : Z := Z.of_nat (nat_of_ascii c).

(** [(c >= 'a' && c <= 'z') || (c >= 'A' && c <= 'Z')] *)
Definition is_letter (c : ascii) : bool :=
  ((char_code "a"%char <=? char_code c) && (char_code c <=? char_code "z"%char))
  || ((char_code "A"%char <=? char_code c) && (char_code c <=? char_code "Z"%char)).

(** [strncmp(s1, s2, n)]: the difference of the first differing bytes among
    the first [n], 0 when there is none. *)
Fixpoint strncmp (s1 s2 : string) (n : nat) {struct n} : Z :=
  match n with
  | O => 0
  | S n' =>
      match s1, s2 with
      | EmptyString, EmptyString => 0
      | EmptyString, String c2 _ => 0 - char_code c2
      | String c1 _, EmptyString => char_code c1
      | String c1 t1, String c2 t2 =>
          if Ascii.eqb c1 c2 then strncmp t1 t2 n' else char_code c1 - char_code c2
      end
  end.

(** [strnlen(s, n)] *)
Definition strnlen (s : string) (n : nat) : nat := Nat.min (String.length s) n.

(** What [snprintf(buf, size, ...)] leaves in [buf] when the full text is
    [s]: at most [size - 1] bytes. *)
Definition snprintf (size : nat) (s : string) : string :=
  String.substring 0 (size - 1) s.

(** Modelled from the spec: the helper [strempty] is declared outside
    [src/argp.c]; section 4.1 says that empty or null input is
    unrecognized.  Tokens of [argv] and names of table entries are never
    null, so only the empty string is left. *)
Definition strempty (s : string) : bool :=
  match s with
  | EmptyString => true
  | String _ _ => false
  end.

(** ** Token classifier *)

Definition args_is_unrecognized (cmd : string) : bool :=
  if strempty cmd then true
  else if Ascii.eqb "-"%char (char_at cmd 0) then
    let c := char_at cmd 1 in
    if is_letter c then
      (if Ascii.eqb NUL (char_at cmd 2) then false else true)
    else if Ascii.eqb "-"%char (char_at cmd 1) then
      let c := char_at cmd 2 in
      if is_letter c then false else true
    else true
  else true.


(** ** Constants *)

(** [<sys/syslog.h>] *)
Definition LOG_ERR : Z := 3.
Definition LOG_WARNING : Z := 4.
Definition LOG_INFO : Z := 6.
Definition LOG_DEBUG : Z := 7.

(** [<errno.h>] *)
Definition ENOMEM : Z := 12.
Definition ENODEV : Z := 19.
Definition EINVAL : Z := 22.

Definition PADDING : string := "   ".
Definition MAX_OPT_HELP_LEN : nat := 40.
Definition MAX_LOG_LEVEL : Z := LOG_WARNING.

(** The constants that [argp.h], [libsed.h] and [kmip_lib.h] declare.  The
    headers are not part of [src/], so the values stay abstract. *)
Class headers := {
  MAX_STR_LEN : nat;
  SUCCESS : Z;
  FAILURE : Z;
  CLI_OPTION_REQUIRED : Z;
  CLI_OPTION_HIDDEN : Z;
  CLI_OPTION_OPTIONAL : Z;
  CLI_SU_REQUIRED : Z;
  CLI_COMMAND_HIDDEN : Z;
  SED_CLI_STANDARD : Z;
  SED_CLI_KMIP : Z;
  KMIP_FAILURE : Z;
  KMIP_SUCCESS : Z;
  KMIP_SUCCESS_CONNECTED : Z
}.

(** [flags & mask] used as a condition *)
Definition has_flag (flags mask : Z) : bool := negb (Z.land flags mask =? 0).

(** ** Data model *)

(** [cli_option]; the fields carry a prefix because the structs of the
    source share field names. *)
Record cli_option := {
  o_long_name : string;
  o_short_name : ascii;
  o_desc : string;
  o_args_count : Z;
  o_arg : option string;
  o_flags : Z
}.

Record cli_ns_entry := {
  e_name : string;
  e_desc : string;
  e_options : list cli_option
}.

Record cli_namespace := {
  ns_long_name : string;
  ns_short_name : ascii;
  ns_entries : list cli_ns_entry
}.

Record app := {
  app_name : string;
  app_info : string;
  app_title : string;
  app_man : option string
}.

(** One slot of the [args_list] buffer: as [malloc] left it, a null
    pointer, or a pointer to a token. *)
Inductive cell :=
  | Uninit
  | Null
  | Ptr (s : string).

(** The arguments of a [printf]-style call. *)
Inductive fmt_arg :=
  | AStr (s : string)
  | AChr (c : ascii)
  | AInt (z : Z)
  | ANull.

Record message := Msg { msg_fmt : string; msg_args : list fmt_arg }.

Inductive stream := Stdout | Stderr.

(** Invocations of the callbacks of a command, which is named by its index
    in the command table. *)
Inductive call :=
  | CallConfigure (cmd : nat)
  | CallHelp (cmd : nat)
  | CallOptionsParse (cmd : nat) (long_name : string) (args : list cell)
  | CallNamespaceOptsParse (cmd : nat) (entry long_name : string) (args : list cell)
  | CallHandle (cmd : nat).

(** What the environment answers during one invocation. *)
Record env := {
  uid : Z;                (* getuid() *)
  can_malloc : bool;      (* malloc returns a buffer *)
  can_realloc : bool;     (* realloc returns a buffer *)
  log_fopen : bool;       (* fopen(SEDCLI_LOGFILE, "a") succeeds *)
  log_lockf : bool;       (* lockf(F_LOCK) succeeds *)
  have_localtime : bool;  (* localtime returns a value *)
  have_asctime : bool;    (* asctime returns a value *)
  elapsed_ms : Z          (* the timespan run_command measures *)
}.

Section Model.

Context {World : Type}.
Context `{hdr : headers}.

(** The globals [sed_cli] and [nvme_error] live outside [src/argp.c]; they
    are read off the world the callbacks act on. *)
Variable sed_cli : World -> Z.
Variable nvme_error : World -> Z.

(** [cli_command].  The hooks are function pointers; [None] is a null
    pointer.  A hook's effect is its status and the world it leaves; what
    [configure] writes to the descriptor it receives shows only through
    the flag that configure_cli_commands sets for it. *)
Record cli_command := {
  c_name : string;
  c_short_name : ascii;
  c_desc : string;
  c_long_desc : option string;
  c_flags : Z;
  c_options : option (list cli_option);
  c_namespace : option cli_namespace;
  c_options_parse : option (string -> list cell -> World -> Z * World);
  c_namespace_opts_parse : option (string -> string -> list cell -> World -> Z * World);
  c_handle : World -> Z * World;
  c_configure : option (World -> Z * World);
  c_help : option (World -> World)
}.

Record state := {
  world : World;
  console : list (stream * message);
  logfile : list message;
  calls : list call
}.

Definition set_world (w : World) (st : state) : state :=
  {| world := w; console := console st; logfile := logfile st; calls := calls st |}.

Definition write_console (s : stream) (m : message) (st : state) : state :=
  {| world := world st; console := console st ++ [(s, m)];
     logfile := logfile st; calls := calls st |}.

Definition append_logfile (m : message) (st : state) : state :=
  {| world := world st; console := console st;
     logfile := logfile st ++ [m]; calls := calls st |}.

Definition record_call (c : call) (st : state) : state :=
  {| world := world st; console := console st;
     logfile := logfile st; calls := calls st ++ [c] |}.

(** ** Logging and printing *)

Variable e : env.

(** [vsedcli_log]: the line goes to the log file when the level passes
    [MAX_LOG_LEVEL] and the file can be opened, locked and stamped.  The
    timestamp prefix is not part of the recorded line. *)
Definition vsedcli_log (log_level : Z) (m : message) (st : state) : Z * state :=
  if log_level >? MAX_LOG_LEVEL then (0, st)
  else if negb (log_fopen e) then (FAILURE, st)
  else if negb (log_lockf e) then (-1, st)
  else if negb (have_localtime e) then (FAILURE, st)
  else if negb (have_asctime e) then (FAILURE, st)
  else (0, append_logfile m st).

Definition sedcli_log (log_level : Z) (m : message) (st : state) : state :=
  snd (vsedcli_log log_level m st).

Definition std_printf (log_level : Z) (m : message) (st : state) : state :=
  if LOG_WARNING >=? log_level then
    snd (vsedcli_log log_level m (write_console Stderr m st))
  else write_console Stdout m st.

(** [sedcli_printf_t sedcli_printf = std_printf;] *)
Definition sedcli_printf := std_printf.

Definition sedcli_printf_all (log_level : Z) (ms : list message) (st : state) : state :=
  foldl (fun s m => sedcli_printf log_level m s) st ms.

Definition is_su_required (commands : list cli_command) (cmd : nat) : bool :=
  match commands !! cmd with
  | Some c => has_flag (c_flags c) CLI_SU_REQUIRED
  | None => false
  end.

Definition is_command_hidden (commands : list cli_command) (cmd : nat) : bool :=
  match commands !! cmd with
  | Some c => has_flag (c_flags c) CLI_COMMAND_HIDDEN
  | None => false
  end.

Definition print_short_usage (a : app) : list message :=
  [ Msg "Usage: %s %s\n\n" [AStr (app_name a); AStr (app_info a)];
    Msg "The '<device>' must be a block device (e.g. /dev/nvme0n1).\n" [] ].

Definition print_info (a : app) (st : state) : state :=
  sedcli_printf LOG_INFO
    (Msg "Try `%s --help' for more information.\n" [AStr (app_name a)]) st.

Definition get_short_name_string (short_name : ascii) : string :=
  if Ascii.eqb short_name NUL then EmptyString
  else snprintf 3 (String "-" (String short_name EmptyString)).

Definition command_name_with_slash (buf_size : nat) (short_name : ascii)
    (long_name : string) : string :=
  if Ascii.eqb short_name NUL then snprintf buf_size ("--" ++ long_name)
  else snprintf buf_size (String "-" (String short_name ("/--" ++ long_name))).

Definition command_name_in_brackets (buf_size : nat) (short_name : ascii)
    (long_name : string) : string :=
  if Ascii.eqb short_name NUL then snprintf buf_size ("--" ++ long_name)
  else snprintf buf_size ("--" ++ long_name ++ " (-" ++ String short_name ")").

(** ** Help rendering

    Every line of help goes out at [LOG_INFO]; the renderers yield the
    lines in the order the source prints them. *)

Definition print_command_header (cmd : cli_command) : list message :=
  [ Msg "%s%s\n\n"
      [AStr PADDING;
       AStr (match c_long_desc cmd with Some d => d | None => c_desc cmd end)] ].

Definition print_options_help_line (o : cli_option) : list message :=
  if has_flag (o_flags o) CLI_OPTION_HIDDEN then []
  else
    let short_name := get_short_name_string (o_short_name o) in
    match o_arg o with
    | Some arg =>
        let buf :=
          if has_flag (o_flags o) CLI_OPTION_OPTIONAL
          then snprintf MAX_OPT_HELP_LEN ("--" ++ o_long_name o ++ " [<" ++ arg ++ ">]")
          else snprintf MAX_OPT_HELP_LEN ("--" ++ o_long_name o ++ " <" ++ arg ++ ">") in
        [ Msg "%s%-4s%-38s%s\n"
            [AStr PADDING; AStr short_name; AStr buf; AStr (o_desc o)] ]
    | None =>
        [ Msg "%s%-4s--%-36s%s\n"
            [AStr PADDING; AStr short_name; AStr (o_long_name o); AStr (o_desc o)] ]
    end.

Definition print_options_help (options : list cli_option) : list message :=
  flat_map print_options_help_line options.

Fixpoint print_namespace_entries_help (command_name option_name : string)
    (entries : list cli_ns_entry) : list message :=
  match entries with
  | [] => []
  | en :: rest =>
      Msg "Options that are valid with %s %s %s are:\n"
        [AStr command_name; AStr option_name; AStr (e_name en)]
      :: print_options_help (e_options en)
      ++ match rest with
         | [] => []
         | _ :: _ => [Msg "\n" []]
         end
      ++ print_namespace_entries_help command_name option_name rest
  end.

Definition print_namespace_help (a : app) (cmd : cli_command) (ns : cli_namespace)
    : list message :=
  let command_name := command_name_in_brackets MAX_STR_LEN (c_short_name cmd) (c_name cmd) in
  let option_name := command_name_in_brackets MAX_STR_LEN (ns_short_name ns) (ns_long_name ns) in
  [ Msg "Usage: %s --%s --%s <NAME>\n\n"
      [AStr (app_name a); AStr (c_name cmd); AStr (ns_long_name ns)] ]
  ++ print_command_header cmd
  ++ [ Msg "Valid values of NAME are:\n" [] ]
  ++ map (fun en => Msg "%s%s - %s\n" [AStr PADDING; AStr (e_name en); AStr (e_desc en)])
         (ns_entries ns)
  ++ [ Msg "\n" [] ]
  ++ print_namespace_entries_help command_name option_name (ns_entries ns).

(** The part of the usage line one option contributes. *)
Definition usage_of_option (o : cli_option) : list message :=
  if has_flag (o_flags o) CLI_OPTION_HIDDEN then []
  else if has_flag (o_flags o) CLI_OPTION_REQUIRED then
    Msg " --%s" [AStr (o_long_name o)]
    :: match o_arg o with
       | Some arg =>
           if has_flag (o_flags o) CLI_OPTION_OPTIONAL
           then [Msg " [<%s>]" [AStr arg]]
           else [Msg " <%s>" [AStr arg]]
       | None => []
       end
  else [].

Definition all_hidden (options : list cli_option) : bool :=
  forallb (fun o => has_flag (o_flags o) CLI_OPTION_HIDDEN) options.

Definition all_mandatory (options : list cli_option) : bool :=
  forallb (fun o => has_flag (o_flags o) CLI_OPTION_HIDDEN
                    || has_flag (o_flags o) CLI_OPTION_REQUIRED) options.

Definition print_command_usage (a : app) (cmd : cli_command) : list message :=
  [ Msg "Usage: %s --%s" [AStr (app_name a); AStr (c_name cmd)] ]
  ++ match c_options cmd with
     | Some options =>
         flat_map usage_of_option options
         ++ (if all_mandatory options then [] else [Msg " [option...]" []])
     | None => []
     end
  ++ [ Msg "\n\n" [] ]
  ++ print_command_header cmd
  ++ match c_options cmd with
     | Some options =>
         if all_hidden options then []
         else
           Msg "Options that are valid with %s are:\n"
             [AStr (command_name_in_brackets MAX_STR_LEN (c_short_name cmd) (c_name cmd))]
           :: print_options_help options
     | None => []
     end.

(** [print_command_help(app_values, &commands[i])] *)
Definition print_command_help (a : app) (i : nat) (cmd : cli_command) (st : state)
    : state :=
  match c_help cmd with
  | Some render => record_call (CallHelp i) (set_world (render (world st)) st)
  | None =>
      match c_namespace cmd with
      | Some ns => sedcli_printf_all LOG_INFO (print_namespace_help a cmd ns) st
      | None => sedcli_printf_all LOG_INFO (print_command_usage a cmd) st
      end
  end.

Definition print_help_command_line (cmd : cli_command) : list message :=
  if has_flag (c_flags cmd) CLI_COMMAND_HIDDEN then []
  else
    let short_name := get_short_name_string (c_short_name cmd) in
    if Ascii.eqb NUL (char_at short_name 0)
    then [ Msg "%s--%-25s%s\n" [AStr PADDING; AStr (c_name cmd); AStr (c_desc cmd)] ]
    else [ Msg "%s%-4s--%-25s%s\n"
             [AStr PADDING; AStr short_name; AStr (c_name cmd); AStr (c_desc cmd)] ].

Definition print_help (a : app) (commands : list cli_command) : list message :=
  [ Msg "%s\n\n" [AStr (app_title a)] ]
  ++ print_short_usage a
  ++ [ Msg "\nAvailable commands:\n" [] ]
  ++ flat_map print_help_command_line commands
  ++ [ Msg ("\nSee 'sedcli <command> --help' for more information on a specific command.\n"
            ++ "e.g.\n%s%s --%s --help\n")
         [AStr PADDING; AStr (app_name a);
          match commands with
          | c :: _ => AStr (c_name c)
          | [] => ANull
          end] ]
  ++ [ match app_man a with
       | Some man =>
           Msg "For more information, please refer to manpage (man %s).\n" [AStr man]
       | None => Msg "For more information, please refer to manpage.\n" []
       end ].

(** ** Option matcher *)

Definition args_is (input arg : string) (c : ascii) : bool :=
  if strempty input then false
  else if Ascii.eqb "-"%char (char_at input 0) then
    if negb (Ascii.eqb NUL c) && Ascii.eqb c (char_at input 1)
       && Ascii.eqb NUL (char_at input 2)
    then true
    else if Ascii.eqb "-"%char (char_at input 1)
            && (strncmp (str_from input 2) arg MAX_STR_LEN =? 0)
    then true
    else false
  else false.

Definition is_help (cmd : string) : bool := args_is cmd "help" "H"%char.

Definition is_version (cmd : string) : bool := args_is cmd "version" "V"%char.

(** [argv[i]] *)
Definition token (argv : list string) (i : nat) : string :=
  match argv !! i with
  | Some t => t
  | None => EmptyString
  end.

Fixpoint help_position_from (i : nat) (tokens : list string) : Z :=
  match tokens with
  | [] => -1
  | t :: rest => if is_help t then Z.of_nat i else help_position_from (S i) rest
  end.

Definition get_help_position (argv : list string) : Z :=
  help_position_from 2 (drop 2 argv).

(** [get_option]: the index of the first descriptor the token matches;
    [None] stands for -1. *)
Fixpoint get_option_from (i : nat) (options : list cli_option) (opt : string)
    : option nat :=
  match options with
  | [] => None
  | o :: rest =>
      if args_is opt (o_long_name o) (o_short_name o) then Some i
      else get_option_from (S i) rest opt
  end.

Definition get_option (options : list cli_option) (opt : string) : option nat :=
  get_option_from 0 options opt.

(** ** Command runner *)

(** The loop of [log_command] that rebuilds the command line.  [None]: a
    [realloc] failed. *)
Fixpoint log_command_loop (tokens : list string) (cmd_len cmd_buf_len : nat)
    (command : string) : option string :=
  match tokens with
  | [] => Some command
  | tok :: rest =>
      let tok_len := strnlen tok MAX_STR_LEN in
      let grow := (cmd_buf_len <? tok_len + 1 + cmd_len)%nat in
      if grow && negb (can_realloc e) then None
      else
        let cmd_buf_len' :=
          if grow then ((tok_len + 1 + cmd_buf_len) * 2)%nat else cmd_buf_len in
        let separator := match rest with [] => EmptyString | _ :: _ => " " end in
        log_command_loop rest (cmd_len + tok_len + 1)%nat cmd_buf_len'
          (command ++ String.substring 0 tok_len tok ++ separator)
  end.

Definition double_quote : string := String (ascii_of_nat 34) EmptyString.

(** The format of the audit line; the source escapes the two quotes. *)
Definition audit_format : string :=
  "sedcli invoked with: \" ++ double_quote ++ "%s\" ++ double_quote ++ ". "
  ++ "Exit status is %d (%s). Command took %lld.%02lld s.".

Definition audit_line (command : string) (result timespan : Z) : message :=
  Msg audit_format
    [AStr command; AInt result;
     AStr (if result =? 0 then "success" else "failure");
     AInt (Z.quot timespan 1000); AInt (Z.quot (Z.rem timespan 1000) 10)].

Definition log_command (argv : list string) (result timespan : Z) (st : state)
    : state :=
  if negb (can_malloc e) then
    sedcli_printf LOG_ERR (Msg "sedcli: Memory allocation failed for logging." []) st
  else
    match log_command_loop argv 0 100 EmptyString with
    | None =>
        sedcli_printf LOG_ERR (Msg "sedcli: Memory allocation failed for logging." []) st
    | Some command => sedcli_log LOG_DEBUG (audit_line command result timespan) st
    end.

(** [sed_statuses]: the designated initialisers, at the indices the source
    gives in its comments; every other slot is a null pointer. *)
Definition sed_statuses : list (Z * string) :=
  [ (0x00, "SUCCESS"); (0x01, "NOT_AUTHORIZED"); (0x02, "OBSOLETE");
    (0x03, "SP_BUSY"); (0x04, "SP_FAILED"); (0x05, "SP_DISABLED");
    (0x06, "SP_FROZEN"); (0x07, "NO_SESSIONS_AVAILABLE");
    (0x08, "UNIQUENESS_CONFLICT"); (0x09, "INSUFFICIENT_SPACE");
    (0x0A, "INSUFFICIENT_ROWS"); (0x0B, "OBSOLETE"); (0x0C, "INVALID PARAMETER");
    (0x0D, "OBSOLETE"); (0x0E, "OBSOLETE"); (0x0F, "TPER_MALFUNCTION");
    (0x10, "TRANSACTION_FAILURE"); (0x11, "RESPONSE_OVERFLOW");
    (0x12, "AUTHORITY_LOCKED_OUT"); (0x3F, "FAIL") ].

Definition SED_SUCCESS : Z := 0x00.
Definition SED_FAIL : Z := 0x3F.

Fixpoint table_lookup (table : list (Z * string)) (i : Z) : option string :=
  match table with
  | [] => None
  | (j, text) :: rest => if i =? j then Some text else table_lookup rest i
  end.

Definition sed_error_text (sed_status : Z) : option string :=
  if (sed_status <? SED_SUCCESS) || (sed_status >? SED_FAIL) then None
  else table_lookup sed_statuses sed_status.

Definition print_sed_status (status : Z) (st : state) : state :=
  let say level fmt args := sedcli_printf level (Msg fmt args) st in
  if status <? 0 then
    if sed_cli (world st) =? SED_CLI_STANDARD then
      if status =? - EINVAL then say LOG_ERR "sedcli: Invalid parameter.\n" []
      else if status =? - ENODEV then
        say LOG_ERR "sedcli: Couldn't determine device state.\n" []
      else if status =? - ENOMEM then say LOG_ERR "sedcli: No memory.\n" []
      else say LOG_ERR "sedcli: Unknown error.\n" []
    else
      if status =? KMIP_FAILURE then say LOG_ERR "sedcli-kmip: Failure.\n" []
      else say LOG_ERR "sedcli-kmip: Unknown error.\n" []
  else if (sed_cli (world st) =? SED_CLI_KMIP) && (status >=? KMIP_SUCCESS) then
    if status =? KMIP_SUCCESS_CONNECTED then
      say LOG_ERR "sedcli-kmip: Successful connection to the KMIP server.\n" []
    else st
  else if nvme_error (world st) =? 4 then
    say LOG_ERR "sedcli: IOCTL error: 0x04 Interrupted system call.\n" []
  else if nvme_error (world st) =? 5 then
    say LOG_ERR "sedcli: IOCTL error: 0x05 I/O error.\n" []
  else
    let sed_status := sed_error_text status in
    match sed_status with
    | None =>
        if (status >? 0) && (status <=? 0xFFFF) then
          if negb (nvme_error (world st) =? 0) then
            say LOG_ERR
              "sedcli: NVMe error: %d\nSC: %d | SCT: %d | CRD: %d | M: %d | DNR: %d\n"
              [AInt status;
               AInt (Z.land status 0xFF);
               AInt (Z.land (Z.shiftr status 8) 7);
               AInt (Z.land (Z.shiftr status 11) 3);
               AInt (Z.land (Z.shiftr status 13) 1);
               AInt (Z.land (Z.shiftr status 14) 1)]
          else say LOG_ERR "status: Unknown status: %d\n" [AInt status]
        else
          say (if status =? 0 then LOG_INFO else LOG_ERR) "status: 0x%02x %s\n"
            [AInt status; ANull]
    | Some text =>
        say (if status =? 0 then LOG_INFO else LOG_ERR) "status: 0x%02x %s\n"
          [AInt status; AStr text]
    end.

(** [run_command].  The two clock readings only feed [elapsed_ms], and the
    system log is opened, positioned and closed without being read. *)
Definition run_command (commands : list cli_command) (cmd : nat)
    (argv : list string) (st : state) : option (Z * state) :=
  match commands !! cmd with
  | None => None
  | Some c =>
      let '(result, w) := c_handle c (world st) in
      let st1 := record_call (CallHandle cmd) (set_world w st) in
      let st2 :=
        if negb (is_help (token argv 1)) && negb (is_version (token argv 1))
        then print_sed_status result st1
        else st1 in
      let st3 :=
        if negb (Ascii.eqb (c_short_name c) "V"%char)
        then log_command argv result (elapsed_ms e) st2
        else st2 in
      Some (result, st3)
  end.

(** ** Arity resolver *)

(** The test of [count_arg_params] that ends an argument list:
    ['-' == argv[i][0] && 0 != argv[i][1]]. *)
Definition ends_arguments (tok : string) : bool :=
  Ascii.eqb "-"%char (char_at tok 0) && negb (Ascii.eqb NUL (char_at tok 1)).

Fixpoint count_arg_params (argv : list string) : nat :=
  match argv with
  | [] => O
  | tok :: rest => if ends_arguments tok then O else S (count_arg_params rest)
  end.

(** An argument list cannot run on into [tail]: the stream is at its end,
    or its next token ends the count of [count_arg_params]. *)
Definition list_ends_here (tail : list string) : Prop :=
  match tail with
  | [] => True
  | t :: _ => ends_arguments t = true
  end.

(** The [invalid] flag args_parse computes for an option that declares an
    argument, from the number of parameters found. *)
Definition invalid_arity (o : cli_option) (args_count : nat) : bool :=
  if o_args_count o >? 0 then
    ((has_flag (o_flags o) CLI_OPTION_REQUIRED || has_flag (o_flags o) CLI_OPTION_OPTIONAL)
     && (args_count =? 0)%nat)
    || (Z.of_nat args_count >? o_args_count o)
  else false.

(** ** Configure hooks *)

Definition set_flags (c : cli_command) (flags : Z) : cli_command :=
  {| c_name := c_name c; c_short_name := c_short_name c; c_desc := c_desc c;
     c_long_desc := c_long_desc c; c_flags := flags; c_options := c_options c;
     c_namespace := c_namespace c; c_options_parse := c_options_parse c;
     c_namespace_opts_parse := c_namespace_opts_parse c; c_handle := c_handle c;
     c_configure := c_configure c; c_help := c_help c |}.

(** One round of the loop of [configure_cli_commands], on [commands[i]]. *)
Definition configure_command (i : nat) (c : cli_command) (st : state)
    : cli_command * state :=
  match c_configure c with
  | Some hook =>
      let '(r, w) := hook (world st) in
      let st' := record_call (CallConfigure i) (set_world w st) in
      if r <? 0 then (set_flags c (Z.lor (c_flags c) CLI_COMMAND_HIDDEN), st')
      else (c, st')
  | None => (c, st)
  end.

Fixpoint configure_from (i : nat) (commands : list cli_command) (st : state)
    : list cli_command * state :=
  match commands with
  | [] => ([], st)
  | c :: rest =>
      let '(c', st') := configure_command i c st in
      let '(rest', st'') := configure_from (S i) rest st' in
      (c' :: rest', st'')
  end.

Definition configure_cli_commands (commands : list cli_command) (st : state)
    : list cli_command * state :=
  configure_from 0 commands st.

(** ** Validator: the cardinality pass *)

(** [k]: how many tokens of the argument region match the descriptor. *)
Fixpoint occurrences (o : cli_option) (region : list string) : nat :=
  match region with
  | [] => O
  | tok :: rest =>
      if args_is tok (o_long_name o) (o_short_name o)
      then S (occurrences o rest)
      else occurrences o rest
  end.

Definition missing_required (option_name : string) : message :=
  Msg "sedcli: Missing required option %s.\n" [AStr option_name].

Definition supplied_too_many_times (option_name : string) : message :=
  Msg "sedcli: Option supplied too many times %s.\n" [AStr option_name].

(** The body of the loop over the option table: the error it reports, if
    any. *)
Definition check_cardinality (o : cli_option) (region : list string) : option message :=
  let k := occurrences o region in
  let option_name :=
    command_name_with_slash MAX_STR_LEN (o_short_name o) (o_long_name o) in
  if has_flag (o_flags o) CLI_OPTION_REQUIRED && (k =? 0)%nat
  then Some (missing_required option_name)
  else if negb (o_args_count o =? 0) && (Z.of_nat k >? o_args_count o)
  then Some (supplied_too_many_times option_name)
  else None.

Fixpoint validate (options : list cli_option) (region : list string) : option message :=
  match options with
  | [] => None
  | o :: rest =>
      match check_cardinality o region with
      | Some m => Some m
      | None => validate rest region
      end
  end.

(** A cardinality error is one of the two messages of the pass. *)
Definition cardinality_error (m : message) : Prop :=
  (exists name, m = missing_required name)
  \/ (exists name, m = supplied_too_many_times name).

(** ** Dispatcher *)

(** How a run of the parser ends: with the status it returns, or in
    behaviour the C standard leaves undefined (a store past the end of
    [args_list], a null name handed to [strncmp]). *)
Inductive outcome :=
  | Returned (status : Z)
  | Undefined.

(** The locals of args_parse that survive from one option to the next. *)
Record walker := {
  args_count : nat;
  args_offset : nat;
  args_list : list cell
}.

(** [args_list[k++] = argv[j + i + 1]] for each parameter. *)
Fixpoint store_params (k : nat) (params : list string) (buf : list cell) : list cell :=
  match params with
  | [] => buf
  | p :: rest => store_params (S k) rest (<[k := Ptr p]> buf)
  end.

Inductive params_result :=
  | ParamsTaken (w : walker) (consumed : nat)
  | ParamsInvalid
  | ParamsOverflow.

(** The block under [if (options[opt].arg != NULL)]: count the parameters
    that follow, check the arity, copy them to the buffer behind
    [args_offset] and close the list with a null pointer.  An option
    without an argument label leaves the locals as they are, [args_count]
    included. *)
Definition take_params (o : cli_option) (rest : list string) (w : walker)
    : params_result :=
  match o_arg o with
  | Some _ =>
      let n := count_arg_params rest in
      if invalid_arity o n then ParamsInvalid
      else if (args_offset w + n <? length (args_list w))%nat then
        ParamsTaken
          {| args_count := n;
             args_offset := args_offset w;
             args_list :=
               <[(args_offset w + n)%nat := Null]>
                 (store_params (args_offset w) (take n rest) (args_list w)) |}
          n
      else ParamsOverflow
  | None => ParamsTaken w O
  end.

(** The parse callback of the command, on [&args_list[args_offset]];
    [None] when the command has neither callback to offer. *)
Definition invoke_parse (cmd : nat) (c : cli_command) (entry : option cli_ns_entry)
    (o : cli_option) (view : list cell) (st : state) : option (Z * state) :=
  match c_options_parse c with
  | Some parse =>
      let '(status, w) := parse (o_long_name o) view (world st) in
      Some (status,
            record_call (CallOptionsParse cmd (o_long_name o) view) (set_world w st))
  | None =>
      match c_namespace_opts_parse c, entry with
      | Some parse, Some en =>
          let '(status, w) := parse (e_name en) (o_long_name o) view (world st) in
          Some (status,
                record_call (CallNamespaceOptsParse cmd (e_name en) (o_long_name o) view)
                  (set_world w st))
      | _, _ => None
      end
  end.

Inductive walk_result :=
  | WalkDone
  | WalkStop (result : outcome).

Definition fail_with (a : app) (m : message) (st : state) : walk_result * state :=
  (WalkStop (Returned FAILURE), print_info a (sedcli_printf LOG_ERR m st)).

(** The consuming walk [for (i = first_opt; i < argc; ++i)].  [tokens] is
    [argv] from index [i] on; [skip] counts the parameters of the last
    option that [i += args_count] steps over. *)
Fixpoint walk (a : app) (cmd : nat) (c : cli_command) (entry : option cli_ns_entry)
    (options : list cli_option) (tokens : list string) (skip : nat)
    (w : walker) (st : state) : walk_result * state :=
  match tokens with
  | [] => (WalkDone, st)
  | tok :: rest =>
      match skip with
      | S skip' => walk a cmd c entry options rest skip' w st
      | O =>
          if args_is_unrecognized tok then
            fail_with a (Msg "sedcli: Invalid format %s.\n" [AStr tok]) st
          else
            match get_option options tok with
            | None => fail_with a (Msg "sedcli: Unrecognized option %s.\n" [AStr tok]) st
            | Some opt =>
                match options !! opt with
                | None => (WalkStop Undefined, st)
                | Some o =>
                    match take_params o rest w with
                    | ParamsInvalid =>
                        fail_with a
                          (Msg "sedcli: Invalid number of arguments for %s.\n" [AStr tok]) st
                    | ParamsOverflow => (WalkStop Undefined, st)
                    | ParamsTaken w1 consumed =>
                        match invoke_parse cmd c entry o
                                (drop (args_offset w1) (args_list w1)) st with
                        | None =>
                            (WalkStop (Returned FAILURE),
                             sedcli_printf LOG_ERR (Msg "sedcli: Internal error.\n" []) st)
                        | Some (status, st1) =>
                            let w2 :=
                              {| args_count := args_count w1;
                                 args_offset := (args_offset w1 + args_count w1)%nat;
                                 args_list := args_list w1 |} in
                            if negb (status =? 0) then
                              fail_with a
                                (Msg "sedcli: Error during options handling.\n" []) st1
                            else walk a cmd c entry options rest consumed w2 st1
                        end
                    end
                end
            end
      end
  end.

(** args_parse from the cardinality pass on, with the option table and
    [first_opt] resolved. *)
Definition parse_options (a : app) (commands : list cli_command) (cmd : nat)
    (c : cli_command) (entry : option cli_ns_entry) (options : list cli_option)
    (first_opt : nat) (argv : list string) (st : state) : outcome * state :=
  let region := drop first_opt argv in
  match validate options region with
  | Some m => (Returned FAILURE, print_info a (sedcli_printf LOG_ERR m st))
  | None =>
      if negb (can_malloc e) then (Returned FAILURE, st)
      else
        let w0 := {| args_count := O; args_offset := O;
                     args_list := replicate (length argv + 1) Uninit |} in
        match walk a cmd c entry options region O w0 st with
        | (WalkStop r, st') => (r, st')
        | (WalkDone, st') =>
            match run_command commands cmd argv st' with
            | Some (r, st'') => (Returned r, st'')
            | None => (Undefined, st')
            end
        end
  end.

(** The loop that resolves the command; [None] is [cmd == -1]. *)
Fixpoint find_command_from (i : nat) (commands : list cli_command) (cmd_name : string)
    : option nat :=
  match commands with
  | [] => None
  | c :: rest =>
      if args_is cmd_name (c_name c) (c_short_name c) then Some i
      else find_command_from (S i) rest cmd_name
  end.

Definition find_command (commands : list cli_command) (cmd_name : string) : option nat :=
  find_command_from 0 commands cmd_name.

(** The loop that resolves the namespace entry, past its first round. *)
Fixpoint find_entry (name : string) (entries : list cli_ns_entry) : option cli_ns_entry :=
  match entries with
  | [] => None
  | en :: rest =>
      if strncmp name (e_name en) 255 =? 0 then Some en else find_entry name rest
  end.

Definition usage_error (a : app) (m : message) (st : state) : state :=
  print_info a (sedcli_printf LOG_ERR m st).

(** args_parse once the command is resolved and the hooks have run: the
    help short cut, the privilege check, the option table. *)
Definition dispatch (a : app) (commands : list cli_command) (cmd : nat)
    (argv : list string) (st : state) : outcome * state :=
  let argc := length argv in
  match commands !! cmd with
  | None => (Undefined, st)
  | Some c =>
      if (3 <=? argc)%nat && negb (get_help_position argv =? -1) then
        (Returned SUCCESS,
         if is_command_hidden commands cmd then st else print_command_help a cmd c st)
      else if is_su_required commands cmd && negb (uid e =? 0) then
        (Returned FAILURE, sedcli_printf LOG_ERR (Msg "sedcli: Must be run as root.\n" []) st)
      else
        match c_options c with
        | Some options => parse_options a commands cmd c None options 2 argv st
        | None =>
            match c_namespace c with
            | Some ns =>
                if (argc <? 3)%nat then
                  (Returned FAILURE,
                   usage_error a (Msg "sedcli: Missing namespace option.\n" []) st)
                else if (argc <? 4)%nat then
                  (Returned FAILURE,
                   usage_error a (Msg "sedcli: Missing namespace name.\n" []) st)
                else if negb (args_is (token argv 2) (ns_long_name ns) (ns_short_name ns)) then
                  (Returned FAILURE,
                   usage_error a (Msg "sedcli: Unrecognized option.\n" []) st)
                else
                  match ns_entries ns with
                  | [] => (Undefined, st)
                  | _ :: _ =>
                      match find_entry (token argv 3) (ns_entries ns) with
                      | None =>
                          (Returned FAILURE,
                           usage_error a
                             (Msg "sedcli: Unrecognized namespace entry.\n" []) st)
                      | Some en =>
                          parse_options a commands cmd c (Some en) (e_options en) 4 argv st
                      end
                  end
            | None =>
                match run_command commands cmd argv st with
                | Some (r, st') => (Returned r, st')
                | None => (Undefined, st)
                end
            end
        end
  end.

(** [args_parse]: the status, the command table as the configure hooks
    left it, and the final state. *)
Definition args_parse (a : app) (commands : list cli_command) (argv : list string)
    (st : state) : outcome * list cli_command * state :=
  let argc := length argv in
  let cmd_name := token argv 1 in
  if (argc <? 2)%nat then
    (Returned FAILURE, commands,
     usage_error a (Msg "sedcli: No command given.\n" []) st)
  else if args_is_unrecognized cmd_name then
    (Returned FAILURE, commands,
     usage_error a (Msg "sedcli: Unrecognized command %s.\n" [AStr cmd_name]) st)
  else
    match find_command commands cmd_name with
    | None =>
        if is_help cmd_name then
          (Returned SUCCESS, commands,
           sedcli_printf_all LOG_INFO (print_help a commands) st)
        else
          (Returned FAILURE, commands,
           usage_error a (Msg "sedcli: Unrecognized command %s.\n" [AStr cmd_name]) st)
    | Some cmd =>
        let '(commands', st') := configure_cli_commands commands st in
        let '(r, st'') := dispatch a commands' cmd argv st' in
        (r, commands', st'')
    end.

(** Two command descriptors that differ at most in their flags and agree
    on the privilege requirement: what hiding one of them changes. *)
Definition agree_but_hidden (c1 c2 : cli_command) : Prop :=
  c2 = set_flags c1 (c_flags c2)
  /\ has_flag (c_flags c2) CLI_SU_REQUIRED = has_flag (c_flags c1) CLI_SU_REQUIRED.

(** The callbacks that the help short cut may reach. *)
Definition configure_or_help (k : call) : Prop :=
  exists i, k = CallConfigure i \/ k = CallHelp i.

(** ** The stages of a run, as predicates *)

(** The first token resolves to the command at index [cmd]. *)
Definition resolves (commands : list cli_command) (argv : list string) (cmd : nat) : Prop :=
  (2 <= length argv)%nat
  /\ args_is_unrecognized (token argv 1) = false
  /\ find_command commands (token argv 1) = Some cmd.

(** No token from position 2 on asks for help. *)
Definition no_help (argv : list string) : Prop := get_help_position argv = -1.

(** The privilege check lets the command through. *)
Definition privileged (commands : list cli_command) (cmd : nat) : Prop :=
  is_su_required commands cmd = false \/ uid e = 0.

(** The option table args_parse settles on for a command, the namespace
    entry it belongs to and the position of the first option. *)
Inductive active_table (c : cli_command) (argv : list string)
    : option cli_ns_entry -> list cli_option -> nat -> Prop :=
  | FlatTable options :
      c_options c = Some options ->
      active_table c argv None options 2
  | NamespaceTable ns en :
      c_options c = None ->
      c_namespace c = Some ns ->
      (4 <= length argv)%nat ->
      args_is (token argv 2) (ns_long_name ns) (ns_short_name ns) = true ->
      find_entry (token argv 3) (ns_entries ns) = Some en ->
      active_table c argv (Some en) (e_options en) 4.

(** args_parse gets as far as the cardinality pass: the command resolves,
    the hooks leave [commands'] and [st'], nobody asks for help, the
    privilege check passes and the option table is settled. *)
Definition reaches_table (commands : list cli_command) (argv : list string)
    (st : state) (commands' : list cli_command) (st' : state) (cmd : nat)
    (c : cli_command) (entry : option cli_ns_entry) (options : list cli_option)
    (first_opt : nat) : Prop :=
  resolves commands argv cmd
  /\ configure_cli_commands commands st = (commands', st')
  /\ commands' !! cmd = Some c
  /\ no_help argv
  /\ privileged commands' cmd
  /\ active_table c argv entry options first_opt.

End Model.

(** * The rest of the file

    The two exported renderers that take a [view] callback, and the
    notions in which the further properties are stated. *)

Section Renderers.

Context {World : Type}.
Context `{hdr : headers}.

(** The loop of [print_options_usage]; [print_separator] is the local of
    that name.  [view] is the caller's filter: 0 leaves the option out. *)
Fixpoint print_options_usage_from (print_separator : bool) (options : list cli_option)
    (separator : string) (view : cli_option -> Z -> Z) (flag : Z) : list message :=
  match options with
  | [] => []
  | o :: rest =>
      if view o flag =? 0 then
        print_options_usage_from print_separator rest separator view flag
      else
        (if print_separator then [Msg "%s" [AStr separator]] else [])
        ++ [Msg "--%s" [AStr (o_long_name o)]]
        ++ match o_arg o with
           | Some arg => [Msg " <%s>" [AStr arg]]
           | None => []
           end
        ++ print_options_usage_from true rest separator view flag
  end.

(** [print_options_usage]; [None] is a null table. *)
Definition print_options_usage (options : option (list cli_option)) (separator : string)
    (view : cli_option -> Z -> Z) (flag : Z) : list message :=
  match options with
  | None => []
  | Some table => print_options_usage_from false table separator view flag
  end.

Definition print_list_options_line (o : cli_option) : message :=
  let short_name := get_short_name_string (o_short_name o) in
  match o_arg o with
  | Some arg =>
      let buf :=
        if has_flag (o_flags o) CLI_OPTION_OPTIONAL
        then snprintf MAX_OPT_HELP_LEN ("--" ++ o_long_name o ++ " [<" ++ arg ++ ">]")
        else snprintf MAX_OPT_HELP_LEN ("--" ++ o_long_name o ++ " <" ++ arg ++ ">") in
      Msg "%s%-4s%-32s%s\n" [AStr PADDING; AStr short_name; AStr buf; AStr (o_desc o)]
  | None =>
      Msg "%s%-4s--%-30s%s\n"
        [AStr PADDING; AStr short_name; AStr (o_long_name o); AStr (o_desc o)]
  end.

Fixpoint print_list_options (options : list cli_option) (flag : Z)
    (view : cli_option -> Z -> Z) : list message :=
  match options with
  | [] => []
  | o :: rest =>
      if view o flag =? 0 then print_list_options rest flag view
      else print_list_options_line o :: print_list_options rest flag view
  end.

(** What [print_options_usage] prints for one option it shows. *)
Definition option_usage_item (o : cli_option) : list message :=
  Msg "--%s" [AStr (o_long_name o)]
  :: match o_arg o with
     | Some arg => [Msg " <%s>" [AStr arg]]
     | None => []
     end.

(** Whether every store of the loop of [log_command] lands inside the
    buffer as it is sized at that moment: [memcpy] fills
    [cmd_len .. cmd_len + tok_len - 1] and the separator goes to
    [cmd_len + tok_len]. *)
Fixpoint log_command_stores_fit (tokens : list string) (cmd_len cmd_buf_len : nat) : bool :=
  match tokens with
  | [] => true
  | tok :: rest =>
      let tok_len := strnlen tok MAX_STR_LEN in
      let grow := (cmd_buf_len <? tok_len + 1 + cmd_len)%nat in
      let cmd_buf_len' :=
        if grow then ((tok_len + 1 + cmd_buf_len) * 2)%nat else cmd_buf_len in
      (cmd_len + tok_len + 1 <=? cmd_buf_len')%nat
      && log_command_stores_fit rest (cmd_len + tok_len + 1)%nat cmd_buf_len'
  end.

(** The bytes of a token that the loop of [log_command] copies. *)
Definition truncated (tok : string) : string :=
  String.substring 0 (strnlen tok MAX_STR_LEN) tok.

(** Tokens joined by single spaces. *)
Fixpoint join_tokens (tokens : list string) : string :=
  match tokens with
  | [] => EmptyString
  | tok :: rest =>
      match rest with
      | [] => tok
      | _ :: _ => (tok ++ " " ++ join_tokens rest)%string
      end
  end.

(** The messages of a console transcript that went to the standard error. *)
Definition stderr_messages (out : list (stream * message)) : list message :=
  flat_map (fun entry => match fst entry with
                         | Stderr => [snd entry]
                         | Stdout => []
                         end) out.

(** Every step of the log writer succeeds. *)
Definition log_writable (e : env) : bool :=
  log_fopen e && log_lockf e && have_localtime e && have_asctime e.

(** The calls of the configure hooks of a table, from index [i] on. *)
Fixpoint configure_calls_from (i : nat) (commands : list (@cli_command World))
    : list call :=
  match commands with
  | [] => []
  | c :: rest =>
      match c_configure c with
      | Some _ => CallConfigure i :: configure_calls_from (S i) rest
      | None => configure_calls_from (S i) rest
      end
  end.

Definition is_handle_call (k : call) : bool :=
  match k with
  | CallHandle _ => true
  | _ => false
  end.

Definition command_visible (c : @cli_command World) : bool :=
  negb (has_flag (c_flags c) CLI_COMMAND_HIDDEN).

Definition option_visible (o : cli_option) : bool :=
  negb (has_flag (o_flags o) CLI_OPTION_HIDDEN).

(** What a stretch of the run leaves behind: the console grows by [out],
    the calls grow by [new], and the log file grows by the messages of
    [out] that went to the standard error when the log can be written, by
    nothing when it cannot be opened. *)
Definition transcript (e : env) (st st' : @state World) (out : list (stream * message))
    (new : list call) : Prop :=
  console st' = (console st ++ out)%list
  /\ calls st' = (calls st ++ new)%list
  /\ (log_writable e = true -> logfile st' = (logfile st ++ stderr_messages out)%list)
  /\ (log_fopen e = false -> logfile st' = logfile st).

(** The state changes by output alone. *)
Definition only_prints (e : env) (st st' : @state World) (out : list (stream * message))
    : Prop :=
  world st' = world st /\ transcript e st st' out [].

(** A call of a parse callback of the command [cmd]. *)
Definition parse_call (cmd : nat) (k : call) : Prop :=
  (exists long_name args, k = CallOptionsParse cmd long_name args)
  \/ (exists entry long_name args, k = CallNamespaceOptsParse cmd entry long_name args).

(** The shape of a whole run from [st] to [final] with the answer [r]:
    either [handle] is never invoked and the answer is SUCCESS, FAILURE or
    undefined behaviour, or [handle] is the last call and the only one of
    its kind, and the answer is the status it gave. *)
Definition run_shape (e : env) (commands : list (@cli_command World))
    (st final : @state World) (r : outcome) : Prop :=
  exists out pre,
    Forall (fun k => is_handle_call k = false) pre
    /\ ((transcript e st final out pre
         /\ (r = Returned SUCCESS \/ r = Returned FAILURE \/ r = Undefined))
        \/ (exists cmd c w,
              transcript e st final out (pre ++ [CallHandle cmd])%list
              /\ commands !! cmd = Some c
              /\ r = Returned (fst (c_handle c w)))).

(** The descriptor of a command with another flat option table. *)
Definition set_options (c : @cli_command World) (options : option (list cli_option))
    : @cli_command World :=
  {| c_name := c_name c; c_short_name := c_short_name c; c_desc := c_desc c;
     c_long_desc := c_long_desc c; c_flags := c_flags c; c_options := options;
     c_namespace := c_namespace c; c_options_parse := c_options_parse c;
     c_namespace_opts_parse := c_namespace_opts_parse c; c_handle := c_handle c;
     c_configure := c_configure c; c_help := c_help c |}.

(** The view that shows the options without the flag [flag]. *)
Definition without_flag (o : cli_option) (flag : Z) : Z :=
  if has_flag (o_flags o) flag then 0 else 1.

(** The long name of the first descriptor of the table that a token
    matches. *)
Definition matched_name (options : list cli_option) (tok : string) : string :=
  match get_option options tok with
  | Some opt =>
      match options !! opt with
      | Some o => o_long_name o
      | None => EmptyString
      end
  | None => EmptyString
  end.

(** A command line read as options with their parameters: a token that is
    not stepped over opens a group, and its parameters are the tokens that
    follow it as far as [count_arg_params] counts.  [skip] is the number
    of tokens still to step over. *)
Fixpoint option_groups (tokens : list string) (skip : nat)
    : list (string * list string) :=
  match tokens with
  | [] => []
  | tok :: rest =>
      match skip with
      | S skip' => option_groups rest skip'
      | O =>
          (tok, take (count_arg_params rest) rest)
          :: option_groups rest (count_arg_params rest)
      end
  end.

(** The walk of args_parse has nothing to object to a group: the token is
    well formed, a descriptor of the table matches it and the number of
    parameters suits that descriptor. *)
Definition group_accepted (options : list cli_option) (g : string * list string) : bool :=
  negb (args_is_unrecognized (fst g))
  && match get_option options (fst g) with
     | Some opt =>
         match options !! opt with
         | Some o => negb (invalid_arity o (length (snd g)))
         | None => false
         end
     | None => false
     end.

(** A parse callback was handed the option [name] and a list that begins
    with [params] and a null pointer. *)
Definition parse_call_of (cmd : nat) (name : string) (params : list string) (k : call)
    : Prop :=
  exists view,
    k = CallOptionsParse cmd name view
    /\ take (S (length params)) view = ((Ptr <$> params) ++ [Null])%list.

End Renderers.

(** * A concrete setting

    Values for the header constants, an environment and a small command
    table, on which the parser is run in the worked examples below.  The
    world of the callbacks is [unit]: they only answer a status. *)

Definition demo_headers : headers :=
  {| MAX_STR_LEN := 256; SUCCESS := 0; FAILURE := 1;
     CLI_OPTION_REQUIRED := 1; CLI_OPTION_HIDDEN := 2; CLI_OPTION_OPTIONAL := 16;
     CLI_SU_REQUIRED := 1; CLI_COMMAND_HIDDEN := 2;
     SED_CLI_STANDARD := 0; SED_CLI_KMIP := 1;
     KMIP_FAILURE := -1; KMIP_SUCCESS := 0; KMIP_SUCCESS_CONNECTED := 1 |}.

Definition demo_env : env :=
  {| uid := 0; can_malloc := true; can_realloc := true; log_fopen := true;
     log_lockf := true; have_localtime := true; have_asctime := true;
     elapsed_ms := 1234 |}.

Definition demo_app : app :=
  {| app_name := "sedcli"; app_info := "<command> [option...]";
     app_title := "sedcli"; app_man := None |}.

Definition demo_state : @state unit :=
  {| world := tt; console := []; logfile := []; calls := [] |}.

Definition demo_mode (_ : unit) : Z := 0.
Definition demo_nvme_error (_ : unit) : Z := 0.

(** [--device <dev>], required, at most one parameter *)
Definition opt_device : cli_option :=
  {| o_long_name := "device"; o_short_name := "d"; o_desc := "device";
     o_args_count := 1; o_arg := Some "dev"; o_flags := 1 |}.

(** [--pin <pin>], not required, at most one parameter *)
Definition opt_pin : cli_option :=
  {| o_long_name := "pin"; o_short_name := "p"; o_desc := "pin";
     o_args_count := 1; o_arg := Some "pin"; o_flags := 0 |}.

(** [--verbose], not required, no argument, [args_count] left at 0 *)
Definition opt_verbose : cli_option :=
  {| o_long_name := "verbose"; o_short_name := "v"; o_desc := "verbose";
     o_args_count := 0; o_arg := None; o_flags := 0 |}.

(** A command [--setup] (-s) over the given option table; its callbacks
    accept everything. *)
Definition demo_command (flags : Z) (options : option (list cli_option))
    (configure : option (unit -> Z * unit)) : @cli_command unit :=
  {| c_name := "setup"; c_short_name := "s"; c_desc := "set up"; c_long_desc := None;
     c_flags := flags; c_options := options; c_namespace := None;
     c_options_parse := Some (fun _ _ w => (0, w));
     c_namespace_opts_parse := None;
     c_handle := fun w => (0, w);
     c_configure := configure; c_help := None |}.

Definition demo_args_parse (commands : list (@cli_command unit)) (argv : list string) :=
  @args_parse unit demo_headers demo_mode demo_nvme_error demo_env demo_app commands argv
    demo_state.

(** [--key <key>], required, no short name *)
Definition opt_key : cli_option :=
  {| o_long_name := "key"; o_short_name := NUL; o_desc := "key";
     o_args_count := 1; o_arg := Some "key"; o_flags := 1 |}.

(** The command table with the one command [--setup] over [options]. *)
Definition demo_flat (options : list cli_option) : list (@cli_command unit) :=
  [demo_command 0 (Some options) None].

(** A configure hook that answers a negative value. *)
Definition negative_hook (w : unit) : Z * unit := (-1, w).

(** The locals of the walk as args_parse initialises them, over a buffer
    of [n] slots. *)
Definition demo_walker (n : nat) : walker :=
  {| args_count := O; args_offset := O; args_list := replicate n Uninit |}.

Definition argv_pin_twice : list string :=
  ["sedcli"; "--setup"; "--pin"; "a"; "--pin"; "b"].

(** [--files <file>...], not required, any number of parameters *)
Definition opt_files : cli_option :=
  {| o_long_name := "files"; o_short_name := "f"; o_desc := "files";
     o_args_count := 0; o_arg := Some "file"; o_flags := 0 |}.

(** A caller who is not root. *)
Definition demo_user_env : env :=
  {| uid := 1000; can_malloc := true; can_realloc := true; log_fopen := true;
     log_lockf := true; have_localtime := true; have_asctime := true;
     elapsed_ms := 1234 |}.

(** [--secret], hidden, no argument *)
Definition opt_secret : cli_option :=
  {| o_long_name := "secret"; o_short_name := NUL; o_desc := "secret";
     o_args_count := 0; o_arg := None; o_flags := 2 |}.

(** The namespace [--type] (-t) with the entries [disk] and [key]. *)
Definition demo_namespace : cli_namespace :=
  {| ns_long_name := "type"; ns_short_name := "t";
     ns_entries :=
       [ {| e_name := "disk"; e_desc := "a disk"; e_options := [opt_device] |};
         {| e_name := "key"; e_desc := "a key"; e_options := [opt_key] |} ] |}.

(** A command [--list] (-l) over the namespace [--type]. *)
Definition demo_ns_command : @cli_command unit :=
  {| c_name := "list"; c_short_name := "l"; c_desc := "list"; c_long_desc := None;
     c_flags := 0; c_options := None; c_namespace := Some demo_namespace;
     c_options_parse := None;
     c_namespace_opts_parse := Some (fun _ _ _ w => (0, w));
     c_handle := fun w => (0, w);
     c_configure := None; c_help := None |}.

(** An environment in which [malloc] fails. *)
Definition demo_no_memory_env : env :=
  {| uid := 0; can_malloc := false; can_realloc := true; log_fopen := true;
     log_lockf := true; have_localtime := true; have_asctime := true;
     elapsed_ms := 1234 |}.

(** * Properties *)

(** ** Token classifier *)

(** An ASCII letter, by its code. *)
Definition ascii_letter (c : ascii) : Prop :=
  65 <= char_code c <= 90 \/ 97 <= char_code c <= 122.

(** The two option forms in the words of the specification (section 4.1):
    a dash and exactly one letter; two dashes, a letter and whatever
    follows. *)
Definition short_option_form (tok : string) : Prop :=
  exists c, ascii_letter c /\ tok = String "-" (String c EmptyString).

Definition long_option_form (tok : string) : Prop :=
  exists c rest, ascii_letter c /\ tok = String "-" (String "-" (String c rest)).

Local Arguments Ascii.eqb : simpl never.
Local Arguments is_letter : simpl never.

Lemma char_at_0 c s : char_at (String c s) 0 = c.
Proof. reflexivity. Qed.

Lemma char_at_S c s i : char_at (String c s) (S i) = char_at s i.
Proof. reflexivity. Qed.

Lemma char_at_empty i : char_at EmptyString i = NUL.
Proof. by destruct i. Qed.

Ltac read_chars :=
  repeat (rewrite ?char_at_S, ?char_at_0, ?char_at_empty; cbn [strempty]).

Lemma is_letter_spec c : is_letter c = true <-> ascii_letter c.
Proof.
  unfold is_letter, ascii_letter.
  change (char_code "a") with 97. change (char_code "z") with 122.
  change (char_code "A") with 65. change (char_code "Z") with 90.
  rewrite orb_true_iff, !andb_true_iff, !Z.leb_le. tauto.
Qed.

Lemma dash_not_letter : is_letter "-" = false.
Proof. reflexivity. Qed.

Lemma NUL_not_letter : is_letter NUL = false.
Proof. reflexivity. Qed.

Lemma cstring_cons c s : cstring (String c s) <-> c <> NUL /\ cstring s.
Proof. unfold cstring. simpl. apply (Forall_cons (fun a => a <> NUL)). Qed.

(** C7. On every well-formed token, [args_is_unrecognized] answers 0
    exactly for the short form (a dash and one ASCII letter, nothing more)
    and the long form (two dashes and then a letter, whatever follows); the
    two forms exclude each other, and the empty string, a bare dash, a dash
    before a non-letter and two dashes before a non-letter are
    unrecognized. *)
Theorem token_classification (tok : string) :
  cstring tok ->
  (args_is_unrecognized tok = false <-> short_option_form tok \/ long_option_form tok)
  /\ ~ (short_option_form tok /\ long_option_form tok)
  /\ args_is_unrecognized "" = true
  /\ args_is_unrecognized "-" = true
  /\ (forall c rest, is_letter c = false ->
        args_is_unrecognized (String "-" (String "-" (String c rest))) = true)
  /\ (forall c rest, is_letter c = false -> c <> "-"%char ->
        args_is_unrecognized (String "-" (String c rest)) = true).
Proof.
  intros Hc. split; [|split; [|split; [|split; [|split]]]].
  - split.
    + destruct tok as [|c0 [|c1 [|c2 rest]]];
        unfold args_is_unrecognized; read_chars; try discriminate.
      * destruct (Ascii.eqb_spec "-" c0); discriminate.
      * destruct (Ascii.eqb_spec "-" c0); try discriminate; subst.
        destruct (is_letter c1) eqn:E.
        -- intros _. left. exists c1. split; [by apply is_letter_spec | done].
        -- destruct (Ascii.eqb_spec "-" c1); discriminate.
      * destruct (Ascii.eqb_spec "-" c0); try discriminate; subst.
        apply cstring_cons in Hc as [_ Hc]. apply cstring_cons in Hc as [_ Hc].
        apply cstring_cons in Hc as [Hc2 _].
        destruct (is_letter c1) eqn:E.
        -- destruct (Ascii.eqb_spec NUL c2); [congruence | discriminate].
        -- destruct (Ascii.eqb_spec "-" c1); try discriminate; subst.
           destruct (is_letter c2) eqn:E2; try discriminate.
           intros _. right. exists c2, rest. split; [by apply is_letter_spec | done].
    + intros [(c & Hl & ->) | (c & rest & Hl & ->)].
      * apply is_letter_spec in Hl. unfold args_is_unrecognized; read_chars.
        by rewrite Hl.
      * apply is_letter_spec in Hl. unfold args_is_unrecognized; read_chars.
        by rewrite dash_not_letter, Hl.
  - intros [(c & Hl & ->) (c' & rest & Hl' & Heq)]. discriminate.
  - reflexivity.
  - reflexivity.
  - intros c rest Hl. unfold args_is_unrecognized; read_chars.
    by rewrite dash_not_letter, Hl.
  - intros c rest Hl Hd. unfold args_is_unrecognized; read_chars. rewrite Hl.
    destruct (Ascii.eqb_spec "-" c); [congruence | done].
Qed.

(** ** The state a run leaves *)

Section Facts.

Context {World : Type}.
Context `{hdr : headers}.
Variable sed_cli : World -> Z.
Variable nvme_error : World -> Z.
Variable e : env.

Abbreviation state := (@state World).
Abbreviation cli_command := (@cli_command World).

Implicit Types (st : state) (m : message) (a : app).

Lemma calls_vsedcli_log level m st : calls (snd (vsedcli_log e level m st)) = calls st.
Proof.
  unfold vsedcli_log.
  repeat match goal with |- context [if ?b then _ else _] => destruct b end; reflexivity.
Qed.

Lemma world_vsedcli_log level m st : world (snd (vsedcli_log e level m st)) = world st.
Proof.
  unfold vsedcli_log.
  repeat match goal with |- context [if ?b then _ else _] => destruct b end; reflexivity.
Qed.

Lemma calls_sedcli_printf level m st : calls (sedcli_printf e level m st) = calls st.
Proof.
  unfold sedcli_printf, std_printf.
  destruct (LOG_WARNING >=? level); [by rewrite calls_vsedcli_log | reflexivity].
Qed.

Lemma world_sedcli_printf level m st : world (sedcli_printf e level m st) = world st.
Proof.
  unfold sedcli_printf, std_printf.
  destruct (LOG_WARNING >=? level); [by rewrite world_vsedcli_log | reflexivity].
Qed.

Lemma calls_sedcli_printf_all level ms st :
  calls (sedcli_printf_all e level ms st) = calls st.
Proof.
  unfold sedcli_printf_all. revert st.
  induction ms as [|m ms IH]; intros st; simpl; [reflexivity|].
  by rewrite IH, calls_sedcli_printf.
Qed.

Lemma calls_print_info a st : calls (print_info e a st) = calls st.
Proof. apply calls_sedcli_printf. Qed.

Lemma calls_usage_error a m st : calls (usage_error e a m st) = calls st.
Proof. unfold usage_error. by rewrite calls_print_info, calls_sedcli_printf. Qed.

(** ** From args_parse to the cardinality pass *)

Lemma dispatch_active a commands cmd c entry options first_opt argv st :
  commands !! cmd = Some c ->
  no_help argv ->
  privileged e commands cmd ->
  active_table c argv entry options first_opt ->
  dispatch sed_cli nvme_error e a commands cmd argv st
  = parse_options sed_cli nvme_error e a commands cmd c entry options first_opt argv st.
Proof.
  intros Hc Hh Hp Ht. unfold dispatch. rewrite Hc.
  unfold no_help in Hh. rewrite Hh. rewrite Z.eqb_refl, andb_false_r.
  replace (is_su_required commands cmd && negb (uid e =? 0)) with false.
  2: { destruct Hp as [-> | ->]; [reflexivity | by rewrite andb_false_r]. }
  destruct Ht as [options Ho | ns en Ho Hn Hlen Hsel Hent].
  - by rewrite Ho.
  - rewrite Ho, Hn, Hsel. simpl.
    replace (length argv <? 3)%nat with false by (symmetry; apply Nat.ltb_ge; lia).
    replace (length argv <? 4)%nat with false by (symmetry; apply Nat.ltb_ge; lia).
    rewrite Hent. destruct (ns_entries ns); [discriminate | reflexivity].
Qed.

Lemma args_parse_reaches a commands argv st commands' st' cmd c entry options first_opt :
  reaches_table e commands argv st commands' st' cmd c entry options first_opt ->
  args_parse sed_cli nvme_error e a commands argv st
  = (let '(r, s) := parse_options sed_cli nvme_error e a commands' cmd c entry options
                      first_opt argv st' in
     (r, commands', s)).
Proof.
  intros ((Hlen & Hrec & Hfind) & Hconf & Hc & Hh & Hp & Ht).
  unfold args_parse.
  replace (length argv <? 2)%nat with false by (symmetry; apply Nat.ltb_ge; lia).
  rewrite Hrec, Hfind, Hconf.
  by rewrite (dispatch_active a commands' cmd c entry options first_opt argv st').
Qed.

(** ** Validator *)

Implicit Types (o : cli_option) (options : list cli_option) (region : list string).

Lemma validate_app options1 options2 region :
  validate (options1 ++ options2) region
  = match validate options1 region with
    | Some m => Some m
    | None => validate options2 region
    end.
Proof.
  induction options1 as [|o options1 IH]; simpl; [reflexivity|].
  destruct (check_cardinality o region); [reflexivity | apply IH].
Qed.

Lemma validate_None options region :
  validate options region = None
  <-> Forall (fun o => check_cardinality o region = None) options.
Proof.
  induction options as [|o options IH]; simpl.
  - split; [constructor | reflexivity].
  - rewrite Forall_cons. destruct (check_cardinality o region) eqn:E.
    + split; [discriminate | intros [? _]; discriminate].
    + rewrite IH. tauto.
Qed.

(** The error of the pass is the error of the first descriptor, in table
    order, whose own check fails. *)
Lemma validate_first before o after region m :
  Forall (fun o' => check_cardinality o' region = None) before ->
  check_cardinality o region = Some m ->
  validate (before ++ o :: after)%list region = Some m.
Proof.
  intros Hb Ho. rewrite validate_app.
  apply validate_None in Hb. rewrite Hb. simpl. by rewrite Ho.
Qed.

Lemma validate_Some options region m :
  validate options region = Some m ->
  exists before o after,
    options = (before ++ o :: after)%list
    /\ Forall (fun o' => check_cardinality o' region = None) before
    /\ check_cardinality o region = Some m.
Proof.
  induction options as [|o options IH]; simpl; [discriminate|].
  destruct (check_cardinality o region) eqn:E.
  - intros [= ->]. exists [], o, options. repeat split; [constructor | done].
  - intros Hv. destruct (IH Hv) as (before & o' & after & -> & Hb & Ho).
    exists (o :: before), o', after. repeat split; [by constructor | done].
Qed.

Lemma validate_violation options region o :
  o ∈ options ->
  check_cardinality o region <> None ->
  exists m, validate options region = Some m.
Proof.
  intros Hin Hne. destruct (validate options region) eqn:E; [eauto|].
  apply validate_None in E. rewrite Forall_forall in E. by specialize (E o Hin).
Qed.

Lemma check_cardinality_error o region m :
  check_cardinality o region = Some m -> cardinality_error m.
Proof.
  unfold check_cardinality, cardinality_error.
  repeat match goal with |- context [if ?b then _ else _] => destruct b end;
    intros [= <-]; eauto.
Qed.

Lemma check_cardinality_missing o region :
  has_flag (o_flags o) CLI_OPTION_REQUIRED = true ->
  occurrences o region = O ->
  check_cardinality o region
  = Some (missing_required
            (command_name_with_slash MAX_STR_LEN (o_short_name o) (o_long_name o))).
Proof. intros Hr Hk. unfold check_cardinality. by rewrite Hr, Hk. Qed.

Lemma check_cardinality_too_many o region :
  o_args_count o <> 0 ->
  Z.of_nat (occurrences o region) > o_args_count o ->
  (has_flag (o_flags o) CLI_OPTION_REQUIRED = true -> occurrences o region <> O) ->
  check_cardinality o region
  = Some (supplied_too_many_times
            (command_name_with_slash MAX_STR_LEN (o_short_name o) (o_long_name o))).
Proof.
  intros Hn Hk Hr. unfold check_cardinality.
  destruct (has_flag (o_flags o) CLI_OPTION_REQUIRED) eqn:E; simpl.
  - destruct (Nat.eqb_spec (occurrences o region) 0) as [E0|_]; [by destruct Hr|].
    destruct (Z.eqb_spec (o_args_count o) 0); [done|]. simpl.
    destruct (Z.gtb_spec (Z.of_nat (occurrences o region)) (o_args_count o)); [done | lia].
  - destruct (Z.eqb_spec (o_args_count o) 0); [done|]. simpl.
    destruct (Z.gtb_spec (Z.of_nat (occurrences o region)) (o_args_count o)); [done | lia].
Qed.

(** The pass fails: args_parse returns FAILURE with the error of the pass
    and the usage hint, before the argument buffer exists and before any
    token is walked. *)
Lemma parse_options_invalid a commands cmd c entry options first_opt argv st m :
  validate options (drop first_opt argv) = Some m ->
  parse_options sed_cli nvme_error e a commands cmd c entry options first_opt argv st
  = (Returned FAILURE, usage_error e a m st).
Proof. intros Hv. unfold parse_options. by rewrite Hv. Qed.

Lemma args_parse_invalid a commands argv st commands' st' cmd c entry options first_opt m :
  reaches_table e commands argv st commands' st' cmd c entry options first_opt ->
  validate options (drop first_opt argv) = Some m ->
  args_parse sed_cli nvme_error e a commands argv st
  = (Returned FAILURE, commands', usage_error e a m st').
Proof.
  intros Hr Hv. rewrite (args_parse_reaches _ _ _ _ _ _ _ _ _ _ _ Hr).
  by rewrite (parse_options_invalid _ _ _ _ _ _ _ _ _ m Hv).
Qed.

Lemma substring_all s n : (String.length s <= n)%nat -> String.substring 0 n s = s.
Proof.
  revert n. induction s as [|c s IH]; intros n Hn.
  - by destruct n.
  - destruct n as [|n]; simpl in *; [lia|]. f_equal. apply IH. lia.
Qed.

Lemma snprintf_fits size s : (String.length s < size)%nat -> snprintf size s = s.
Proof. intros Hs. unfold snprintf. apply substring_all. lia. Qed.

(** How [command_name_with_slash] names an option when the name fits the
    buffer: both forms when there is a short name, the long form alone when
    there is none. *)
Lemma command_name_with_slash_fits short_name long_name :
  (5 + String.length long_name < MAX_STR_LEN)%nat ->
  command_name_with_slash MAX_STR_LEN short_name long_name
  = if Ascii.eqb short_name NUL then ("--" ++ long_name)%string
    else String "-" (String short_name ("/--" ++ long_name)%string).
Proof.
  intros Hlen. unfold command_name_with_slash.
  destruct (Ascii.eqb short_name NUL); apply snprintf_fits; simpl; lia.
Qed.

(** A failing check anywhere in the table stops args_parse in the pass. *)
Lemma cardinality_failure a commands argv st commands' st' cmd c entry options
    first_opt o :
  reaches_table e commands argv st commands' st' cmd c entry options first_opt ->
  o ∈ options ->
  check_cardinality o (drop first_opt argv) <> None ->
  exists m,
    cardinality_error m
    /\ args_parse sed_cli nvme_error e a commands argv st
       = (Returned FAILURE, commands', usage_error e a m st')
    /\ calls (usage_error e a m st') = calls st'.
Proof.
  intros Hr Hin Hne.
  destruct (validate_violation options _ o Hin Hne) as [m Hv].
  destruct (validate_Some _ _ _ Hv) as (? & o' & ? & _ & _ & Ho').
  exists m. split; [by apply check_cardinality_error in Ho'|].
  split; [by eapply args_parse_invalid | apply calls_usage_error].
Qed.

(** C5. Once args_parse has settled on an option table, a cardinality
    violation anywhere in that table decides the run: the pass over the
    table comes before the consuming walk, so args_parse returns FAILURE
    with a cardinality error (the one the pass finds first) and its usage
    hint whatever the tokens of the argument region are, an unrecognized or
    ill-formed token in front included; no callback runs. *)
Theorem cardinality_error_takes_precedence a commands argv st commands' st' cmd c
    entry options first_opt o :
  reaches_table e commands argv st commands' st' cmd c entry options first_opt ->
  o ∈ options ->
  check_cardinality o (drop first_opt argv) <> None ->
  exists m,
    validate options (drop first_opt argv) = Some m
    /\ cardinality_error m
    /\ args_parse sed_cli nvme_error e a commands argv st
       = (Returned FAILURE, commands', usage_error e a m st')
    /\ calls (usage_error e a m st') = calls st'.
Proof.
  intros Hr Hin Hne.
  destruct (validate_violation options _ o Hin Hne) as [m Hv].
  exists m. split; [done|]. split.
  - destruct (validate_Some _ _ _ Hv) as (? & o' & ? & _ & _ & Ho').
    by apply check_cardinality_error in Ho'.
  - split; [by eapply args_parse_invalid | apply calls_usage_error].
Qed.

(** C1, amended. When a descriptor of the active option table carries the
    REQUIRED flag and no token of the argument region matches it, args_parse
    returns FAILURE with a cardinality error and no callback runs after the
    configure hooks, so [handle] is not invoked.  The error is that of the
    first descriptor in table order whose check fails: it is "Missing
    required option" for this descriptor when every descriptor before it
    passes its own check.  The option is named [-x/--long], or [--long]
    alone when it has no short name.  A region in which the descriptor
    occurs exactly once never makes its check report this error. *)
Theorem required_option_absent a commands argv st commands' st' cmd c entry
    before o after first_opt :
  reaches_table e commands argv st commands' st' cmd c entry
    (before ++ o :: after)%list first_opt ->
  has_flag (o_flags o) CLI_OPTION_REQUIRED = true ->
  occurrences o (drop first_opt argv) = O ->
  let name := command_name_with_slash MAX_STR_LEN (o_short_name o) (o_long_name o) in
  (exists m,
     cardinality_error m
     /\ args_parse sed_cli nvme_error e a commands argv st
        = (Returned FAILURE, commands', usage_error e a m st')
     /\ calls (usage_error e a m st') = calls st')
  /\ (Forall (fun o' => check_cardinality o' (drop first_opt argv) = None) before ->
      args_parse sed_cli nvme_error e a commands argv st
      = (Returned FAILURE, commands', usage_error e a (missing_required name) st'))
  /\ ((5 + String.length (o_long_name o) < MAX_STR_LEN)%nat ->
      name = if Ascii.eqb (o_short_name o) NUL then ("--" ++ o_long_name o)%string
             else String "-" (String (o_short_name o) ("/--" ++ o_long_name o)%string))
  /\ (forall region, occurrences o region = 1%nat ->
      check_cardinality o region <> Some (missing_required name)).
Proof.
  intros Hr Hreq Hk name.
  pose proof (check_cardinality_missing o _ Hreq Hk) as Ho. fold name in Ho.
  split; [|split; [|split]].
  - apply (cardinality_failure a _ _ _ _ _ _ _ _ _ _ o Hr).
    + apply elem_of_app. right. left.
    + by rewrite Ho.
  - intros Hb. eapply args_parse_invalid; [exact Hr|]. by apply validate_first.
  - apply command_name_with_slash_fits.
  - intros region H1. unfold check_cardinality. rewrite Hreq, H1. simpl.
    destruct (_ && _); discriminate.
Qed.

(** C3, amended. When the occurrences of a descriptor with a nonzero
    [args_count] exceed that number, args_parse returns FAILURE with a
    cardinality error and no callback runs after the configure hooks,
    whatever the arity of each occurrence.  The error is that of the first
    descriptor in table order whose check fails: it is "Option supplied too
    many times" for this descriptor when every descriptor before it passes
    and the descriptor is not itself required and absent.  A region in
    which it occurs exactly [args_count] times never makes its check report
    this error. *)
Theorem option_repeated_beyond_limit a commands argv st commands' st' cmd c entry
    before o after first_opt :
  reaches_table e commands argv st commands' st' cmd c entry
    (before ++ o :: after)%list first_opt ->
  o_args_count o <> 0 ->
  Z.of_nat (occurrences o (drop first_opt argv)) > o_args_count o ->
  let name := command_name_with_slash MAX_STR_LEN (o_short_name o) (o_long_name o) in
  (exists m,
     cardinality_error m
     /\ args_parse sed_cli nvme_error e a commands argv st
        = (Returned FAILURE, commands', usage_error e a m st')
     /\ calls (usage_error e a m st') = calls st')
  /\ (Forall (fun o' => check_cardinality o' (drop first_opt argv) = None) before ->
      (has_flag (o_flags o) CLI_OPTION_REQUIRED = true ->
       occurrences o (drop first_opt argv) <> O) ->
      args_parse sed_cli nvme_error e a commands argv st
      = (Returned FAILURE, commands', usage_error e a (supplied_too_many_times name) st'))
  /\ (forall region, Z.of_nat (occurrences o region) = o_args_count o ->
      check_cardinality o region <> Some (supplied_too_many_times name)).
Proof.
  intros Hr Hn Hk name. split; [|split].
  - apply (cardinality_failure a _ _ _ _ _ _ _ _ _ _ o Hr).
    + apply elem_of_app. right. left.
    + unfold check_cardinality.
      destruct (_ && _); [discriminate|].
      destruct (Z.eqb_spec (o_args_count o) 0); [done|]. simpl.
      destruct (Z.gtb_spec (Z.of_nat (occurrences o (drop first_opt argv)))
                  (o_args_count o)); [discriminate | lia].
  - intros Hb Hq. eapply args_parse_invalid; [exact Hr|].
    apply validate_first; [done|]. by apply check_cardinality_too_many.
  - intros region Heq. unfold check_cardinality. fold name.
    destruct (_ && _); [discriminate|].
    destruct (Z.gtb_spec (Z.of_nat (occurrences o region)) (o_args_count o)); [lia|].
    rewrite andb_false_r. discriminate.
Qed.

(** When [args_count] is 0 the pass sets no limit on the occurrences of an
    option that is not required. *)
Lemma check_cardinality_unlimited o region :
  has_flag (o_flags o) CLI_OPTION_REQUIRED = false ->
  o_args_count o = 0 ->
  check_cardinality o region = None.
Proof. intros Hr Hz. unfold check_cardinality. by rewrite Hr, Hz. Qed.

(** ** Arity resolver and consuming walk *)

Lemma count_arg_params_app params tail :
  Forall (fun t => ends_arguments t = false) params ->
  list_ends_here tail ->
  count_arg_params (params ++ tail)%list = length params.
Proof.
  intros Hp Ht. induction Hp as [|t params Hf _ IH]; simpl.
  - destruct tail as [|t tail]; [reflexivity | simpl in *; by rewrite Ht].
  - by rewrite Hf, IH.
Qed.

Lemma count_arg_params_le rest : (count_arg_params rest <= length rest)%nat.
Proof.
  induction rest as [|t rest IH]; simpl; [lia|].
  destruct (ends_arguments t); simpl; lia.
Qed.

Lemma count_arg_params_take rest :
  Forall (fun t => ends_arguments t = false) (take (count_arg_params rest) rest).
Proof.
  induction rest as [|t rest IH]; simpl; [constructor|].
  destruct (ends_arguments t) eqn:E; simpl; [constructor | by constructor].
Qed.

Lemma count_arg_params_drop rest : list_ends_here (drop (count_arg_params rest) rest).
Proof.
  induction rest as [|t rest IH]; simpl; [exact I|].
  destruct (ends_arguments t) eqn:E; simpl; [exact E | exact IH].
Qed.

(** A parameter that begins with a dash is the bare dash. *)
Lemma parameter_dash t :
  cstring t -> ends_arguments t = false -> char_at t 0 = "-"%char -> t = "-"%string.
Proof.
  intros Hc He Hd. unfold ends_arguments in He. rewrite Hd in He.
  destruct t as [|c0 [|c1 t]]; [discriminate | | ].
  - rewrite char_at_0 in Hd. by subst.
  - rewrite char_at_S, char_at_0 in He.
    apply cstring_cons in Hc as [_ Hc]. apply cstring_cons in Hc as [Hc _].
    rewrite Ascii.eqb_refl in He. simpl in He.
    destruct (Ascii.eqb_spec NUL c1); [congruence | discriminate].
Qed.

Lemma store_params_spec k params (buf : list cell) :
  (k + length params <= length buf)%nat ->
  store_params k params buf
  = (take k buf ++ (Ptr <$> params) ++ drop (k + length params) buf)%list.
Proof.
  revert k buf. induction params as [|p params IH]; intros k buf Hlen; simpl in *.
  - by rewrite Nat.add_0_r, take_drop.
  - rewrite IH by (rewrite length_insert; lia).
    rewrite (take_S_r _ k (Ptr p)) by (apply list_lookup_insert_eq; lia).
    rewrite take_insert_ge by lia.
    rewrite drop_insert_lt by lia.
    rewrite <- app_assoc. simpl.
    by replace (k + S (length params))%nat with (S (k + length params)) by lia.
Qed.

(** What the callback finds behind [&args_list[args_offset]] once the
    parameters are stored: the parameters and the closing null pointer. *)
Lemma stored_view k params (buf : list cell) :
  (k + length params < length buf)%nat ->
  take (S (length params))
    (drop k (<[(k + length params)%nat := Null]> (store_params k params buf)))
  = ((Ptr <$> params) ++ [Null])%list.
Proof.
  intros Hlen. rewrite store_params_spec by lia.
  assert (Hk : length (take k buf) = k) by (rewrite length_take; lia).
  assert (Hm : length (Ptr <$> params) = length params) by apply length_fmap.
  destruct (drop (k + length params) buf) as [|x tl] eqn:E.
  { apply (f_equal length) in E. rewrite length_drop in E. simpl in E. lia. }
  set (l1 := take k buf) in *. set (mid := Ptr <$> params) in *.
  rewrite <- Hk, <- Hm. clearbody l1 mid. clear.
  rewrite insert_app_r, drop_app_length.
  replace (length mid) with (length mid + 0)%nat at 2 by lia.
  rewrite insert_app_r. simpl.
  change (mid ++ Null :: tl)%list with (mid ++ [Null] ++ tl)%list.
  rewrite app_assoc. apply take_app_length'.
  rewrite length_app. simpl. lia.
Qed.

Lemma take_params_taken o rest w w1 consumed :
  o_arg o <> None ->
  take_params o rest w = ParamsTaken w1 consumed ->
  consumed = count_arg_params rest
  /\ args_count w1 = consumed
  /\ args_offset w1 = args_offset w
  /\ take (S consumed) (drop (args_offset w1) (args_list w1))
     = ((Ptr <$> take consumed rest) ++ [Null])%list.
Proof.
  intros Ha. unfold take_params. destruct (o_arg o); [|done].
  destruct (invalid_arity o _); [discriminate|].
  destruct (Nat.ltb_spec (args_offset w + count_arg_params rest) (length (args_list w)))
    as [Hlt|]; [|discriminate].
  intros [= <- <-]. simpl. repeat split.
  pose proof (count_arg_params_le rest) as Hle.
  set (n := count_arg_params rest) in *.
  assert (Hn : length (take n rest) = n) by (rewrite length_take; lia).
  rewrite <- Hn at 1 2. apply stored_view. lia.
Qed.

Lemma walk_skip a cmd c entry options tokens skip w st :
  walk e a cmd c entry options tokens skip w st
  = walk e a cmd c entry options (drop skip tokens) O w st.
Proof.
  revert skip. induction tokens as [|t tokens IH]; intros [|skip]; try reflexivity.
  simpl drop. rewrite <- IH. reflexivity.
Qed.

(** One round of the walk on a matched option whose parameters are taken
    and whose callback answers 0: the walk goes on behind the parameters,
    as [i += args_count] has it. *)
Lemma walk_step a cmd c entry options tok rest opt o w w1 consumed st st1 :
  args_is_unrecognized tok = false ->
  get_option options tok = Some opt ->
  options !! opt = Some o ->
  take_params o rest w = ParamsTaken w1 consumed ->
  invoke_parse cmd c entry o (drop (args_offset w1) (args_list w1)) st = Some (0, st1) ->
  walk e a cmd c entry options (tok :: rest) O w st
  = walk e a cmd c entry options (drop consumed rest) O
      {| args_count := args_count w1;
         args_offset := (args_offset w1 + args_count w1)%nat;
         args_list := args_list w1 |} st1.
Proof.
  intros Hu Hg Ho Ht Hi. simpl. rewrite Hu, Hg, Ho, Ht, Hi. simpl.
  apply walk_skip.
Qed.

Lemma walk_invalid_arity a cmd c entry options tok rest opt o w st :
  args_is_unrecognized tok = false ->
  get_option options tok = Some opt ->
  options !! opt = Some o ->
  take_params o rest w = ParamsInvalid ->
  walk e a cmd c entry options (tok :: rest) O w st
  = fail_with e a (Msg "sedcli: Invalid number of arguments for %s.\n" [AStr tok]) st.
Proof. intros Hu Hg Ho Ht. simpl. by rewrite Hu, Hg, Ho, Ht. Qed.

(** The test that ends an argument list, in plain terms: a dash and at
    least one more byte. *)
Lemma ends_arguments_spec t :
  ends_arguments t = true
  <-> exists c rest, c <> NUL /\ t = String "-" (String c rest).
Proof.
  unfold ends_arguments. split.
  - destruct t as [|c0 [|c1 rest]]; read_chars; try discriminate.
    + by rewrite andb_false_r.
    + destruct (Ascii.eqb_spec "-" c0); [subst | discriminate].
      destruct (Ascii.eqb_spec NUL c1); [discriminate|].
      intros _. exists c1, rest. split; congruence.
  - intros (c & rest & Hc & ->). read_chars. rewrite Ascii.eqb_refl. simpl.
    destruct (Ascii.eqb_spec NUL c); [congruence | reflexivity].
Qed.

(** Every token the classifier recognizes ends an argument list. *)
Lemma recognized_ends_arguments t :
  args_is_unrecognized t = false -> ends_arguments t = true.
Proof.
  unfold args_is_unrecognized, ends_arguments.
  destruct t as [|c0 [|c1 rest]]; read_chars; try discriminate.
  - destruct (Ascii.eqb "-" c0); [|discriminate]. rewrite NUL_not_letter.
    destruct (Ascii.eqb_spec "-" NUL); discriminate.
  - destruct (Ascii.eqb "-" c0); [|discriminate]. simpl.
    destruct (Ascii.eqb_spec NUL c1); [subst|reflexivity].
    rewrite NUL_not_letter. destruct (Ascii.eqb_spec "-" NUL); discriminate.
Qed.

(** C2, amended. At an option that declares an argument label and has
    [args_count = k > 0], followed by parameters none of which is a dash
    followed by at least one more byte (whether or not such a token
    classifies as an option) and then by the end of the stream or by a
    token of that form: with [k + 1] parameters the walk stops with
    "Invalid number of arguments" for the option and args_parse returns
    FAILURE; with exactly [k] the arity check passes.  The count ends at
    the first token made of a dash and more, so the tokens from there on
    are not counted, option or not. *)
Theorem arity_limit a cmd c entry options tok opt o params tail w st k :
  args_is_unrecognized tok = false ->
  get_option options tok = Some opt ->
  options !! opt = Some o ->
  o_arg o <> None ->
  o_args_count o = Z.of_nat k ->
  (0 < k)%nat ->
  Forall (fun t => ends_arguments t = false) params ->
  list_ends_here tail ->
  let arity_error := Msg "sedcli: Invalid number of arguments for %s.\n" [AStr tok] in
  (length params = S k ->
     walk e a cmd c entry options (tok :: params ++ tail)%list O w st
     = fail_with e a arity_error st
     /\ forall commands argv st0 commands' first_opt,
          reaches_table e commands argv st0 commands' st cmd c entry options first_opt ->
          drop first_opt argv = (tok :: params ++ tail)%list ->
          validate options (drop first_opt argv) = None ->
          can_malloc e = true ->
          args_parse sed_cli nvme_error e a commands argv st0
          = (Returned FAILURE, commands', usage_error e a arity_error st))
  /\ (length params = k ->
      invalid_arity o (count_arg_params (params ++ tail)%list) = false
      /\ take_params o (params ++ tail)%list w <> ParamsInvalid)
  /\ (forall t more, ends_arguments t = true ->
        count_arg_params (params ++ t :: more)%list = length params)
  /\ (forall t, ends_arguments t = true
                <-> exists c more, c <> NUL /\ t = String "-" (String c more)).
Proof.
  intros Hu Hg Ho Ha Hk Hpos Hp Ht arity_error.
  pose proof (count_arg_params_app params tail Hp Ht) as Hn.
  split; [|split; [|split; [|exact ends_arguments_spec]]].
  - intros Hlen.
    assert (Hinv : take_params o (params ++ tail)%list w = ParamsInvalid).
    { unfold take_params. destruct (o_arg o); [|done].
      unfold invalid_arity. rewrite Hn, Hlen, Hk.
      destruct (Z.gtb_spec (Z.of_nat k) 0); [|lia].
      destruct (Z.gtb_spec (Z.of_nat (S k)) (Z.of_nat k)); [|lia].
      by rewrite orb_true_r. }
    pose proof (walk_invalid_arity a cmd c entry options tok _ opt o w st Hu Hg Ho Hinv)
      as Hw.
    split; [exact Hw|].
    intros commands argv st0 commands' first_opt Hr Hd Hv Hm.
    rewrite (args_parse_reaches _ _ _ _ _ _ _ _ _ _ _ Hr).
    unfold parse_options. rewrite Hv, Hm. simpl. rewrite Hd.
    match goal with |- context [walk e a cmd c entry options _ O ?w0 st] =>
      rewrite (walk_invalid_arity a cmd c entry options tok _ opt o w0 st Hu Hg Ho)
    end; [reflexivity|].
    unfold take_params in *. destruct (o_arg o); [|done].
    destruct (invalid_arity o _); [reflexivity|].
    destruct (_ <? _)%nat; discriminate.
  - intros Hlen.
    assert (Hinv : invalid_arity o (count_arg_params (params ++ tail)%list) = false).
    { unfold invalid_arity. rewrite Hn, Hlen, Hk.
      destruct (Z.gtb_spec (Z.of_nat k) 0); [|lia].
      destruct (Nat.eqb_spec k 0); [lia|]. rewrite andb_false_r. simpl.
      destruct (Z.gtb_spec (Z.of_nat k) (Z.of_nat k)); [lia | reflexivity]. }
    split; [exact Hinv|].
    unfold take_params. destruct (o_arg o); [|done]. rewrite Hinv.
    destruct (_ <? _)%nat; discriminate.
  - intros t more Hend. by apply count_arg_params_app.
Qed.

(** C6, amended. For a matched option that declares an argument label, the
    tokens consumed as its arguments are exactly the tokens that follow it
    up to, and not including, the first token made of a dash and at least
    one more byte (a recognized option or not), or up to the end of the
    stream.  They reach the parse callback as a null-terminated list, and
    the walk goes on behind them.  A value that begins with a dash can be
    passed only if it is the bare dash. *)
Theorem option_arguments a cmd c entry options tok opt o rest w w1 consumed st st1 :
  args_is_unrecognized tok = false ->
  get_option options tok = Some opt ->
  options !! opt = Some o ->
  o_arg o <> None ->
  Forall cstring rest ->
  take_params o rest w = ParamsTaken w1 consumed ->
  invoke_parse cmd c entry o (drop (args_offset w1) (args_list w1)) st = Some (0, st1) ->
  consumed = count_arg_params rest
  /\ Forall (fun t => ends_arguments t = false) (take consumed rest)
  /\ list_ends_here (drop consumed rest)
  /\ (forall t, t ∈ take consumed rest -> char_at t 0 = "-"%char -> t = "-"%string)
  /\ take (S consumed) (drop (args_offset w1) (args_list w1))
     = ((Ptr <$> take consumed rest) ++ [Null])%list
  /\ walk e a cmd c entry options (tok :: rest) O w st
     = walk e a cmd c entry options (drop consumed rest) O
         {| args_count := consumed;
            args_offset := (args_offset w + consumed)%nat;
            args_list := args_list w1 |} st1
  /\ (forall t, ends_arguments t = true
                <-> exists c more, c <> NUL /\ t = String "-" (String c more))
  /\ (forall t, args_is_unrecognized t = false -> ends_arguments t = true).
Proof.
  intros Hu Hg Ho Ha Hc Ht Hi.
  destruct (take_params_taken o rest w w1 consumed Ha Ht) as (Hn & Hcount & Hoff & Hview).
  split; [exact Hn|]. split; [subst consumed; apply count_arg_params_take|].
  split; [subst consumed; apply count_arg_params_drop|].
  split.
  { intros t Hin Hd. apply parameter_dash; [| |exact Hd].
    - rewrite Forall_forall in Hc. apply Hc. by eapply subseteq_take.
    - pose proof (count_arg_params_take rest) as Hf. rewrite <- Hn in Hf.
      rewrite Forall_forall in Hf. by apply Hf. }
  split; [exact Hview|].
  split; [|split; [exact ends_arguments_spec | exact recognized_ends_arguments]].
  rewrite (walk_step a cmd c entry options tok rest opt o w w1 consumed st st1 Hu Hg Ho Ht Hi).
  by rewrite Hcount, Hoff.
Qed.

(** ** Printing, hooks and help *)

Lemma console_info_printf m st :
  console (sedcli_printf e LOG_INFO m st) = (console st ++ [(Stdout, m)])%list.
Proof. reflexivity. Qed.

Lemma info_printf_all ms st :
  console (sedcli_printf_all e LOG_INFO ms st)
  = (console st ++ ((fun m => (Stdout, m)) <$> ms))%list
  /\ logfile (sedcli_printf_all e LOG_INFO ms st) = logfile st
  /\ world (sedcli_printf_all e LOG_INFO ms st) = world st.
Proof.
  unfold sedcli_printf_all. revert st.
  induction ms as [|m ms IH]; intros st; simpl.
  - by rewrite app_nil_r.
  - destruct (IH (sedcli_printf e LOG_INFO m st)) as (Hc & Hl & Hw).
    rewrite Hc, Hl, Hw. rewrite console_info_printf, <- app_assoc. done.
Qed.

(** What the help of one command leaves: lines on the standard output and,
    when the command renders its own help, the call of that hook. *)
Lemma print_command_help_effect a i c st :
  exists lines,
    console (print_command_help e a i c st)
    = (console st ++ ((fun m => (Stdout, m)) <$> lines))%list
    /\ logfile (print_command_help e a i c st) = logfile st
    /\ (calls (print_command_help e a i c st) = calls st
        \/ calls (print_command_help e a i c st) = (calls st ++ [CallHelp i])%list).
Proof.
  unfold print_command_help. destruct (c_help c) as [render|].
  - exists []. simpl. rewrite app_nil_r. auto.
  - destruct (c_namespace c) as [ns|].
    + exists (print_namespace_help a c ns).
      destruct (info_printf_all (print_namespace_help a c ns) st) as (Hc & Hl & _).
      rewrite Hc, Hl, calls_sedcli_printf_all. auto.
    + exists (print_command_usage a c).
      destruct (info_printf_all (print_command_usage a c) st) as (Hc & Hl & _).
      rewrite Hc, Hl, calls_sedcli_printf_all. auto.
Qed.

Lemma configure_command_effect i (c : cli_command) st :
  let '(c', st') := configure_command i c st in
  console st' = console st
  /\ logfile st' = logfile st
  /\ (calls st' = calls st \/ calls st' = (calls st ++ [CallConfigure i])%list)
  /\ (c' = c \/ c' = set_flags c (Z.lor (c_flags c) CLI_COMMAND_HIDDEN)).
Proof.
  unfold configure_command. destruct (c_configure c) as [hook|]; [|auto 6].
  destruct (hook (world st)) as [r w]. destruct (r <? 0); simpl; auto 6.
Qed.

Lemma configure_from_effect i (commands : list cli_command) st :
  let '(commands', st') := configure_from i commands st in
  length commands' = length commands
  /\ console st' = console st
  /\ logfile st' = logfile st
  /\ exists hooks,
       calls st' = (calls st ++ hooks)%list /\ Forall configure_or_help hooks.
Proof.
  revert i st. induction commands as [|c commands IH]; intros i st; simpl.
  - repeat split. exists []. by rewrite app_nil_r.
  - pose proof (configure_command_effect i c st) as Hc.
    destruct (configure_command i c st) as [c' st1].
    destruct Hc as (Hc1 & Hl1 & Hk1 & _).
    specialize (IH (S i) st1). destruct (configure_from (S i) commands st1) as [rest' st2].
    destruct IH as (Hlen & Hc2 & Hl2 & hooks & Hk2 & Hf).
    simpl. rewrite Hlen, Hc2, Hl2, Hk2. repeat split; try done.
    destruct Hk1 as [-> | ->].
    + by exists hooks.
    + exists (CallConfigure i :: hooks). rewrite <- app_assoc. split; [done|].
      constructor; [by exists i; left | done].
Qed.

Lemma find_command_from_lt i (commands : list cli_command) name cmd :
  find_command_from i commands name = Some cmd ->
  (i <= cmd < i + length commands)%nat.
Proof.
  revert i. induction commands as [|c commands IH]; intros i; simpl; [discriminate|].
  destruct (args_is name (c_name c) (c_short_name c)).
  - intros [= <-]. lia.
  - intros Hf. apply IH in Hf. lia.
Qed.

Lemma resolved_lookup (commands commands' : list cli_command) argv cmd st st' :
  resolves commands argv cmd ->
  configure_cli_commands commands st = (commands', st') ->
  is_Some (commands' !! cmd).
Proof.
  intros (_ & _ & Hf) Hconf. apply find_command_from_lt in Hf.
  pose proof (configure_from_effect 0 commands st) as He.
  unfold configure_cli_commands in Hconf. rewrite Hconf in He.
  destruct He as (Hlen & _). apply lookup_lt_is_Some. lia.
Qed.

Lemma strncmp_refl s n : strncmp s s n = 0.
Proof.
  revert s. induction n as [|n IH]; intros s; simpl; [reflexivity|].
  destruct s as [|c s]; [reflexivity|]. by rewrite Ascii.eqb_refl.
Qed.

Lemma is_help_long : is_help "--help" = true.
Proof.
  unfold is_help, args_is. read_chars. cbn [str_from].
  rewrite strncmp_refl. reflexivity.
Qed.

Lemma is_help_short : is_help "-H" = true.
Proof. reflexivity. Qed.

Lemma help_position_from_found i tokens j t :
  tokens !! j = Some t -> is_help t = true -> help_position_from i tokens <> -1.
Proof.
  revert i j. induction tokens as [|t' tokens IH]; intros i j Hj Ht; [done|].
  simpl. destruct (is_help t') eqn:E; [lia|].
  destruct j as [|j]; simpl in Hj.
  - injection Hj as ->. congruence.
  - by eapply IH.
Qed.

Lemma get_help_position_found argv j t :
  (2 <= j)%nat -> argv !! j = Some t -> is_help t = true ->
  get_help_position argv <> -1 /\ (3 <= length argv)%nat.
Proof.
  intros Hj Ht Hh. split.
  - unfold get_help_position. apply (help_position_from_found 2 _ (j - 2) t); [|done].
    rewrite lookup_drop. by replace (2 + (j - 2))%nat with j by lia.
  - apply lookup_lt_Some in Ht. lia.
Qed.

Lemma get_help_position_length argv :
  get_help_position argv <> -1 -> (3 <= length argv)%nat.
Proof.
  unfold get_help_position. intros Hne.
  destruct (drop 2 argv) as [|t tl] eqn:E; [done|].
  apply (f_equal length) in E. rewrite length_drop in E. simpl in E. lia.
Qed.

(** The help short cut of args_parse. *)
Lemma args_parse_help a commands argv st cmd commands' st' c :
  resolves commands argv cmd ->
  configure_cli_commands commands st = (commands', st') ->
  commands' !! cmd = Some c ->
  get_help_position argv <> -1 ->
  args_parse sed_cli nvme_error e a commands argv st
  = (Returned SUCCESS, commands',
     if has_flag (c_flags c) CLI_COMMAND_HIDDEN then st'
     else print_command_help e a cmd c st').
Proof.
  intros (Hlen & Hrec & Hfind) Hconf Hc Hh.
  pose proof (get_help_position_length argv Hh) as H3.
  unfold args_parse.
  replace (length argv <? 2)%nat with false by (symmetry; apply Nat.ltb_ge; lia).
  rewrite Hrec, Hfind, Hconf. unfold dispatch. rewrite Hc.
  replace (3 <=? length argv)%nat with true by (symmetry; apply Nat.leb_le; lia).
  destruct (Z.eqb_spec (get_help_position argv) (-1)); [done|]. simpl.
  unfold is_command_hidden. by rewrite Hc.
Qed.

(** C4. When the first token resolves to a registered command and some
    token at position 2 or later is [--help] or [-H], args_parse returns
    SUCCESS; beyond the configure hooks it does nothing but render the help
    of the command (lines on the standard output, or the command's own help
    hook), whatever the other tokens are: no parse callback and no [handle]
    is invoked, and nothing reaches the log file. *)
Theorem help_short_circuits a commands argv st cmd j t :
  resolves commands argv cmd ->
  (2 <= j)%nat ->
  argv !! j = Some t ->
  t = "--help"%string \/ t = "-H"%string ->
  exists commands' final lines called,
    args_parse sed_cli nvme_error e a commands argv st
    = (Returned SUCCESS, commands', final)
    /\ console final = (console st ++ ((fun m => (Stdout, m)) <$> lines))%list
    /\ logfile final = logfile st
    /\ calls final = (calls st ++ called)%list
    /\ Forall configure_or_help called.
Proof.
  intros Hr Hj Ht Hhelp.
  assert (Hh : is_help t = true)
    by (destruct Hhelp as [-> | ->]; [apply is_help_long | apply is_help_short]).
  destruct (get_help_position_found argv j t Hj Ht Hh) as [Hpos _].
  destruct (configure_cli_commands commands st) as [commands' st'] eqn:Hconf.
  destruct (resolved_lookup _ _ _ _ _ _ Hr Hconf) as [c Hc].
  rewrite (args_parse_help a _ _ _ _ _ _ c Hr Hconf Hc Hpos).
  pose proof (configure_from_effect 0 commands st) as He.
  unfold configure_cli_commands in Hconf. rewrite Hconf in He.
  destruct He as (_ & Hcon & Hlog & hooks & Hcalls & Hhooks).
  destruct (has_flag (c_flags c) CLI_COMMAND_HIDDEN).
  - exists commands', st', [], hooks. rewrite Hcon, Hlog, Hcalls. simpl.
    by rewrite app_nil_r.
  - destruct (print_command_help_effect a cmd c st') as (lines & Hc1 & Hl1 & Hk1).
    destruct Hk1 as [Hk1 | Hk1].
    + exists commands', (print_command_help e a cmd c st'), lines, hooks.
      by rewrite Hc1, Hl1, Hk1, Hcon, Hlog, Hcalls.
    + exists commands', (print_command_help e a cmd c st'), lines,
        (hooks ++ [CallHelp cmd])%list.
      rewrite Hc1, Hl1, Hk1, Hcon, Hlog, Hcalls, <- app_assoc.
      repeat split. apply Forall_app. split; [done|].
      constructor; [by exists cmd; right | constructor].
Qed.

(** ** Hidden commands *)

Lemma has_flag_lor flags mask bit :
  has_flag (Z.lor flags bit) mask = has_flag flags mask || has_flag bit mask.
Proof.
  unfold has_flag. rewrite Z.land_lor_distr_l.
  destruct (Z.eqb_spec (Z.lor (Z.land flags mask) (Z.land bit mask)) 0) as [E|E].
  - apply Z.lor_eq_0_iff in E as [-> ->]. reflexivity.
  - destruct (Z.eqb_spec (Z.land flags mask) 0) as [E1|E1]; [|reflexivity].
    destruct (Z.eqb_spec (Z.land bit mask) 0) as [E2|E2]; [|reflexivity].
    rewrite E1, E2 in E. done.
Qed.

Lemma has_flag_self bit : bit <> 0 -> has_flag bit bit = true.
Proof.
  intros Hb. unfold has_flag. rewrite Z.land_diag.
  by destruct (Z.eqb_spec bit 0).
Qed.

Lemma configure_from_hidden i0 (commands commands' : list cli_command) st st' i c0 :
  configure_from i0 commands st = (commands', st') ->
  commands !! i = Some c0 ->
  has_flag (c_flags c0) CLI_COMMAND_HIDDEN = true
  \/ (CLI_COMMAND_HIDDEN <> 0
      /\ exists hook, c_configure c0 = Some hook /\ forall w, fst (hook w) < 0) ->
  exists c', commands' !! i = Some c'
             /\ has_flag (c_flags c') CLI_COMMAND_HIDDEN = true.
Proof.
  revert i0 commands' st i.
  induction commands as [|c commands IH]; intros i0 commands' st i Hconf Hi Hhid; [done|].
  simpl in Hconf.
  destruct (configure_command i0 c st) as [c' st1] eqn:Hc.
  destruct (configure_from (S i0) commands st1) as [rest' st2] eqn:Hrest.
  injection Hconf as <- <-.
  destruct i as [|i]; simpl in *.
  - injection Hi as ->. exists c'. split; [done|].
    unfold configure_command in Hc.
    destruct Hhid as [Hflag | (Hne & hook & Hhook & Hneg)].
    + destruct (c_configure c0) as [hook|]; [|by injection Hc as <- _].
      destruct (hook (world st)) as [r w]. destruct (r <? 0); injection Hc as <- _; [|done].
      simpl. by rewrite has_flag_lor, Hflag.
    + rewrite Hhook in Hc. specialize (Hneg (world st)).
      destruct (hook (world st)) as [r w]. simpl in Hneg.
      destruct (Z.ltb_spec r 0); [|lia]. injection Hc as <- _. simpl.
      by rewrite has_flag_lor, (has_flag_self _ Hne), orb_true_r.
  - by eapply IH.
Qed.

Lemma walk_set_flags a cmd (c : cli_command) f entry options tokens skip w st :
  walk e a cmd (set_flags c f) entry options tokens skip w st
  = walk e a cmd c entry options tokens skip w st.
Proof.
  revert skip w st. induction tokens as [|tok rest IH]; intros skip w st; [reflexivity|].
  simpl. destruct skip as [|skip]; [|apply IH].
  destruct (args_is_unrecognized tok); [reflexivity|].
  destruct (get_option options tok) as [opt|]; [|reflexivity].
  destruct (options !! opt) as [o|]; [|reflexivity].
  destruct (take_params o rest w) as [w1 consumed| |]; try reflexivity.
  change (invoke_parse cmd (set_flags c f)) with (invoke_parse cmd c).
  destruct (invoke_parse cmd c entry o _ st) as [[status st1]|]; [|reflexivity].
  destruct (negb (status =? 0)); [reflexivity | apply IH].
Qed.

Lemma agree_lookup (cmds1 cmds2 : list cli_command) cmd :
  Forall2 agree_but_hidden cmds1 cmds2 ->
  match cmds1 !! cmd, cmds2 !! cmd with
  | Some c1, Some c2 => agree_but_hidden c1 c2
  | None, None => True
  | _, _ => False
  end.
Proof.
  intros Hf. revert cmd. induction Hf as [|c1 c2 l1 l2 Hc _ IH]; intros [|cmd]; simpl; auto.
  apply IH.
Qed.

Lemma run_command_agree cmds1 cmds2 cmd argv st :
  Forall2 agree_but_hidden cmds1 cmds2 ->
  run_command sed_cli nvme_error e cmds2 cmd argv st
  = run_command sed_cli nvme_error e cmds1 cmd argv st.
Proof.
  intros Hf. pose proof (agree_lookup _ _ cmd Hf) as Hl. unfold run_command.
  destruct (cmds1 !! cmd) as [c1|], (cmds2 !! cmd) as [c2|]; try done.
  destruct Hl as [-> _]. reflexivity.
Qed.

(** Resolving a command by name reads no flag. *)
Lemma find_command_from_agree i (cmds1 cmds2 : list cli_command) name :
  Forall2 agree_but_hidden cmds1 cmds2 ->
  find_command_from i cmds2 name = find_command_from i cmds1 name.
Proof.
  intros Hf. revert i. induction Hf as [|c1 c2 l1 l2 [-> _] _ IH]; intros i; simpl.
  - reflexivity.
  - destruct (args_is name (c_name c1) (c_short_name c1)); [reflexivity | apply IH].
Qed.

(** With no help asked for, dispatch reads the flags of the command for
    the privilege check only. *)
Lemma dispatch_agree a cmds1 cmds2 cmd argv st :
  Forall2 agree_but_hidden cmds1 cmds2 ->
  no_help argv ->
  dispatch sed_cli nvme_error e a cmds2 cmd argv st
  = dispatch sed_cli nvme_error e a cmds1 cmd argv st.
Proof.
  intros Hf Hh. pose proof (agree_lookup _ _ cmd Hf) as Hl.
  pose proof (fun st0 => run_command_agree cmds1 cmds2 cmd argv st0 Hf) as Hrun.
  unfold dispatch, is_su_required.
  destruct (cmds1 !! cmd) as [c1|], (cmds2 !! cmd) as [c2|]; try done.
  destruct Hl as [Hc2 Hsu]. rewrite Hsu. unfold no_help in Hh. rewrite Hh.
  rewrite Z.eqb_refl, andb_false_r.
  destruct (has_flag (c_flags c1) CLI_SU_REQUIRED && negb (uid e =? 0)); [reflexivity|].
  rewrite Hc2. cbn [c_options c_namespace set_flags].
  unfold parse_options.
  destruct (c_options c1) as [options|].
  - rewrite walk_set_flags.
    destruct (validate options _); [reflexivity|].
    destruct (negb (can_malloc e)); [reflexivity|].
    destruct (walk e a cmd c1 None options _ _ _ st) as [[|r] st1]; [|reflexivity].
    by rewrite Hrun.
  - destruct (c_namespace c1) as [ns|]; [|by rewrite Hrun].
    destruct (_ <? 3)%nat; [reflexivity|].
    destruct (_ <? 4)%nat; [reflexivity|].
    destruct (negb (args_is _ _ _)); [reflexivity|].
    destruct (ns_entries ns) as [|en0 ens] eqn:Hens; [reflexivity|]. rewrite <- Hens.
    destruct (find_entry _ _) as [en|]; [|reflexivity].
    rewrite walk_set_flags.
    destruct (validate (e_options en) _); [reflexivity|].
    destruct (negb (can_malloc e)); [reflexivity|].
    destruct (walk e a cmd c1 (Some en) (e_options en) _ _ _ st) as [[|r] st1]; [|reflexivity].
    by rewrite Hrun.
Qed.

Lemma calls_print_sed_status status st :
  calls (print_sed_status sed_cli nvme_error e status st) = calls st.
Proof.
  unfold print_sed_status.
  repeat match goal with
         | |- context [if ?b then _ else _] => destruct b
         | |- context [match ?x with Some _ => _ | None => _ end] => destruct x
         end; try apply calls_sedcli_printf; reflexivity.
Qed.

Lemma calls_log_command argv result timespan st :
  calls (log_command e argv result timespan st) = calls st.
Proof.
  unfold log_command, sedcli_log.
  destruct (negb (can_malloc e)); [apply calls_sedcli_printf|].
  destruct (log_command_loop e argv 0 100 ""); [apply calls_vsedcli_log|].
  apply calls_sedcli_printf.
Qed.

Lemma run_command_calls commands cmd (c : cli_command) argv st :
  commands !! cmd = Some c ->
  exists final,
    run_command sed_cli nvme_error e commands cmd argv st
    = Some (fst (c_handle c (world st)), final)
    /\ calls final = (calls st ++ [CallHandle cmd])%list.
Proof.
  intros Hc. unfold run_command. rewrite Hc.
  destruct (c_handle c (world st)) as [result w]. simpl.
  eexists. split; [reflexivity|].
  destruct (negb (Ascii.eqb (c_short_name c) "V")).
  - rewrite calls_log_command.
    destruct (_ && _); [by rewrite calls_print_sed_status | reflexivity].
  - destruct (_ && _); [by rewrite calls_print_sed_status | reflexivity].
Qed.

(** C10. A command that is hidden once the configure hooks have run, by
    its flag or because its hook answered a negative value, is resolved by
    name as it is on a table where it is not hidden.  Asking for its help
    returns SUCCESS and prints nothing.  Without a help token args_parse
    dispatches exactly as it does on a table in which the command is not
    hidden, and a command with neither an option table nor a namespace goes
    to run_command, where its [handle] is invoked and decides the status.
    The list of commands that print_help renders has no line for it. *)
Theorem hidden_command_dispatch a commands argv st cmd commands' st' c :
  resolves commands argv cmd ->
  configure_cli_commands commands st = (commands', st') ->
  commands' !! cmd = Some c ->
  has_flag (c_flags c) CLI_COMMAND_HIDDEN = true ->
  (get_help_position argv <> -1 ->
     args_parse sed_cli nvme_error e a commands argv st
     = (Returned SUCCESS, commands', st'))
  /\ (no_help argv ->
      forall visible, Forall2 agree_but_hidden commands' visible ->
        args_parse sed_cli nvme_error e a commands argv st
        = (let '(r, s) := dispatch sed_cli nvme_error e a visible cmd argv st' in
           (r, commands', s)))
  /\ (no_help argv -> privileged e commands' cmd ->
      c_options c = None -> c_namespace c = None ->
      exists final,
        args_parse sed_cli nvme_error e a commands argv st
        = (Returned (fst (c_handle c (world st'))), commands', final)
        /\ calls final = (calls st' ++ [CallHandle cmd])%list)
  /\ (forall i c0, commands !! i = Some c0 ->
      has_flag (c_flags c0) CLI_COMMAND_HIDDEN = true
      \/ (CLI_COMMAND_HIDDEN <> 0
          /\ exists hook, c_configure c0 = Some hook /\ forall w, fst (hook w) < 0) ->
      is_command_hidden commands' i = true)
  /\ print_help_command_line c = []
  /\ (forall visible, Forall2 agree_but_hidden commands visible ->
      find_command visible (token argv 1) = Some cmd).
Proof.
  intros Hr Hconf Hc Hhid. split; [|split; [|split; [|split; [|split]]]];
    [| | | |by unfold print_help_command_line; rewrite Hhid|].
  5: { intros visible Hv. destruct Hr as (_ & _ & Hfind).
       unfold find_command. by rewrite (find_command_from_agree 0 commands visible). }
  - intros Hh. rewrite (args_parse_help a _ _ _ _ _ _ c Hr Hconf Hc Hh). by rewrite Hhid.
  - intros Hh visible Hv. destruct Hr as (Hlen & Hrec & Hfind). unfold args_parse.
    replace (length argv <? 2)%nat with false by (symmetry; apply Nat.ltb_ge; lia).
    rewrite Hrec, Hfind, Hconf. by rewrite (dispatch_agree a commands' visible cmd argv st').
  - intros Hh Hp Ho Hn. destruct Hr as (Hlen & Hrec & Hfind). unfold args_parse.
    replace (length argv <? 2)%nat with false by (symmetry; apply Nat.ltb_ge; lia).
    rewrite Hrec, Hfind, Hconf. unfold dispatch. rewrite Hc.
    unfold no_help in Hh. rewrite Hh, Z.eqb_refl, andb_false_r.
    replace (is_su_required commands' cmd && negb (uid e =? 0)) with false.
    2: { destruct Hp as [-> | ->]; [reflexivity | by rewrite andb_false_r]. }
    rewrite Ho, Hn.
    destruct (run_command_calls commands' cmd c argv st' Hc) as (final & Hrun & Hcalls).
    rewrite Hrun. by exists final.
  - intros i c0 Hi Hcond. unfold configure_cli_commands in Hconf.
    destruct (configure_from_hidden 0 _ _ _ _ i c0 Hconf Hi Hcond) as (c' & Hc' & Hf).
    unfold is_command_hidden. by rewrite Hc'.
Qed.

(** ** The audit line *)

(** [log_command] hands its line to the log writer at [LOG_DEBUG], which
    the writer's threshold [MAX_LOG_LEVEL] turns away: the log file gains
    nothing, save the complaint about a failed allocation. *)
Lemma log_command_logfile argv result timespan st :
  logfile (log_command e argv result timespan st) = logfile st
  \/ logfile (log_command e argv result timespan st)
     = (logfile st ++ [Msg "sedcli: Memory allocation failed for logging." []])%list.
Proof.
  assert (Hp : forall m, logfile (sedcli_printf e LOG_ERR m st) = logfile st
                         \/ logfile (sedcli_printf e LOG_ERR m st) = (logfile st ++ [m])%list).
  { intros m. unfold sedcli_printf, std_printf, vsedcli_log. simpl.
    repeat match goal with |- context [if ?b then _ else _] => destruct b end; auto. }
  unfold log_command. destruct (negb (can_malloc e)); [apply Hp|].
  destruct (log_command_loop e argv 0 100 ""); [|apply Hp].
  left. reflexivity.
Qed.

Lemma audit_line_dropped command result timespan st :
  sedcli_log e LOG_DEBUG (audit_line command result timespan) st = st.
Proof. reflexivity. Qed.

End Facts.

(** * Further properties *)

Section MoreFacts.

Context {World : Type}.
Context `{hdr : headers}.
Variable sed_cli : World -> Z.
Variable nvme_error : World -> Z.
Variable e : env.

Abbreviation state := (@state World).
Abbreviation cli_command := (@cli_command World).

Implicit Types (st : state) (m : message) (a : app).
Implicit Types (o : cli_option) (options : list cli_option).

(** ** Option matcher *)

Lemma char_code_NUL c : char_code c = 0 <-> c = NUL.
Proof.
  unfold char_code. split.
  - intros Hc. rewrite <- (ascii_nat_embedding c).
    replace (nat_of_ascii c) with O by lia. reflexivity.
  - intros ->. reflexivity.
Qed.

Lemma char_code_inj c1 c2 : char_code c1 = char_code c2 -> c1 = c2.
Proof.
  unfold char_code. intros Hc.
  rewrite <- (ascii_nat_embedding c1), <- (ascii_nat_embedding c2).
  f_equal. lia.
Qed.

Lemma substring_0_0 s : String.substring 0 0 s = EmptyString.
Proof. by destruct s. Qed.

Lemma length_substring_0 n s :
  String.length (String.substring 0 n s) = Nat.min n (String.length s).
Proof.
  revert s. induction n as [|n IH]; intros s.
  - by rewrite substring_0_0.
  - destruct s as [|c s]; simpl; [reflexivity | by rewrite IH].
Qed.

(** [strncmp] answers 0 exactly when the first [n] bytes agree. *)
Lemma strncmp_0 s1 s2 n :
  cstring s1 -> cstring s2 ->
  strncmp s1 s2 n = 0 <-> String.substring 0 n s1 = String.substring 0 n s2.
Proof.
  revert s1 s2. induction n as [|n IH]; intros s1 s2 H1 H2.
  - rewrite !substring_0_0. simpl. tauto.
  - destruct s1 as [|c1 t1], s2 as [|c2 t2]; simpl.
    + tauto.
    + apply cstring_cons in H2 as [Hc _]. split; [|discriminate].
      intros E. destruct Hc. apply char_code_NUL. lia.
    + apply cstring_cons in H1 as [Hc _]. split; [|discriminate].
      intros E. destruct Hc. by apply char_code_NUL.
    + apply cstring_cons in H1 as [_ H1]. apply cstring_cons in H2 as [_ H2].
      destruct (Ascii.eqb_spec c1 c2) as [->|Hne].
      * rewrite (IH t1 t2 H1 H2). split; [by intros -> | by intros [= ->]].
      * split; [|by intros [= ? _]].
        intros E. destruct Hne. apply char_code_inj. lia.
Qed.

Lemma strncmp_short s1 s2 n :
  cstring s1 -> cstring s2 -> (String.length s2 < n)%nat ->
  strncmp s1 s2 n = 0 <-> s1 = s2.
Proof.
  intros H1 H2 Hlen. rewrite (strncmp_0 s1 s2 n H1 H2).
  rewrite (substring_all s2 n) by lia. split.
  - intros E. pose proof (length_substring_0 n s1) as Hl. rewrite E in Hl.
    rewrite <- E. symmetry. apply substring_all. lia.
  - intros ->. apply substring_all. lia.
Qed.

Lemma args_is_cases (tok long_name : string) (c : ascii) :
  cstring tok ->
  cstring long_name ->
  (String.length long_name < MAX_STR_LEN)%nat ->
  args_is tok long_name c = true
  <-> (c <> NUL /\ tok = String "-" (String c EmptyString))
      \/ tok = ("--" ++ long_name)%string.
Proof.
  intros Ht Hl Hlen. unfold args_is.
  destruct tok as [|c0 tok]; read_chars.
  { split; [discriminate | intros [[_ ?] | ?]; discriminate]. }
  destruct (Ascii.eqb_spec "-" c0) as [<-|Hc0].
  2: { split; [discriminate | intros [[_ [= ? _]] | [= ? _]]; congruence]. }
  apply cstring_cons in Ht as [_ Ht].
  destruct tok as [|c1 tok]; read_chars; cbn [str_from].
  { destruct (Ascii.eqb_spec NUL c) as [<-|Hc]; simpl.
    - destruct (Ascii.eqb_spec "-" NUL); [discriminate|]. simpl.
      split; [discriminate | intros [[_ ?] | ?]; discriminate].
    - destruct (Ascii.eqb_spec c NUL); [congruence|]. simpl.
      destruct (Ascii.eqb_spec "-" NUL); [discriminate|]. simpl.
      split; [discriminate | intros [[_ ?] | ?]; discriminate]. }
  apply cstring_cons in Ht as [Hc1 Ht].
  replace (str_from tok 0) with tok by (by destruct tok).
  assert (Hlong : Ascii.eqb "-" c1 && (strncmp tok long_name MAX_STR_LEN =? 0) = true
                  <-> String "-" (String c1 tok) = ("--" ++ long_name)%string).
  { destruct (Ascii.eqb_spec "-" c1) as [<-|Hd]; simpl.
    - rewrite Z.eqb_eq, (strncmp_short tok long_name _ Ht Hl Hlen).
      split; [by intros -> | by intros [= ->]].
    - split; [discriminate | intros [= ? _]; congruence]. }
  destruct (negb (Ascii.eqb NUL c) && Ascii.eqb c c1 && Ascii.eqb NUL (char_at tok 0))
    eqn:Eshort.
  - apply andb_true_iff in Eshort as [Eshort E2].
    apply andb_true_iff in Eshort as [E0 E1].
    apply negb_true_iff in E0.
    destruct (Ascii.eqb_spec NUL c); [discriminate|].
    destruct (Ascii.eqb_spec c c1); [subst c1|discriminate].
    destruct tok as [|c2 tok]; read_chars.
    + split; [|done]. intros _. left. split; [congruence | done].
    + rewrite char_at_0 in E2. apply cstring_cons in Ht as [Hc2 _].
      destruct (Ascii.eqb_spec NUL c2); [congruence | discriminate].
  - destruct (Ascii.eqb "-" c1 && (strncmp tok long_name MAX_STR_LEN =? 0)) eqn:El.
    + split; [|done]. intros _. right. by apply Hlong.
    + split; [discriminate|]. intros [[Hc [= -> ->]] | Heq].
      * rewrite char_at_empty, !Ascii.eqb_refl in Eshort.
        destruct (Ascii.eqb_spec NUL c); [congruence | discriminate].
      * apply Hlong in Heq. congruence.
Qed.

(** X1. Matching is exact: when the descriptor's long name is shorter than
    MAX_STR_LEN, a token matches the descriptor exactly when it is the
    dash and the (present) short name, or the two dashes and the whole
    long name; nothing is matched by prefix or regardless of case. *)
Theorem args_is_exact (tok long_name : string) (c : ascii) :
  cstring tok ->
  cstring long_name ->
  (String.length long_name < MAX_STR_LEN)%nat ->
  args_is tok long_name c = true
  <-> (c <> NUL /\ tok = String "-" (String c EmptyString))
      \/ tok = ("--" ++ long_name)%string.
Proof. exact (args_is_cases tok long_name c). Qed.

(** X2. With MAX_STR_LEN of 8 or more, the help pseudo-option is [-H] or
    [--help] and nothing else, and the version pseudo-option is [-V] or
    [--version] and nothing else. *)
Theorem pseudo_options_exact (tok : string) :
  cstring tok ->
  (8 <= MAX_STR_LEN)%nat ->
  (is_help tok = true <-> tok = "-H"%string \/ tok = "--help"%string)
  /\ (is_version tok = true <-> tok = "-V"%string \/ tok = "--version"%string).
Proof.
  intros Ht Hmax.
  assert (Hc : forall s, Forall (fun c => c <> NUL) (string_chars s) -> cstring s) by done.
  split.
  - unfold is_help. rewrite (args_is_cases tok "help" "H" Ht); [| |simpl; lia].
    + split; [intros [[_ ->] | ->]; auto | intros [-> | ->]; [left | right]; done].
    + apply Hc. simpl. repeat (constructor; [discriminate|]). constructor.
  - unfold is_version. rewrite (args_is_cases tok "version" "V" Ht); [| |simpl; lia].
    + split; [intros [[_ ->] | ->]; auto | intros [-> | ->]; [left | right]; done].
    + apply Hc. simpl. repeat (constructor; [discriminate|]). constructor.
Qed.

Lemma get_option_from_spec i options tok :
  match get_option_from i options tok with
  | Some k =>
      (i <= k)%nat
      /\ (exists o, options !! (k - i)%nat = Some o
                    /\ args_is tok (o_long_name o) (o_short_name o) = true)
      /\ (forall j o', (j < k - i)%nat -> options !! j = Some o' ->
            args_is tok (o_long_name o') (o_short_name o') = false)
  | None =>
      Forall (fun o => args_is tok (o_long_name o) (o_short_name o) = false) options
  end.
Proof.
  revert i. induction options as [|o options IH]; intros i; simpl; [constructor|].
  destruct (args_is tok (o_long_name o) (o_short_name o)) eqn:E.
  - split; [lia|]. rewrite Nat.sub_diag. split; [by exists o | intros j o' Hj; lia].
  - specialize (IH (S i)). destruct (get_option_from (S i) options tok) as [k|].
    + destruct IH as (Hle & (o1 & Ho1 & Hm) & Hfirst). split; [lia|].
      replace (k - i)%nat with (S (k - S i)) by lia. split; [by exists o1|].
      intros [|j] o' Hj Hl; simpl in Hl; [congruence|].
      apply (Hfirst j o'); [lia | done].
    + by constructor.
Qed.

Lemma get_option_match options tok :
  (forall k, get_option options tok = Some k ->
     (k < length options)%nat
     /\ (exists o, options !! k = Some o
                   /\ args_is tok (o_long_name o) (o_short_name o) = true)
     /\ (forall j o', (j < k)%nat -> options !! j = Some o' ->
           args_is tok (o_long_name o') (o_short_name o') = false))
  /\ (get_option options tok = None
      <-> Forall (fun o => args_is tok (o_long_name o) (o_short_name o) = false) options).
Proof.
  pose proof (get_option_from_spec 0 options tok) as Hs. unfold get_option. split.
  - intros k Hk. rewrite Hk in Hs. rewrite Nat.sub_0_r in Hs.
    destruct Hs as (_ & (o & Ho & Hm) & Hfirst).
    split; [by eapply lookup_lt_Some|]. split; [by exists o | exact Hfirst].
  - destruct (get_option_from 0 options tok) as [k|]; [|done].
    split; [discriminate|]. intros Hall.
    destruct Hs as (_ & (o & Ho & Hm) & _).
    rewrite Forall_forall in Hall.
    rewrite (Hall o) in Hm; [discriminate | by eapply list_elem_of_lookup_2].
Qed.

(** X3. [get_option] answers the index of the first descriptor, in table
    order, that the token matches, and -1 exactly when no descriptor of the
    table matches it. *)
Theorem get_option_first_match options tok :
  (forall k, get_option options tok = Some k ->
     (k < length options)%nat
     /\ (exists o, options !! k = Some o
                   /\ args_is tok (o_long_name o) (o_short_name o) = true)
     /\ (forall j o', (j < k)%nat -> options !! j = Some o' ->
           args_is tok (o_long_name o') (o_short_name o') = false))
  /\ (get_option options tok = None
      <-> Forall (fun o => args_is tok (o_long_name o) (o_short_name o) = false) options).
Proof. exact (get_option_match options tok). Qed.

Lemma args_is_long_form long_name c :
  args_is ("--" ++ long_name)%string long_name c = true.
Proof.
  unfold args_is. simpl append. read_chars. cbn [str_from].
  replace (str_from long_name 0) with long_name by (by destruct long_name).
  rewrite strncmp_refl, Ascii.eqb_refl. simpl.
  by destruct (_ && _).
Qed.

Lemma args_is_short_form long_name c :
  c <> NUL -> args_is (String "-" (String c EmptyString)) long_name c = true.
Proof.
  intros Hc. unfold args_is. read_chars. rewrite !Ascii.eqb_refl.
  destruct (Ascii.eqb_spec NUL c); [congruence | reflexivity].
Qed.

(** X4. The forms under which help documents an option always parse: for
    every descriptor of a table, [--] and its long name is matched by some
    descriptor of that table, and so is [-] and its short name when it has
    one; when the name starts with a letter the token is also well formed.
    Neither "Unrecognized option" nor "Invalid format" can be the answer
    to them. *)
Theorem documented_forms_match options o :
  o ∈ options ->
  (get_option options ("--" ++ o_long_name o)%string <> None
   /\ (is_letter (char_at (o_long_name o) 0) = true ->
       args_is_unrecognized ("--" ++ o_long_name o)%string = false))
  /\ (o_short_name o <> NUL ->
      get_option options (String "-" (String (o_short_name o) EmptyString)) <> None
      /\ (is_letter (o_short_name o) = true ->
          args_is_unrecognized (String "-" (String (o_short_name o) EmptyString)) = false)).
Proof.
  intros Hin.
  assert (Hsome : forall tok, args_is tok (o_long_name o) (o_short_name o) = true ->
                              get_option options tok <> None).
  { intros tok Hm Hnone. apply (proj2 (get_option_match options tok)) in Hnone.
    rewrite Forall_forall in Hnone. rewrite (Hnone o Hin) in Hm. discriminate. }
  split; [split|].
  - apply Hsome, args_is_long_form.
  - intros Hl. unfold args_is_unrecognized. simpl append. read_chars.
    by rewrite dash_not_letter, Ascii.eqb_refl, Hl.
  - intros Hc. split.
    + by apply Hsome, args_is_short_form.
    + intros Hl. unfold args_is_unrecognized. read_chars.
      by rewrite Hl, !Ascii.eqb_refl.
Qed.

Lemma help_position_from_spec i tokens :
  match help_position_from i tokens =? -1 with
  | true => Forall (fun t => is_help t = false) tokens
  | false =>
      exists k t, help_position_from i tokens = Z.of_nat (i + k)
                  /\ tokens !! k = Some t /\ is_help t = true
                  /\ Forall (fun t' => is_help t' = false) (take k tokens)
  end.
Proof.
  revert i. induction tokens as [|t tokens IH]; intros i; simpl; [constructor|].
  destruct (is_help t) eqn:E.
  - destruct (Z.eqb_spec (Z.of_nat i) (-1)); [lia|].
    exists O, t. rewrite Nat.add_0_r. repeat split; [done | constructor].
  - specialize (IH (S i)). destruct (help_position_from (S i) tokens =? -1).
    + by constructor.
    + destruct IH as (k & t' & Hp & Hk & Ht & Hall). exists (S k), t'.
      rewrite Hp. repeat split; [f_equal; lia | done | done | by constructor].
Qed.

(** X5. [get_help_position] answers -1 exactly when no token from position
    2 on is a help token; otherwise it answers the position of the first
    such token, which lies between 2 and [argc - 1].  The command token at
    position 1 is never taken for a request of help on a command. *)
Theorem get_help_position_first argv :
  (get_help_position argv = -1
   <-> forall j t, (2 <= j)%nat -> argv !! j = Some t -> is_help t = false)
  /\ (get_help_position argv <> -1 ->
      exists p t, get_help_position argv = Z.of_nat p
                  /\ (2 <= p < length argv)%nat
                  /\ argv !! p = Some t /\ is_help t = true
                  /\ forall j t', (2 <= j < p)%nat -> argv !! j = Some t' ->
                       is_help t' = false).
Proof.
  unfold get_help_position.
  pose proof (help_position_from_spec 2 (drop 2 argv)) as Hs.
  destruct (Z.eqb_spec (help_position_from 2 (drop 2 argv)) (-1)) as [E|E].
  - split; [|done]. split; [|done]. intros _ j t Hj Hl.
    rewrite Forall_forall in Hs. apply Hs. apply list_elem_of_lookup.
    exists (j - 2)%nat. rewrite lookup_drop. by replace (2 + (j - 2))%nat with j by lia.
  - destruct Hs as (k & t & Hp & Hk & Ht & Hall). rewrite lookup_drop in Hk. split.
    + split; [done|]. intros Hno. rewrite (Hno (2 + k)%nat t) in Ht; [done | lia | done].
    + intros _. exists (2 + k)%nat, t. split; [done|].
      split; [split; [lia | by eapply lookup_lt_Some]|]. split; [done|]. split; [done|].
      intros j t' Hj Hl. rewrite Forall_forall in Hall. apply Hall.
      apply list_elem_of_lookup. exists (j - 2)%nat.
      rewrite lookup_take_lt by lia. rewrite lookup_drop.
      by replace (2 + (j - 2))%nat with j by lia.
Qed.

(** ** Log writer and printing *)

Lemma stderr_messages_app out1 out2 :
  stderr_messages (out1 ++ out2)%list
  = (stderr_messages out1 ++ stderr_messages out2)%list.
Proof. unfold stderr_messages. apply flat_map_app. Qed.

Lemma transcript_refl st : transcript e st st [] [].
Proof. unfold transcript. simpl. by rewrite !app_nil_r. Qed.

Lemma transcript_trans st st1 st2 out1 out2 new1 new2 :
  transcript e st st1 out1 new1 ->
  transcript e st1 st2 out2 new2 ->
  transcript e st st2 (out1 ++ out2)%list (new1 ++ new2)%list.
Proof.
  intros (Hc1 & Hk1 & Hw1 & Hf1) (Hc2 & Hk2 & Hw2 & Hf2). repeat split.
  - by rewrite Hc2, Hc1, app_assoc.
  - by rewrite Hk2, Hk1, app_assoc.
  - intros Hw. by rewrite (Hw2 Hw), (Hw1 Hw), stderr_messages_app, app_assoc.
  - intros Hf. by rewrite (Hf2 Hf), (Hf1 Hf).
Qed.

Lemma transcript_call k w st : transcript e st (record_call k (set_world w st)) [] [k].
Proof. unfold transcript. simpl. by rewrite !app_nil_r. Qed.

Lemma only_prints_printf level m st :
  only_prints e st (sedcli_printf e level m st)
    [(if LOG_WARNING >=? level then Stderr else Stdout, m)].
Proof.
  unfold only_prints, transcript, sedcli_printf, std_printf, vsedcli_log, log_writable.
  unfold MAX_LOG_LEVEL.
  destruct (Z.geb_spec LOG_WARNING level) as [Hle|Hgt].
  - destruct (Z.gtb_spec level LOG_WARNING); [lia|].
    destruct (log_fopen e), (log_lockf e), (have_localtime e), (have_asctime e);
      simpl; repeat split; try done; by rewrite ?app_nil_r.
  - simpl. repeat split; try done; by rewrite ?app_nil_r.
Qed.

(** X6. Where a message goes: at LOG_WARNING or more severe it is written
    to the standard error and appended to the log file, provided the file
    can be opened, locked and stamped (if it cannot be opened the log stays
    as it is); at a less severe level it is written to the standard output
    and never reaches the log file.  The world and the calls are left
    alone. *)
Theorem sedcli_printf_effect level m st :
  only_prints e st (sedcli_printf e level m st)
    [(if LOG_WARNING >=? level then Stderr else Stdout, m)]
  /\ (level > LOG_WARNING -> logfile (sedcli_printf e level m st) = logfile st).
Proof.
  split; [apply only_prints_printf|]. intros Hgt.
  unfold sedcli_printf, std_printf.
  destruct (Z.geb_spec LOG_WARNING level); [lia | reflexivity].
Qed.

Lemma only_prints_trans st st1 st2 out1 out2 :
  only_prints e st st1 out1 -> only_prints e st1 st2 out2 ->
  only_prints e st st2 (out1 ++ out2)%list.
Proof.
  intros [Hw1 Ht1] [Hw2 Ht2]. split; [congruence|].
  apply (transcript_trans _ _ _ _ _ [] [] Ht1 Ht2).
Qed.

Lemma only_prints_refl st : only_prints e st st [].
Proof. split; [reflexivity | apply transcript_refl]. Qed.

Lemma only_prints_usage_error a m st :
  only_prints e st (usage_error e a m st)
    [(Stderr, m);
     (Stdout, Msg "Try `%s --help' for more information.\n" [AStr (app_name a)])].
Proof.
  unfold usage_error, print_info.
  exact (only_prints_trans _ _ _ [_] [_] (only_prints_printf LOG_ERR m st)
           (only_prints_printf LOG_INFO _ _)).
Qed.

Lemma only_prints_info_all ms st :
  only_prints e st (sedcli_printf_all e LOG_INFO ms st) ((fun m => (Stdout, m)) <$> ms).
Proof.
  unfold sedcli_printf_all. revert st. induction ms as [|m ms IH]; intros st; simpl.
  - apply only_prints_refl.
  - refine (only_prints_trans _ _ _ [_] _ (only_prints_printf LOG_INFO m st) _). apply IH.
Qed.

(** ** Status report and command runner *)

Lemma print_sed_status_prints status st :
  exists out,
    only_prints e st (print_sed_status sed_cli nvme_error e status st) out
    /\ (length out <= 1)%nat
    /\ (status < 0 -> exists m, out = [(Stderr, m)]).
Proof.
  unfold print_sed_status.
  destruct (Z.ltb_spec status 0) as [Hneg|Hpos].
  - repeat match goal with |- context [if ?b then _ else _] => destruct b end;
      eexists; (split; [apply (only_prints_printf LOG_ERR)|]); simpl;
      (split; [lia | intros _; eexists; reflexivity]).
  - repeat match goal with
           | |- context [if ?b then _ else _] => destruct b
           | |- context [match ?x with Some _ => _ | None => _ end] => destruct x
           end;
      try (eexists; split; [apply only_prints_printf|]; simpl; split; [lia | lia]);
      exists []; (split; [apply only_prints_refl | simpl; split; [lia | lia]]).
Qed.

(** X11. Reporting a status is output and nothing else: the world and the
    calls are untouched and at most one message is printed.  A negative
    status always yields exactly one message on the standard error. *)
Theorem print_sed_status_effect status st :
  exists out,
    only_prints e st (print_sed_status sed_cli nvme_error e status st) out
    /\ (length out <= 1)%nat
    /\ (status < 0 -> exists m, out = [(Stderr, m)]).
Proof. exact (print_sed_status_prints status st). Qed.

Lemma log_command_prints argv result timespan st :
  exists out,
    only_prints e st (log_command e argv result timespan st) out
    /\ (length out <= 1)%nat.
Proof.
  unfold log_command.
  destruct (negb (can_malloc e)).
  { eexists. split; [apply (only_prints_printf LOG_ERR) | simpl; lia]. }
  destruct (log_command_loop e argv 0 100 "").
  - exists []. split; [apply only_prints_refl | simpl; lia].
  - eexists. split; [apply (only_prints_printf LOG_ERR) | simpl; lia].
Qed.

Lemma run_command_transcript commands cmd (c : cli_command) argv st :
  commands !! cmd = Some c ->
  exists final out,
    run_command sed_cli nvme_error e commands cmd argv st
    = Some (fst (c_handle c (world st)), final)
    /\ world final = snd (c_handle c (world st))
    /\ transcript e st final out [CallHandle cmd]
    /\ (length out <= 2)%nat
    /\ (c_short_name c = "V"%char -> is_version (token argv 1) = true -> out = []).
Proof.
  intros Hc. unfold run_command. rewrite Hc.
  destruct (c_handle c (world st)) as [result w]. simpl.
  set (st1 := record_call (CallHandle cmd) (set_world w st)).
  assert (H1 : transcript e st st1 [] [CallHandle cmd]) by apply transcript_call.
  destruct (print_sed_status_prints result st1) as (out2 & [Hw2 Ht2] & Hl2 & _).
  set (st2 := if negb (is_help (token argv 1)) && negb (is_version (token argv 1))
              then print_sed_status sed_cli nvme_error e result st1 else st1).
  assert (H2 : exists pr2, only_prints e st1 st2 pr2 /\ (length pr2 <= 1)%nat
                          /\ (is_version (token argv 1) = true -> pr2 = [])).
  { subst st2. destruct (is_version (token argv 1)).
    - rewrite andb_false_r. exists []. split; [apply only_prints_refl | simpl; split; [lia | done]].
    - destruct (negb (is_help (token argv 1))); simpl.
      + exists out2. split; [done | split; [done | discriminate]].
      + exists []. split; [apply only_prints_refl | simpl; split; [lia | done]]. }
  destruct H2 as (pr2 & [Hwp2 Htp2] & Hlp2 & Hv2).
  destruct (Ascii.eqb_spec (c_short_name c) "V") as [HV|HV]; simpl.
  - exists st2, pr2. split; [done|]. split; [by rewrite Hwp2|].
    split; [apply (transcript_trans _ _ _ [] _ _ [] H1 Htp2)|]. split; [lia|]. auto.
  - destruct (log_command_prints argv result (elapsed_ms e) st2) as (pr3 & [Hw3 Ht3] & Hl3).
    exists (log_command e argv result (elapsed_ms e) st2), (pr2 ++ pr3)%list.
    split; [done|]. split; [by rewrite Hw3, Hwp2|]. split.
    + apply (transcript_trans _ _ _ [] _ _ [] H1).
      apply (transcript_trans _ _ _ _ _ [] [] Htp2 Ht3).
    + rewrite length_app. split; [lia | done].
Qed.

(** X12. The command runner invokes [handle] exactly once and returns its
    status unchanged; the world it leaves is the one [handle] left.  It
    prints at most two messages, and none at all, so that nothing reaches
    the log file, for the command with the short name [V] asked for by a
    version token. *)
Theorem run_command_effect commands cmd (c : cli_command) argv st :
  commands !! cmd = Some c ->
  exists final out,
    run_command sed_cli nvme_error e commands cmd argv st
    = Some (fst (c_handle c (world st)), final)
    /\ world final = snd (c_handle c (world st))
    /\ transcript e st final out [CallHandle cmd]
    /\ (length out <= 2)%nat
    /\ (c_short_name c = "V"%char -> is_version (token argv 1) = true -> out = []).
Proof. exact (run_command_transcript commands cmd c argv st). Qed.

(** ** Configure hooks *)

Lemma configure_from_transcript i (commands : list cli_command) st :
  let '(commands', st') := configure_from i commands st in
  transcript e st st' [] (configure_calls_from i commands)
  /\ logfile st' = logfile st
  /\ Forall2 (fun c c' =>
                (c' = c \/ c' = set_flags c (Z.lor (c_flags c) CLI_COMMAND_HIDDEN))
                /\ (c_configure c = None -> c' = c))
       commands commands'.
Proof.
  revert i st. induction commands as [|c commands IH]; intros i st; simpl.
  - split; [apply transcript_refl | split; [done | constructor]].
  - unfold configure_command. destruct (c_configure c) as [hook|] eqn:Hh.
    + destruct (hook (world st)) as [r w].
      set (st1 := record_call (CallConfigure i) (set_world w st)).
      specialize (IH (S i) st1).
      assert (H1 : transcript e st st1 [] [CallConfigure i]) by apply transcript_call.
      destruct (r <? 0); destruct (configure_from (S i) commands st1) as [rest' st2];
        destruct IH as (Ht & Hl & Hf).
      * split; [exact (transcript_trans _ _ _ [] [] [_] _ H1 Ht)|].
        split; [by rewrite Hl|]. constructor; [|done]. split; [by right | congruence].
      * split; [exact (transcript_trans _ _ _ [] [] [_] _ H1 Ht)|].
        split; [by rewrite Hl|]. constructor; [|done]. split; [by left | done].
    + specialize (IH (S i) st).
      destruct (configure_from (S i) commands st) as [rest' st2].
      destruct IH as (Ht & Hl & Hf). split; [done|]. split; [done|].
      constructor; auto.
Qed.

(** X13. The configure pass calls every hook of the table once, in table
    order, and prints nothing.  It leaves the table as long as it was and
    changes a descriptor in one way only, by adding the hidden flag to its
    flags; a command without a hook is left as it is. *)
Theorem configure_cli_commands_effect (commands commands' : list cli_command) st st' :
  configure_cli_commands commands st = (commands', st') ->
  length commands' = length commands
  /\ console st' = console st
  /\ logfile st' = logfile st
  /\ calls st' = (calls st ++ configure_calls_from 0 commands)%list
  /\ Forall2 (fun c c' =>
                (c' = c \/ c' = set_flags c (Z.lor (c_flags c) CLI_COMMAND_HIDDEN))
                /\ (c_configure c = None -> c' = c))
       commands commands'.
Proof.
  intros Hconf. pose proof (configure_from_transcript 0 commands st) as He.
  unfold configure_cli_commands in Hconf. rewrite Hconf in He.
  destruct He as ((Hc & Hk & _) & Hl & Hf).
  split; [symmetry; by eapply Forall2_length|].
  split; [by rewrite Hc, app_nil_r|]. done.
Qed.

(** ** Audit line *)

Lemma append_assoc (s1 s2 s3 : string) :
  ((s1 ++ s2) ++ s3)%string = (s1 ++ (s2 ++ s3))%string.
Proof. induction s1 as [|c s1 IH]; simpl; [reflexivity | by rewrite IH]. Qed.

Lemma append_empty_r (s : string) : (s ++ "")%string = s.
Proof. induction s as [|c s IH]; simpl; [reflexivity | by rewrite IH]. Qed.

Lemma log_command_loop_joins tokens cmd_len cmd_buf_len command :
  can_realloc e = true ->
  log_command_loop e tokens cmd_len cmd_buf_len command
  = Some (command ++ join_tokens (truncated <$> tokens))%string.
Proof.
  intros Hr. revert cmd_len cmd_buf_len command.
  induction tokens as [|tok rest IH]; intros cmd_len cmd_buf_len command; simpl.
  - by rewrite append_empty_r.
  - rewrite Hr, andb_false_r. rewrite IH. f_equal.
    destruct rest as [|tok' rest]; simpl.
    + by rewrite !append_assoc, !append_empty_r.
    + by rewrite !append_assoc.
Qed.

Lemma truncated_short tok :
  (String.length tok <= MAX_STR_LEN)%nat -> truncated tok = tok.
Proof.
  intros Hl. unfold truncated, strnlen. apply substring_all. lia.
Qed.

(** X8. When [realloc] does not fail, the loop of [log_command] rebuilds
    the command line of a non-empty [argv] as its tokens, each cut to
    MAX_STR_LEN bytes, joined by single spaces, with no space at either
    end; tokens within that length are rebuilt in full.  (With no token at
    all the loop stores nothing and the buffer stays as [malloc] left
    it.) *)
Theorem log_command_rebuilds argv :
  argv <> [] ->
  can_realloc e = true ->
  log_command_loop e argv 0 100 EmptyString = Some (join_tokens (truncated <$> argv))
  /\ (Forall (fun tok => (String.length tok <= MAX_STR_LEN)%nat) argv ->
      log_command_loop e argv 0 100 EmptyString = Some (join_tokens argv)).
Proof.
  intros _ Hr. rewrite (log_command_loop_joins argv 0 100 "" Hr). simpl.
  split; [reflexivity|]. intros Hall.
  replace (truncated <$> argv) with argv; [reflexivity|].
  induction Hall as [|tok rest Htok _ IH]; [reflexivity|].
  rewrite fmap_cons, <- IH. by rewrite truncated_short.
Qed.

Lemma log_command_stores_fit_from tokens cmd_len cmd_buf_len :
  (cmd_len <= cmd_buf_len)%nat ->
  log_command_stores_fit tokens cmd_len cmd_buf_len = true.
Proof.
  revert cmd_len cmd_buf_len.
  induction tokens as [|tok rest IH]; intros cmd_len cmd_buf_len Hle; simpl; [reflexivity|].
  set (tok_len := strnlen tok MAX_STR_LEN).
  destruct (Nat.ltb_spec cmd_buf_len (tok_len + 1 + cmd_len)) as [Hgrow|Hfit].
  - rewrite IH by lia.
    destruct (Nat.leb_spec (cmd_len + tok_len + 1) ((tok_len + 1 + cmd_buf_len) * 2));
      [reflexivity | lia].
  - rewrite IH by lia.
    destruct (Nat.leb_spec (cmd_len + tok_len + 1) cmd_buf_len); [reflexivity | lia].
Qed.

(** X9. Whatever the tokens are, every store of the loop of [log_command]
    lands inside the command buffer: the buffer is doubled in time, and
    the bytes in use never exceed its size.  The lengths are counted
    without the overflow of [int], which a command line would have to be
    a gigabyte long to reach. *)
Theorem log_command_stays_in_buffer argv :
  log_command_stores_fit argv 0 100 = true.
Proof. apply log_command_stores_fit_from. lia. Qed.

(** X10. [sed_error_text] has a text for the statuses 0x00 to 0x12 and for
    0x3F, and a null pointer for every other status: for the negative
    ones, for those above 0x3F, and for 0x13 to 0x3E, the slots that the
    table leaves empty. *)
Theorem sed_error_text_defined (sed_status : Z) :
  sed_error_text sed_status <> None
  <-> (0 <= sed_status <= 0x12 \/ sed_status = 0x3F).
Proof.
  unfold sed_error_text, SED_SUCCESS, SED_FAIL.
  destruct (Z.ltb_spec sed_status 0); simpl; [split; [done | lia]|].
  destruct (Z.gtb_spec sed_status 63); simpl; [split; [done | lia]|].
  unfold sed_statuses, table_lookup.
  repeat match goal with
         | |- context [?x =? ?y] => destruct (Z.eqb_spec x y); [split; [lia | discriminate]|]
         end.
  split; [done | lia].
Qed.

(** ** The whole run *)

Lemma parse_call_not_handle cmd k : parse_call cmd k -> is_handle_call k = false.
Proof. by intros [(? & ? & ->) | (? & ? & ? & ->)]. Qed.

Lemma invoke_parse_transcript cmd (c : cli_command) entry o view st status st1 :
  invoke_parse cmd c entry o view st = Some (status, st1) ->
  exists k, transcript e st st1 [] [k] /\ parse_call cmd k.
Proof.
  unfold invoke_parse. destruct (c_options_parse c) as [parse|].
  - destruct (parse _ _ _) as [s w]. intros [= <- <-].
    eexists. split; [apply transcript_call | left; eauto].
  - destruct (c_namespace_opts_parse c) as [parse|]; [|discriminate].
    destruct entry as [en|]; [|discriminate].
    destruct (parse _ _ _ _) as [s w]. intros [= <- <-].
    eexists. split; [apply transcript_call | right; eauto].
Qed.

Lemma transcript_fail_with a m st :
  transcript e st (snd (fail_with e a m st))
    [(Stderr, m);
     (Stdout, Msg "Try `%s --help' for more information.\n" [AStr (app_name a)])] [].
Proof. apply (only_prints_usage_error a m st). Qed.

(** The walk adds calls of the parse callback of the command and no
    other, and ends in completion, in FAILURE or in undefined behaviour. *)
Lemma walk_transcript a cmd (c : cli_command) entry options tokens skip w st :
  exists out new,
    transcript e st (snd (walk e a cmd c entry options tokens skip w st)) out new
    /\ Forall (parse_call cmd) new
    /\ (fst (walk e a cmd c entry options tokens skip w st) = WalkDone
        \/ fst (walk e a cmd c entry options tokens skip w st) = WalkStop (Returned FAILURE)
        \/ fst (walk e a cmd c entry options tokens skip w st) = WalkStop Undefined).
Proof.
  revert skip w st. induction tokens as [|tok rest IH]; intros skip w st.
  { exists [], []. split; [apply transcript_refl | split; [constructor | by left]]. }
  simpl. destruct skip as [|skip]; [|apply IH].
  assert (Hfail : forall m st0 new0,
            transcript e st st0 [] new0 -> Forall (parse_call cmd) new0 ->
            exists out new,
              transcript e st (snd (fail_with e a m st0)) out new
              /\ Forall (parse_call cmd) new
              /\ (fst (fail_with e a m st0) = WalkDone
                  \/ fst (fail_with e a m st0) = WalkStop (Returned FAILURE)
                  \/ fst (fail_with e a m st0) = WalkStop Undefined)).
  { intros m st0 new0 H0 Hn. eexists _, (new0 ++ [])%list. split.
    - exact (transcript_trans _ _ _ [] _ _ _ H0 (transcript_fail_with a m st0)).
    - rewrite app_nil_r. split; [done | right; by left]. }
  destruct (args_is_unrecognized tok);
    [exact (Hfail _ st [] (transcript_refl st) (List.Forall_nil _))|].
  destruct (get_option options tok) as [opt|];
    [|exact (Hfail _ st [] (transcript_refl st) (List.Forall_nil _))].
  destruct (options !! opt) as [o|].
  2: { exists [], []. split; [apply transcript_refl | split; [constructor | by right; right]]. }
  destruct (take_params o rest w) as [w1 consumed| |].
  - destruct (invoke_parse cmd c entry o _ st) as [[status st1]|] eqn:Hi.
    + destruct (invoke_parse_transcript _ _ _ _ _ _ _ _ Hi) as (k & Hk & Hpk).
      destruct (negb (status =? 0)).
      * apply (Hfail _ st1 [k] Hk). by constructor.
      * destruct (IH consumed
                    {| args_count := args_count w1;
                       args_offset := (args_offset w1 + args_count w1)%nat;
                       args_list := args_list w1 |} st1) as (out & new & Ht & Hn & Hr).
        exists out, (k :: new). split; [|split; [by constructor | done]].
        exact (transcript_trans _ _ _ [] out [k] new Hk Ht).
    + simpl. eexists _, []. split; [|split; [constructor | right; by left]].
      apply (only_prints_printf LOG_ERR).
  - exact (Hfail _ st [] (transcript_refl st) (List.Forall_nil _)).
  - exists [], []. split; [apply transcript_refl | split; [constructor | by right; right]].
Qed.

Lemma run_shape_prefix commands st st1 final out1 new1 r :
  transcript e st st1 out1 new1 ->
  Forall (fun k => is_handle_call k = false) new1 ->
  run_shape e commands st1 final r ->
  run_shape e commands st final r.
Proof.
  intros H1 Hn (out & pre & Hpre & Hcase).
  exists (out1 ++ out)%list, (new1 ++ pre)%list. split; [by apply Forall_app|].
  destruct Hcase as [[Ht Hr] | (cmd & c & w & Ht & Hc & Hr)].
  - left. split; [by eapply transcript_trans | done].
  - right. exists cmd, c, w. split; [|done].
    rewrite <- app_assoc. by eapply transcript_trans.
Qed.

Lemma run_shape_stop commands st final out r :
  only_prints e st final out ->
  r = Returned SUCCESS \/ r = Returned FAILURE \/ r = Undefined ->
  run_shape e commands st final r.
Proof.
  intros [_ Ht] Hr. exists out, []. split; [constructor | left; done].
Qed.

Lemma run_shape_run_command commands cmd argv st :
  match run_command sed_cli nvme_error e commands cmd argv st with
  | Some (r, final) => run_shape e commands st final (Returned r)
  | None => run_shape e commands st st Undefined
  end.
Proof.
  destruct (commands !! cmd) as [c|] eqn:Hc.
  - destruct (run_command_transcript commands cmd c argv st Hc)
      as (final & out & -> & _ & Ht & _).
    exists out, []. split; [constructor|]. right. exists cmd, c, (world st). done.
  - unfold run_command. rewrite Hc.
    apply (run_shape_stop _ _ _ [] _ (only_prints_refl st)). auto.
Qed.

Lemma run_shape_parse_options a commands cmd (c : cli_command) entry options first_opt
    argv st :
  run_shape e commands st
    (snd (parse_options sed_cli nvme_error e a commands cmd c entry options first_opt argv st))
    (fst (parse_options sed_cli nvme_error e a commands cmd c entry options first_opt argv st)).
Proof.
  unfold parse_options.
  destruct (validate options _) as [m|].
  { cbn [fst snd]. eapply run_shape_stop; [apply only_prints_usage_error | auto]. }
  destruct (negb (can_malloc e)).
  { cbn [fst snd]. eapply run_shape_stop; [apply only_prints_refl | auto]. }
  match goal with |- context [walk e a cmd c entry options ?t O ?w0 st] =>
    destruct (walk_transcript a cmd c entry options t O w0 st)
      as (out & new & Ht & Hn & Hr);
    destruct (walk e a cmd c entry options t O w0 st) as [res st1]
  end.
  cbn [fst snd] in *.
  assert (Hnh : Forall (fun k => is_handle_call k = false) new).
  { eapply Forall_impl; [exact Hn|]. intros k. apply parse_call_not_handle. }
  destruct res as [|r].
  - pose proof (run_shape_run_command commands cmd argv st1) as Hrun.
    destruct (run_command sed_cli nvme_error e commands cmd argv st1) as [[r final]|];
      simpl; by eapply run_shape_prefix.
  - cbn [fst snd]. exists out, new. split; [done|]. left. split; [done|].
    destruct Hr as [? | [[= ->] | [= ->]]]; [done | auto | auto].
Qed.

Lemma run_shape_dispatch a commands cmd argv st :
  run_shape e commands st
    (snd (dispatch sed_cli nvme_error e a commands cmd argv st))
    (fst (dispatch sed_cli nvme_error e a commands cmd argv st)).
Proof.
  unfold dispatch. destruct (commands !! cmd) as [c|] eqn:Hc.
  2: { cbn [fst snd]. eapply run_shape_stop; [apply only_prints_refl | auto]. }
  destruct (_ && negb (get_help_position argv =? -1)).
  { cbn [fst snd]. destruct (is_command_hidden commands cmd).
    - eapply run_shape_stop; [apply only_prints_refl | auto].
    - unfold print_command_help. destruct (c_help c) as [render|].
      + exists [], [CallHelp cmd]. split; [by repeat constructor|]. left.
        split; [apply transcript_call | auto].
      + destruct (c_namespace c);
          (eapply run_shape_stop; [apply only_prints_info_all | auto]). }
  destruct (_ && negb (uid e =? 0)).
  { cbn [fst snd]. eapply run_shape_stop; [apply (only_prints_printf LOG_ERR) | auto]. }
  destruct (c_options c) as [options|]; [apply run_shape_parse_options|].
  destruct (c_namespace c) as [ns|].
  - destruct (_ <? 3)%nat.
    { cbn [fst snd]. eapply run_shape_stop; [apply only_prints_usage_error | auto]. }
    destruct (_ <? 4)%nat.
    { cbn [fst snd]. eapply run_shape_stop; [apply only_prints_usage_error | auto]. }
    destruct (negb (args_is _ _ _)).
    { cbn [fst snd]. eapply run_shape_stop; [apply only_prints_usage_error | auto]. }
    destruct (ns_entries ns) as [|en0 ens] eqn:Hens.
    { cbn [fst snd]. eapply run_shape_stop; [apply only_prints_refl | auto]. }
    rewrite <- Hens. destruct (find_entry _ _) as [en|].
    + apply run_shape_parse_options.
    + cbn [fst snd]. eapply run_shape_stop; [apply only_prints_usage_error | auto].
  - pose proof (run_shape_run_command commands cmd argv st) as Hrun.
    by destruct (run_command sed_cli nvme_error e commands cmd argv st) as [[r final]|].
Qed.

Lemma configure_calls_not_handle i (commands : list cli_command) :
  Forall (fun k => is_handle_call k = false) (configure_calls_from i commands).
Proof.
  revert i. induction commands as [|c commands IH]; intros i; simpl; [constructor|].
  destruct (c_configure c); [constructor; [done | apply IH] | apply IH].
Qed.

Lemma args_parse_shape a commands argv st :
  run_shape e (snd (fst (args_parse sed_cli nvme_error e a commands argv st))) st
    (snd (args_parse sed_cli nvme_error e a commands argv st))
    (fst (fst (args_parse sed_cli nvme_error e a commands argv st))).
Proof.
  unfold args_parse.
  destruct (_ <? 2)%nat.
  { cbn [fst snd]. eapply run_shape_stop; [apply only_prints_usage_error | auto]. }
  destruct (args_is_unrecognized _).
  { cbn [fst snd]. eapply run_shape_stop; [apply only_prints_usage_error | auto]. }
  destruct (find_command commands _) as [cmd|].
  - pose proof (configure_from_transcript 0 commands st) as Hc.
    unfold configure_cli_commands.
    destruct (configure_from 0 commands st) as [commands' st'].
    destruct Hc as (Ht & _ & _).
    pose proof (run_shape_dispatch a commands' cmd argv st') as Hd.
    destruct (dispatch sed_cli nvme_error e a commands' cmd argv st') as [r final].
    cbn [fst snd] in *. eapply run_shape_prefix; [exact Ht | apply configure_calls_not_handle | done].
  - destruct (is_help _); cbn [fst snd].
    + eapply run_shape_stop; [apply only_prints_info_all | auto].
    + eapply run_shape_stop; [apply only_prints_usage_error | auto].
Qed.

(** X18. Whatever the input, args_parse invokes [handle] at most once and
    only as its last call.  When it does, args_parse returns the status
    that [handle] gave, unchanged; when it does not, args_parse returns
    SUCCESS or FAILURE (or runs into undefined behaviour). *)
Theorem handle_runs_last a commands argv st :
  let result := args_parse sed_cli nvme_error e a commands argv st in
  exists pre,
    Forall (fun k => is_handle_call k = false) pre
    /\ ((calls (snd result) = (calls st ++ pre)%list
         /\ (fst (fst result) = Returned SUCCESS
             \/ fst (fst result) = Returned FAILURE
             \/ fst (fst result) = Undefined))
        \/ (exists cmd c w,
              calls (snd result) = (calls st ++ pre ++ [CallHandle cmd])%list
              /\ snd (fst result) !! cmd = Some c
              /\ fst (fst result) = Returned (fst (c_handle c w)))).
Proof.
  intros result. destruct (args_parse_shape a commands argv st)
    as (out & pre & Hpre & Hcase).
  exists pre. split; [done|].
  destruct Hcase as [[(_ & Hk & _) Hr] | (cmd & c & w & (_ & Hk & _) & Hc & Hr)].
  - left. done.
  - right. exists cmd, c, w. done.
Qed.

(** X7. Whatever the input, the lines that a run of args_parse adds to the
    log file are the messages it wrote to the standard error, in the same
    order, when the file can be opened, locked and stamped; when it cannot
    be opened the log file is left as it was.  What goes to the standard
    output, help included, never reaches the log file. *)
Theorem log_mirrors_stderr a commands argv st :
  let final := snd (args_parse sed_cli nvme_error e a commands argv st) in
  exists out,
    console final = (console st ++ out)%list
    /\ (log_writable e = true -> logfile final = (logfile st ++ stderr_messages out)%list)
    /\ (log_fopen e = false -> logfile final = logfile st).
Proof.
  intros final. destruct (args_parse_shape a commands argv st)
    as (out & pre & Hpre & Hcase).
  exists out.
  destruct Hcase as [[(Hc & _ & Hw & Hf) _] | (cmd & c & w & (Hc & _ & Hw & Hf) & _)]; done.
Qed.

(** ** The argument buffer *)

Lemma length_store_params k params (buf : list cell) :
  length (store_params k params buf) = length buf.
Proof.
  revert k buf. induction params as [|p params IH]; intros k buf; simpl; [reflexivity|].
  by rewrite IH, length_insert.
Qed.

Lemma get_option_lookup options tok opt :
  get_option options tok = Some opt -> is_Some (options !! opt).
Proof.
  intros Hg. apply lookup_lt_is_Some.
  by apply (proj1 (get_option_match options tok) opt).
Qed.

(** When every option of the table takes arguments, [args_offset] never
    runs ahead of the tokens walked, and each list stored fits the
    buffer. *)
Lemma walk_defined_with_arguments a cmd (c : cli_command) entry options tokens skip w st :
  Forall (fun o => o_arg o <> None) options ->
  (skip <= length tokens)%nat ->
  (args_offset w + (length tokens - skip) < length (args_list w))%nat ->
  fst (walk e a cmd c entry options tokens skip w st) <> WalkStop Undefined.
Proof.
  intros Hall. revert skip w st.
  induction tokens as [|tok rest IH]; intros skip w st Hskip Hroom; simpl; [done|].
  destruct skip as [|skip]; [|apply IH; simpl in *; lia].
  destruct (args_is_unrecognized tok); [done|].
  destruct (get_option options tok) as [opt|] eqn:Hg; [|done].
  destruct (get_option_lookup _ _ _ Hg) as [o Ho]. rewrite Ho.
  assert (Harg : o_arg o <> None).
  { rewrite Forall_forall in Hall. apply Hall. by eapply list_elem_of_lookup_2. }
  unfold take_params. destruct (o_arg o) as [label|]; [|done].
  destruct (invalid_arity o _); [done|].
  pose proof (count_arg_params_le rest) as Hle. simpl in Hroom.
  destruct (Nat.ltb_spec (args_offset w + count_arg_params rest) (length (args_list w)));
    [|lia].
  cbn [args_offset args_list args_count].
  destruct (invoke_parse cmd c entry o _ st) as [[status st1]|]; [|done].
  destruct (negb (status =? 0)); [done|].
  apply IH; cbn [args_offset args_list]; [lia|].
  rewrite length_insert, length_store_params. lia.
Qed.

Lemma walk_defined_without_arguments a cmd (c : cli_command) entry options tokens skip w st :
  Forall (fun o => o_arg o = None) options ->
  fst (walk e a cmd c entry options tokens skip w st) <> WalkStop Undefined.
Proof.
  intros Hall. revert skip w st.
  induction tokens as [|tok rest IH]; intros skip w st; simpl; [done|].
  destruct skip as [|skip]; [|apply IH].
  destruct (args_is_unrecognized tok); [done|].
  destruct (get_option options tok) as [opt|] eqn:Hg; [|done].
  destruct (get_option_lookup _ _ _ Hg) as [o Ho]. rewrite Ho.
  assert (Harg : o_arg o = None).
  { rewrite Forall_forall in Hall. apply Hall. by eapply list_elem_of_lookup_2. }
  unfold take_params. rewrite Harg.
  destruct (invoke_parse cmd c entry o _ st) as [[status st1]|]; [|done].
  destruct (negb (status =? 0)); [done | apply IH].
Qed.

(** X19. Over an option table in which every option takes arguments, or
    in which none does, args_parse never stores past the end of the
    argument buffer: the run ends with a status.  (A table that mixes the
    two kinds can overrun the buffer, as the run on
    [--files a b c -v -v -v --files d] shows.) *)
Theorem argument_buffer_suffices a commands argv st commands' st' cmd (c : cli_command)
    entry options first_opt :
  reaches_table e commands argv st commands' st' cmd c entry options first_opt ->
  Forall (fun o => o_arg o <> None) options \/ Forall (fun o => o_arg o = None) options ->
  fst (fst (args_parse sed_cli nvme_error e a commands argv st)) <> Undefined.
Proof.
  intros Hr Hkind.
  rewrite (args_parse_reaches sed_cli nvme_error e a _ _ _ _ _ _ _ _ _ _ Hr).
  destruct Hr as (_ & _ & Hc & _).
  unfold parse_options.
  destruct (validate options _); [done|].
  destruct (negb (can_malloc e)); [done|].
  match goal with |- context [walk e a cmd c entry options ?t O ?w0 st'] =>
    assert (Hw : fst (walk e a cmd c entry options t O w0 st') <> WalkStop Undefined);
    [|destruct (walk e a cmd c entry options t O w0 st') as [res st1]]
  end.
  { destruct Hkind as [Hall | Hnone].
    - apply walk_defined_with_arguments; [done | lia|].
      cbn [args_offset args_list]. rewrite length_replicate, length_drop. lia.
    - by apply walk_defined_without_arguments. }
  simpl in Hw. destruct res as [|r].
  - destruct (run_command_transcript commands' cmd c argv st1 Hc) as (final & out & -> & _).
    done.
  - simpl. congruence.
Qed.

(** ** Before the option table *)

Lemma find_command_from_spec i (commands : list cli_command) name :
  match find_command_from i commands name with
  | Some k =>
      (i <= k)%nat
      /\ (exists c, commands !! (k - i)%nat = Some c
                    /\ args_is name (c_name c) (c_short_name c) = true)
      /\ (forall j c', (j < k - i)%nat -> commands !! j = Some c' ->
            args_is name (c_name c') (c_short_name c') = false)
  | None =>
      Forall (fun c => args_is name (c_name c) (c_short_name c) = false) commands
  end.
Proof.
  revert i. induction commands as [|c commands IH]; intros i; simpl; [constructor|].
  destruct (args_is name (c_name c) (c_short_name c)) eqn:E.
  - split; [lia|]. rewrite Nat.sub_diag. split; [by exists c | intros j c' Hj; lia].
  - specialize (IH (S i)). destruct (find_command_from (S i) commands name) as [k|].
    + destruct IH as (Hle & (c1 & Hc1 & Hm) & Hfirst). split; [lia|].
      replace (k - i)%nat with (S (k - S i)) by lia. split; [by exists c1|].
      intros [|j] c' Hj Hl; simpl in Hl; [congruence|].
      apply (Hfirst j c'); [lia | done].
    + by constructor.
Qed.

(** X14. The command is the first one of the table, in table order, whose
    long or short name the first token matches; the flags of the commands
    play no part.  When there is no token, or it is ill formed, or no
    command matches it, args_parse runs no hook and no callback and leaves
    the table and the world alone: it rejects the input with FAILURE and a
    usage hint, unless the token is a help token, for which it prints the
    global help, over the table as the hooks have not yet touched it, and
    returns SUCCESS. *)
Theorem command_resolution a (commands : list cli_command) argv st :
  (forall cmd, find_command commands (token argv 1) = Some cmd ->
     exists c, commands !! cmd = Some c
               /\ args_is (token argv 1) (c_name c) (c_short_name c) = true
               /\ forall j c', (j < cmd)%nat -> commands !! j = Some c' ->
                    args_is (token argv 1) (c_name c') (c_short_name c') = false)
  /\ ((length argv < 2)%nat
      \/ args_is_unrecognized (token argv 1) = true
      \/ (find_command commands (token argv 1) = None /\ is_help (token argv 1) = false) ->
      exists m,
        args_parse sed_cli nvme_error e a commands argv st
        = (Returned FAILURE, commands, usage_error e a m st)
        /\ only_prints e st (usage_error e a m st)
             [(Stderr, m);
              (Stdout, Msg "Try `%s --help' for more information.\n" [AStr (app_name a)])])
  /\ ((2 <= length argv)%nat ->
      args_is_unrecognized (token argv 1) = false ->
      find_command commands (token argv 1) = None ->
      is_help (token argv 1) = true ->
      args_parse sed_cli nvme_error e a commands argv st
      = (Returned SUCCESS, commands, sedcli_printf_all e LOG_INFO (print_help a commands) st)
      /\ only_prints e st (sedcli_printf_all e LOG_INFO (print_help a commands) st)
           ((fun m => (Stdout, m)) <$> print_help a commands)).
Proof.
  split; [|split].
  - intros cmd Hf. pose proof (find_command_from_spec 0 commands (token argv 1)) as Hs.
    unfold find_command in Hf. rewrite Hf, Nat.sub_0_r in Hs.
    destruct Hs as (_ & (c & Hc & Hm) & Hfirst). by exists c.
  - intros Hcase. unfold args_parse.
    destruct (Nat.ltb_spec (length argv) 2) as [Hlt|Hge].
    { eexists. split; [reflexivity | apply only_prints_usage_error]. }
    destruct (args_is_unrecognized (token argv 1)) eqn:Hu.
    { eexists. split; [reflexivity | apply only_prints_usage_error]. }
    destruct Hcase as [? | [? | [Hf Hh]]]; [lia | discriminate|].
    rewrite Hf, Hh. eexists. split; [reflexivity | apply only_prints_usage_error].
  - intros Hlen Hu Hf Hh. unfold args_parse.
    replace (length argv <? 2)%nat with false by (symmetry; apply Nat.ltb_ge; lia).
    rewrite Hu, Hf, Hh. split; [reflexivity | apply only_prints_info_all].
Qed.

(** X16. A command that requires elevated privilege is refused to a caller
    who is not root: once the hooks have run and no help is asked for,
    args_parse returns FAILURE with "Must be run as root" and no usage
    hint, before any look at the options; no parse callback and no
    [handle] runs. *)
Theorem privilege_required a (commands commands' : list cli_command) argv st st' cmd :
  resolves commands argv cmd ->
  configure_cli_commands commands st = (commands', st') ->
  no_help argv ->
  is_su_required commands' cmd = true ->
  uid e <> 0 ->
  args_parse sed_cli nvme_error e a commands argv st
  = (Returned FAILURE, commands',
     sedcli_printf e LOG_ERR (Msg "sedcli: Must be run as root.\n" []) st')
  /\ only_prints e st'
       (sedcli_printf e LOG_ERR (Msg "sedcli: Must be run as root.\n" []) st')
       [(Stderr, Msg "sedcli: Must be run as root.\n" [])].
Proof.
  intros Hr Hconf Hh Hsu Huid.
  destruct (resolved_lookup _ _ _ _ _ _ Hr Hconf) as [c Hc].
  destruct Hr as (Hlen & Hrec & Hfind). split; [|apply (only_prints_printf LOG_ERR)].
  unfold args_parse.
  replace (length argv <? 2)%nat with false by (symmetry; apply Nat.ltb_ge; lia).
  rewrite Hrec, Hfind, Hconf. unfold dispatch. rewrite Hc.
  unfold no_help in Hh. rewrite Hh, Z.eqb_refl, andb_false_r, Hsu.
  destruct (Z.eqb_spec (uid e) 0); [done | reflexivity].
Qed.


(** ** Help pages *)

Lemma print_help_lines_visible (commands : list cli_command) :
  flat_map print_help_command_line commands
  = flat_map print_help_command_line (List.filter command_visible commands).
Proof.
  induction commands as [|c rest IH]; [reflexivity|].
  cbn [flat_map List.filter]. unfold command_visible at 1.
  destruct (has_flag (c_flags c) CLI_COMMAND_HIDDEN) eqn:Hh; cbn [negb].
  - unfold print_help_command_line at 1. by rewrite Hh.
  - cbn [flat_map]. by rewrite IH.
Qed.

Lemma print_help_line_count (commands : list cli_command) :
  Forall (fun c => command_visible c = true) commands ->
  length (flat_map print_help_command_line commands) = length commands.
Proof.
  induction 1 as [|c rest Hv _ IH]; [reflexivity|].
  cbn [flat_map]. rewrite length_app, IH. unfold command_visible in Hv.
  unfold print_help_command_line.
  destruct (has_flag (c_flags c) CLI_COMMAND_HIDDEN); [discriminate|].
  by destruct (Ascii.eqb NUL _).
Qed.

(** X15. The global help has one line for every command that is not
    hidden, in table order, and none for a hidden one: any hidden command
    behind the first can be dropped from the table without changing the
    page.  The first command is different: the example at the foot of the
    page names it whether it is hidden or not. *)
Theorem print_help_hidden_commands a (c : cli_command) (rest : list cli_command) :
  print_help a (c :: rest) = print_help a (c :: List.filter command_visible rest)
  /\ length (print_help a (c :: rest))
     = (6 + length (List.filter command_visible (c :: rest)))%nat
  /\ Msg ("\nSee 'sedcli <command> --help' for more information on a specific command.\n"
          ++ "e.g.\n%s%s --%s --help\n")
       [AStr PADDING; AStr (app_name a); AStr (c_name c)] ∈ print_help a (c :: rest).
Proof.
  split; [|split].
  - unfold print_help. cbn [flat_map]. by rewrite (print_help_lines_visible rest).
  - unfold print_help. rewrite (print_help_lines_visible (c :: rest)).
    rewrite !length_app, print_help_line_count.
    + cbn [length print_short_usage]. lia.
    + apply List.Forall_forall. intros c' Hc'. by apply List.filter_In in Hc' as [_ ?].
  - unfold print_help. rewrite !elem_of_app. do 4 right. left. apply list_elem_of_here.
Qed.

Lemma print_options_help_visible options :
  print_options_help options = print_options_help (List.filter option_visible options).
Proof.
  unfold print_options_help.
  induction options as [|o rest IH]; [reflexivity|].
  cbn [flat_map List.filter]. unfold option_visible at 1.
  destruct (has_flag (o_flags o) CLI_OPTION_HIDDEN) eqn:Hh; cbn [negb].
  - unfold print_options_help_line at 1. by rewrite Hh.
  - cbn [flat_map]. by rewrite IH.
Qed.

Lemma usage_of_option_visible options :
  flat_map usage_of_option options
  = flat_map usage_of_option (List.filter option_visible options).
Proof.
  induction options as [|o rest IH]; [reflexivity|].
  cbn [flat_map List.filter]. unfold option_visible at 1.
  destruct (has_flag (o_flags o) CLI_OPTION_HIDDEN) eqn:Hh; cbn [negb].
  - unfold usage_of_option at 1. by rewrite Hh.
  - cbn [flat_map]. by rewrite IH.
Qed.

Lemma all_mandatory_visible options :
  all_mandatory options = all_mandatory (List.filter option_visible options).
Proof.
  unfold all_mandatory.
  induction options as [|o rest IH]; [reflexivity|].
  cbn [forallb List.filter]. unfold option_visible at 1.
  destruct (has_flag (o_flags o) CLI_OPTION_HIDDEN) eqn:Hh; cbn [negb orb andb].
  - exact IH.
  - cbn [forallb]. by rewrite Hh, IH.
Qed.

Lemma all_hidden_visible options :
  all_hidden options = all_hidden (List.filter option_visible options).
Proof.
  unfold all_hidden.
  induction options as [|o rest IH]; [reflexivity|].
  cbn [forallb List.filter]. unfold option_visible at 1.
  destruct (has_flag (o_flags o) CLI_OPTION_HIDDEN) eqn:Hh; cbn [negb orb andb].
  - exact IH.
  - cbn [forallb]. by rewrite Hh.
Qed.

(** X20. Hidden options leave no trace in the help page of a command:
    the page print_command_help renders for a command without a help hook
    and without a namespace is the page of the same command with the
    hidden options removed from its table.  When every option is hidden
    the page is the bare usage line and the header, with neither
    " [option...]" nor an options section. *)
Theorem hidden_options_not_in_help a i (c : cli_command) st :
  c_help c = None ->
  c_namespace c = None ->
  print_command_help e a i c st
  = print_command_help e a i
      (set_options c (List.filter option_visible <$> c_options c)) st
  /\ (forall options,
        c_options c = Some options ->
        Forall (fun o => has_flag (o_flags o) CLI_OPTION_HIDDEN = true) options ->
        print_command_help e a i c st
        = sedcli_printf_all e LOG_INFO
            ([Msg "Usage: %s --%s" [AStr (app_name a); AStr (c_name c)]; Msg "\n\n" []]
             ++ print_command_header c) st).
Proof.
  intros Hh Hn. split.
  - unfold print_command_help. cbn [set_options c_help c_namespace]. rewrite Hh, Hn.
    f_equal. unfold print_command_usage. cbn [set_options c_options c_name c_short_name].
    change (print_command_header (set_options c _)) with (print_command_header c).
    destruct (c_options c) as [options|]; cbn [fmap option_fmap option_map]; [|reflexivity].
    by rewrite <- usage_of_option_visible, <- all_mandatory_visible,
      <- all_hidden_visible, <- print_options_help_visible.
  - intros options Ho Hall. unfold print_command_help. rewrite Hh, Hn. f_equal.
    unfold print_command_usage. rewrite Ho.
    assert (Hm : all_mandatory options = true).
    { unfold all_mandatory. apply forallb_forall. intros o Hin.
      rewrite List.Forall_forall in Hall. by rewrite (Hall o Hin). }
    assert (Hhid : all_hidden options = true).
    { unfold all_hidden. apply forallb_forall. intros o Hin.
      rewrite List.Forall_forall in Hall. by rewrite (Hall o Hin). }
    rewrite Hm, Hhid.
    assert (Hu : flat_map usage_of_option options = []).
    { clear -Hall. induction Hall as [|o rest Ho _ IH]; [reflexivity|].
      cbn [flat_map]. unfold usage_of_option at 1. by rewrite Ho, IH. }
    by rewrite Hu.
Qed.

(** ** The exported renderers *)

Lemma print_options_usage_from_separated options separator view flag :
  print_options_usage_from true options separator view flag
  = flat_map (fun o => Msg "%s" [AStr separator] :: option_usage_item o)
      (List.filter (fun o => negb (view o flag =? 0)) options).
Proof.
  induction options as [|o rest IH]; [reflexivity|].
  cbn [print_options_usage_from List.filter].
  destruct (view o flag =? 0); cbn [negb]; [exact IH|].
  cbn [flat_map]. rewrite IH. reflexivity.
Qed.

(** X22. print_options_usage prints the options that [view] accepts, in
    table order, each as "--name" followed by " <arg>" when the option
    names an argument, with the separator between two of them and neither
    before the first nor after the last.  It prints nothing for a null
    table and nothing when [view] accepts no option. *)
Theorem print_options_usage_separates (table : option (list cli_option)) separator
    (view : cli_option -> Z -> Z) flag :
  print_options_usage table separator view flag
  = match table with
    | None => []
    | Some options =>
        match List.filter (fun o => negb (view o flag =? 0)) options with
        | [] => []
        | o :: shown =>
            (option_usage_item o
             ++ flat_map (fun o' => Msg "%s" [AStr separator] :: option_usage_item o') shown)%list
        end
    end.
Proof.
  destruct table as [options|]; [|reflexivity]. unfold print_options_usage.
  induction options as [|o rest IH]; [reflexivity|].
  cbn [print_options_usage_from List.filter].
  destruct (view o flag =? 0); cbn [negb]; [exact IH|].
  rewrite print_options_usage_from_separated. unfold option_usage_item.
  by destruct (o_arg o).
Qed.

Lemma print_list_options_shown options flag (view : cli_option -> Z -> Z) :
  print_list_options options flag view
  = map print_list_options_line
      (List.filter (fun o => negb (view o flag =? 0)) options).
Proof.
  induction options as [|o rest IH]; [reflexivity|].
  cbn [print_list_options List.filter].
  destruct (view o flag =? 0); cbn [negb map]; by rewrite IH.
Qed.

(** X21. print_list_options is print_options_help with the filter made a
    parameter: under the view that leaves out the options flagged
    CLI_OPTION_HIDDEN it prints a line for the same options, in the same
    order and with the same four columns, and only the widths of the
    format differ.  Under any view it prints one line for each option the
    view accepts. *)
Theorem print_list_options_columns options flag (view : cli_option -> Z -> Z) :
  length (print_list_options options flag view)
  = length (List.filter (fun o => negb (view o flag =? 0)) options)
  /\ map msg_args (print_list_options options CLI_OPTION_HIDDEN without_flag)
     = map msg_args (print_options_help options).
Proof.
  split.
  - by rewrite print_list_options_shown, length_map.
  - unfold print_options_help.
    induction options as [|o rest IH]; [reflexivity|].
    cbn [print_list_options flat_map]. unfold without_flag at 1.
    unfold print_options_help_line at 1.
    destruct (has_flag (o_flags o) CLI_OPTION_HIDDEN); [exact IH|].
    change (1 =? 0) with false. cbv iota.
    rewrite map_app. cbn [map]. rewrite IH. f_equal.
    unfold print_list_options_line. by destruct (o_arg o).
Qed.

(** ** Counting the arguments of an option *)

(** X23. count_arg_params answers the length of the longest run of
    tokens at the front of the list none of which is a dash followed by at
    least one more byte: it is the one number n, not beyond the end of the
    list, such that none of the first n tokens has that form and the list
    ends after them or goes on with a token of that form.  A lone "-" and
    the empty token are counted as arguments; a negative number such as
    "-5" is not. *)
Theorem count_arg_params_longest_run (rest : list string) (n : nat) :
  (count_arg_params rest = n
   <-> (n <= length rest)%nat
       /\ Forall (fun t => ends_arguments t = false) (take n rest)
       /\ list_ends_here (drop n rest))
  /\ count_arg_params ("-" :: "" :: "-5" :: rest) = 2%nat.
Proof.
  split; [|reflexivity]. split.
  - intros <-. split; [apply count_arg_params_le|].
    split; [apply count_arg_params_take | apply count_arg_params_drop].
  - revert n. induction rest as [|t rest IH]; intros n (Hle & Hrun & Hend).
    + simpl in Hle. by replace n with 0%nat by lia.
    + cbn [count_arg_params]. destruct n as [|n].
      * cbn [drop list_ends_here] in Hend. by rewrite Hend.
      * cbn [take] in Hrun. apply Forall_cons in Hrun as [Ht Hrun]. rewrite Ht.
        f_equal. apply IH. simpl in Hle. split; [lia|]. by split.
Qed.

(** ** Failures past the cardinality pass *)

(** X24. When [malloc] gives no buffer for the argument lists, args_parse
    fails in silence: on input that passes the cardinality checks it
    returns FAILURE without a message on either stream, without a line in
    the log file and without invoking a parse callback or [handle]; the
    state is the one the configure hooks left. *)
Theorem malloc_failure_is_silent a commands argv st commands' st' cmd (c : cli_command)
    entry options first_opt :
  reaches_table e commands argv st commands' st' cmd c entry options first_opt ->
  validate options (drop first_opt argv) = None ->
  can_malloc e = false ->
  args_parse sed_cli nvme_error e a commands argv st = (Returned FAILURE, commands', st').
Proof.
  intros Hr Hv Hm.
  rewrite (args_parse_reaches sed_cli nvme_error e a _ _ _ _ _ _ _ _ _ _ Hr).
  unfold parse_options. by rewrite Hv, Hm.
Qed.

Lemma invoke_parse_unavailable cmd (c : cli_command) entry o view st :
  c_options_parse c = None ->
  c_namespace_opts_parse c = None \/ entry = None ->
  invoke_parse cmd c entry o view st = None.
Proof.
  intros Hp Hn. unfold invoke_parse. rewrite Hp.
  destruct Hn as [-> | ->]; [reflexivity | by destruct (c_namespace_opts_parse c)].
Qed.

(** X25. A command that offers no parse callback takes no option.  When
    the command has no [options_parse] and either no
    [namespace_opts_parse] or no namespace entry, any token behind the
    command (and the namespace selection) makes args_parse return FAILURE:
    it prints at most a diagnostic and a usage hint, and [handle] is never
    invoked. *)
Theorem options_need_parse_callback a commands argv st commands' st' cmd (c : cli_command)
    entry options first_opt :
  reaches_table e commands argv st commands' st' cmd c entry options first_opt ->
  c_options_parse c = None ->
  c_namespace_opts_parse c = None \/ entry = None ->
  (first_opt < length argv)%nat ->
  exists out,
    fst (args_parse sed_cli nvme_error e a commands argv st) = (Returned FAILURE, commands')
    /\ only_prints e st' (snd (args_parse sed_cli nvme_error e a commands argv st)) out
    /\ (length out <= 2)%nat.
Proof.
  intros Hr Hp Hn Hlen.
  rewrite (args_parse_reaches sed_cli nvme_error e a _ _ _ _ _ _ _ _ _ _ Hr).
  unfold parse_options.
  destruct (validate options (drop first_opt argv)) as [m|].
  { eexists. split; [reflexivity|]. split; [apply (only_prints_usage_error a m st')|].
    simpl. lia. }
  destruct (negb (can_malloc e)).
  { exists []. split; [reflexivity|]. split; [apply only_prints_refl | simpl; lia]. }
  assert (Hroom : (length (drop first_opt argv) <= length argv)%nat)
    by (rewrite length_drop; lia).
  destruct (drop first_opt argv) as [|tok rest] eqn:Hregion.
  { apply (f_equal length) in Hregion. rewrite length_drop in Hregion. simpl in Hregion. lia. }
  cbn [walk]. unfold fail_with.
  destruct (args_is_unrecognized tok).
  { eexists. split; [reflexivity|]. split; [apply (only_prints_usage_error a _ st')|].
    simpl. lia. }
  destruct (get_option options tok) as [opt|] eqn:Hg.
  2: { eexists. split; [reflexivity|]. split; [apply (only_prints_usage_error a _ st')|].
       simpl. lia. }
  destruct (get_option_lookup _ _ _ Hg) as [o Ho]. rewrite Ho.
  pose proof (count_arg_params_le rest) as Hcount. simpl in Hroom.
  unfold take_params. cbn [args_offset args_list].
  destruct (o_arg o) as [label|].
  - destruct (invalid_arity o (count_arg_params rest)).
    { eexists. split; [reflexivity|]. split; [apply (only_prints_usage_error a _ st')|].
      simpl. lia. }
    rewrite length_replicate.
    replace (0 + count_arg_params rest <? length argv + 1)%nat with true
      by (symmetry; apply Nat.ltb_lt; lia).
    rewrite (invoke_parse_unavailable _ _ _ _ _ _ Hp Hn).
    eexists. split; [reflexivity|]. split; [apply (only_prints_printf LOG_ERR)|].
    simpl. lia.
  - rewrite (invoke_parse_unavailable _ _ _ _ _ _ Hp Hn).
    eexists. split; [reflexivity|]. split; [apply (only_prints_printf LOG_ERR)|].
    simpl. lia.
Qed.

(** ** Straight to the handler *)

(** X26. A command with neither an option table nor a namespace takes
    whatever follows it: when no token asks for help and the privilege
    check passes, args_parse looks at no further token, neither at its
    format nor at its name, invokes [handle] and returns its status. *)
Theorem bare_command_ignores_tokens a commands argv st commands' st' cmd
    (c : cli_command) :
  resolves commands argv cmd ->
  configure_cli_commands commands st = (commands', st') ->
  commands' !! cmd = Some c ->
  no_help argv ->
  privileged e commands' cmd ->
  c_options c = None ->
  c_namespace c = None ->
  exists final out,
    args_parse sed_cli nvme_error e a commands argv st
    = (Returned (fst (c_handle c (world st'))), commands', final)
    /\ world final = snd (c_handle c (world st'))
    /\ transcript e st' final out [CallHandle cmd].
Proof.
  intros (Hlen & Hrec & Hfind) Hconf Hc Hh Hp Ho Hn.
  destruct (run_command_transcript commands' cmd c argv st' Hc)
    as (final & out & Hrun & Hw & Ht & _).
  exists final, out. split; [|by split].
  unfold args_parse.
  replace (length argv <? 2)%nat with false by (symmetry; apply Nat.ltb_ge; lia).
  rewrite Hrec, Hfind, Hconf. unfold dispatch. rewrite Hc.
  unfold no_help in Hh. rewrite Hh, Z.eqb_refl, andb_false_r.
  replace (is_su_required commands' cmd && negb (uid e =? 0)) with false.
  2: { destruct Hp as [-> | ->]; [reflexivity | by rewrite andb_false_r]. }
  by rewrite Ho, Hn, Hrun.
Qed.

(** X27. With no token behind the command (and the namespace selection),
    an option table in which no option is required lets the run through:
    when [malloc] succeeds, args_parse invokes no parse callback, invokes
    [handle] and returns its status. *)
Theorem no_options_given a commands argv st commands' st' cmd (c : cli_command)
    entry options first_opt :
  reaches_table e commands argv st commands' st' cmd c entry options first_opt ->
  (length argv <= first_opt)%nat ->
  Forall (fun o => has_flag (o_flags o) CLI_OPTION_REQUIRED = false
                   /\ 0 <= o_args_count o) options ->
  can_malloc e = true ->
  exists final out,
    args_parse sed_cli nvme_error e a commands argv st
    = (Returned (fst (c_handle c (world st'))), commands', final)
    /\ world final = snd (c_handle c (world st'))
    /\ transcript e st' final out [CallHandle cmd].
Proof.
  intros Hr Hlen Hall Hm.
  pose proof Hr as (_ & _ & Hc & _).
  destruct (run_command_transcript commands' cmd c argv st' Hc)
    as (final & out & Hrun & Hw & Ht & _).
  exists final, out. split; [|by split].
  rewrite (args_parse_reaches sed_cli nvme_error e a _ _ _ _ _ _ _ _ _ _ Hr).
  unfold parse_options. rewrite (drop_ge argv first_opt) by lia.
  assert (Hv : validate options [] = None).
  { apply validate_None. eapply Forall_impl; [exact Hall|].
    intros o [Hreq Hcount]. unfold check_cardinality. cbn [occurrences].
    rewrite Hreq. cbn [andb].
    destruct (Z.gtb_spec (Z.of_nat 0) (o_args_count o)); [lia|].
    by rewrite andb_false_r. }
  rewrite Hv, Hm. cbn [negb walk]. by rewrite Hrun.
Qed.

(** ** A table of flags *)

Lemma walk_flags a cmd (c : cli_command) entry options tokens w st parse :
  c_options_parse c = Some parse ->
  (forall name view wd, fst (parse name view wd) = 0) ->
  Forall (fun o => o_arg o = None) options ->
  Forall (fun tok => args_is_unrecognized tok = false /\ get_option options tok <> None)
    tokens ->
  args_count w = O ->
  exists st1,
    walk e a cmd c entry options tokens 0 w st = (WalkDone, st1)
    /\ console st1 = console st
    /\ logfile st1 = logfile st
    /\ calls st1
       = (calls st
          ++ map (fun tok => CallOptionsParse cmd (matched_name options tok)
                               (drop (args_offset w) (args_list w))) tokens)%list.
Proof.
  intros Hp Hzero Hflags Htoks. revert w st.
  induction Htoks as [|tok rest [Hrec Hknown] _ IH]; intros w st Hcount.
  { exists st. cbn [walk map]. by rewrite app_nil_r. }
  cbn [walk map]. rewrite Hrec. unfold matched_name at 1.
  destruct (get_option options tok) as [opt|] eqn:Hg; [|done].
  destruct (get_option_lookup _ _ _ Hg) as [o Ho]. rewrite Ho.
  assert (Harg : o_arg o = None).
  { rewrite Forall_forall in Hflags. apply Hflags. by eapply list_elem_of_lookup_2. }
  unfold take_params. rewrite Harg. unfold invoke_parse. rewrite Hp.
  pose proof (Hzero (o_long_name o) (drop (args_offset w) (args_list w)) (world st)) as Hz.
  destruct (parse (o_long_name o) (drop (args_offset w) (args_list w)) (world st))
    as [status wd]. simpl in Hz. subst status. cbn [negb Z.eqb].
  rewrite Hcount, Nat.add_0_r.
  destruct (IH {| args_count := O; args_offset := args_offset w; args_list := args_list w |}
              (record_call (CallOptionsParse cmd (o_long_name o)
                              (drop (args_offset w) (args_list w))) (set_world wd st))
              eq_refl) as (st1 & Hwalk & Hcon & Hlog & Hcalls).
  exists st1. split; [exact Hwalk|]. split; [exact Hcon|]. split; [exact Hlog|].
  rewrite Hcalls. cbn [calls record_call set_world args_offset args_list].
  by rewrite <- app_assoc.
Qed.

(** X28. Over a table of options that take no argument, with a parse
    callback that accepts everything, a command line of known options is
    handed over token by token: [options_parse] is invoked once for each
    token, in the order of the command line, under the long name of the
    option whichever form was typed, and then [handle] is invoked and its
    status returned.  At every call the argument list is the buffer as
    [malloc] left it: nothing was stored there, not even the closing null
    pointer. *)
Theorem flag_options_in_order a commands argv st commands' st' cmd (c : cli_command)
    entry options first_opt parse :
  reaches_table e commands argv st commands' st' cmd c entry options first_opt ->
  c_options_parse c = Some parse ->
  (forall name view wd, fst (parse name view wd) = 0) ->
  Forall (fun o => o_arg o = None) options ->
  validate options (drop first_opt argv) = None ->
  can_malloc e = true ->
  Forall (fun tok => args_is_unrecognized tok = false /\ get_option options tok <> None)
    (drop first_opt argv) ->
  exists w final,
    args_parse sed_cli nvme_error e a commands argv st
    = (Returned (fst (c_handle c w)), commands', final)
    /\ calls final
       = (calls st'
          ++ map (fun tok => CallOptionsParse cmd (matched_name options tok)
                               (replicate (length argv + 1) Uninit))
               (drop first_opt argv)
          ++ [CallHandle cmd])%list.
Proof.
  intros Hr Hp Hzero Hflags Hv Hm Htoks.
  pose proof Hr as (_ & _ & Hc & _).
  rewrite (args_parse_reaches sed_cli nvme_error e a _ _ _ _ _ _ _ _ _ _ Hr).
  unfold parse_options. rewrite Hv, Hm. cbn [negb].
  destruct (walk_flags a cmd c entry options (drop first_opt argv)
              {| args_count := O; args_offset := O;
                 args_list := replicate (length argv + 1) Uninit |}
              st' parse Hp Hzero Hflags Htoks eq_refl)
    as (st1 & Hwalk & _ & _ & Hcalls).
  rewrite Hwalk.
  destruct (run_command_transcript commands' cmd c argv st1 Hc)
    as (final & out & Hrun & _ & (_ & Hfinal & _) & _).
  rewrite Hrun. exists (world st1), final. split; [reflexivity|].
  rewrite Hfinal, Hcalls. cbn [args_offset args_list drop]. by rewrite <- app_assoc.
Qed.

(** ** A table of options with arguments *)

Lemma walk_arguments a cmd (c : cli_command) entry options tokens skip w st parse :
  c_options_parse c = Some parse ->
  (forall name view wd, fst (parse name view wd) = 0) ->
  Forall (fun o => o_arg o <> None) options ->
  Forall (fun g => group_accepted options g = true) (option_groups tokens skip) ->
  (skip <= length tokens)%nat ->
  (args_offset w + (length tokens - skip) < length (args_list w))%nat ->
  exists st1 new,
    walk e a cmd c entry options tokens skip w st = (WalkDone, st1)
    /\ calls st1 = (calls st ++ new)%list
    /\ Forall2 (fun k g => parse_call_of cmd (matched_name options (fst g)) (snd g) k)
         new (option_groups tokens skip).
Proof.
  intros Hp Hzero Hall. revert skip w st.
  induction tokens as [|tok rest IH]; intros skip w st Hacc Hskip Hroom.
  { exists st, []. cbn [walk option_groups]. rewrite app_nil_r.
    split; [reflexivity|]. split; [reflexivity | constructor]. }
  destruct skip as [|skip].
  2: { cbn [walk option_groups] in *. apply IH; [done | simpl in Hskip; lia|].
       simpl in Hroom. lia. }
  cbn [option_groups] in Hacc |- *. apply Forall_cons in Hacc as [Hg Hrest].
  unfold group_accepted in Hg. cbn [fst snd] in Hg.
  apply andb_true_iff in Hg as [Hrec Hg]. apply negb_true_iff in Hrec.
  cbn [walk]. rewrite Hrec.
  assert (Hname : matched_name options tok
                  = match get_option options tok with
                    | Some opt => match options !! opt with
                                  | Some o => o_long_name o
                                  | None => EmptyString
                                  end
                    | None => EmptyString
                    end) by reflexivity.
  destruct (get_option options tok) as [opt|] eqn:Hopt; [|done].
  destruct (options !! opt) as [o|] eqn:Ho; [|done].
  apply negb_true_iff in Hg.
  pose proof (count_arg_params_le rest) as Hle.
  set (n := count_arg_params rest) in *.
  assert (Hn : length (take n rest) = n) by (rewrite length_take; lia).
  rewrite Hn in Hg.
  assert (Harg : o_arg o <> None).
  { rewrite Forall_forall in Hall. apply Hall. by eapply list_elem_of_lookup_2. }
  unfold take_params. fold n. destruct (o_arg o) as [label|]; [|done]. rewrite Hg.
  simpl in Hroom.
  destruct (Nat.ltb_spec (args_offset w + n) (length (args_list w))); [|lia].
  cbn [args_offset args_list args_count].
  unfold invoke_parse. rewrite Hp.
  set (view := drop (args_offset w)
                 (<[(args_offset w + n)%nat := Null]>
                    (store_params (args_offset w) (take n rest) (args_list w)))).
  pose proof (Hzero (o_long_name o) view (world st)) as Hz.
  destruct (parse (o_long_name o) view (world st)) as [status wd].
  simpl in Hz. subst status. cbn [negb Z.eqb].
  destruct (IH n
              {| args_count := n; args_offset := (args_offset w + n)%nat;
                 args_list := <[(args_offset w + n)%nat := Null]>
                                (store_params (args_offset w) (take n rest) (args_list w)) |}
              (record_call (CallOptionsParse cmd (o_long_name o) view) (set_world wd st))
              Hrest Hle)
    as (st1 & new & Hwalk & Hcalls & Hshape).
  { cbn [args_offset args_list]. rewrite length_insert, length_store_params. lia. }
  exists st1, (CallOptionsParse cmd (o_long_name o) view :: new).
  split; [exact Hwalk|]. split.
  { rewrite Hcalls. cbn [calls record_call set_world]. by rewrite <- app_assoc. }
  constructor; [|exact Hshape]. cbn [fst snd]. rewrite Hname.
  exists view. split; [reflexivity|]. subst view.
  pose proof (stored_view (args_offset w) (take n rest) (args_list w)) as Hview.
  rewrite Hn in Hview |- *. apply Hview. lia.
Qed.

(** X29. Over a table of options that all take arguments, with a parse
    callback that accepts everything, a command line whose groups the walk
    has nothing to object to is handed over group by group:
    [options_parse] is invoked once for each option, in the order of the
    command line, under the long name of the option whichever form was
    typed and with the parameters of that option, and of no other, as a
    null-terminated list; then [handle] is invoked and its status
    returned. *)
Theorem options_with_arguments_in_order a commands argv st commands' st' cmd
    (c : cli_command) entry options first_opt parse :
  reaches_table e commands argv st commands' st' cmd c entry options first_opt ->
  c_options_parse c = Some parse ->
  (forall name view wd, fst (parse name view wd) = 0) ->
  Forall (fun o => o_arg o <> None) options ->
  validate options (drop first_opt argv) = None ->
  can_malloc e = true ->
  Forall (fun g => group_accepted options g = true)
    (option_groups (drop first_opt argv) 0) ->
  exists w final new,
    args_parse sed_cli nvme_error e a commands argv st
    = (Returned (fst (c_handle c w)), commands', final)
    /\ calls final = (calls st' ++ new ++ [CallHandle cmd])%list
    /\ Forall2 (fun k g => parse_call_of cmd (matched_name options (fst g)) (snd g) k)
         new (option_groups (drop first_opt argv) 0).
Proof.
  intros Hr Hp Hzero Hall Hv Hm Hgroups.
  pose proof Hr as (_ & _ & Hc & _).
  rewrite (args_parse_reaches sed_cli nvme_error e a _ _ _ _ _ _ _ _ _ _ Hr).
  unfold parse_options. rewrite Hv, Hm. cbn [negb].
  destruct (walk_arguments a cmd c entry options (drop first_opt argv) 0
              {| args_count := O; args_offset := O;
                 args_list := replicate (length argv + 1) Uninit |}
              st' parse Hp Hzero Hall Hgroups)
    as (st1 & new & Hwalk & Hcalls & Hshape).
  { lia. }
  { cbn [args_offset args_list]. rewrite length_replicate, length_drop. lia. }
  rewrite Hwalk.
  destruct (run_command_transcript commands' cmd c argv st1 Hc)
    as (final & out & Hrun & _ & (_ & Hfinal & _) & _).
  rewrite Hrun. exists (world st1), final, new. split; [reflexivity|].
  split; [|exact Hshape]. by rewrite Hfinal, Hcalls, <- app_assoc.
Qed.

End MoreFacts.

(** * Worked runs *)

#[local] Existing Instance demo_headers.

Ltac reach_flat :=
  unfold reaches_table, resolves, no_help, privileged;
  repeat match goal with |- _ /\ _ => split end;
  first [ by apply FlatTable | by left | reflexivity | simpl; lia ].

Lemma token_classification_witness :
  cstring "-x"
  /\ (args_is_unrecognized "-x" = false
      <-> short_option_form "-x" \/ long_option_form "-x").
Proof.
  assert (Hc : cstring "-x").
  { unfold cstring; simpl. repeat (constructor; [discriminate|]). constructor. }
  split; [exact Hc|]. exact (proj1 (token_classification "-x" Hc)).
Defined.

(** A required option is absent and, in front of everything, the region
    holds a token of invalid format and an unknown option: the cardinality
    error is the one reported. *)
Lemma cardinality_error_takes_precedence_witness :
  exists m,
    validate [opt_device; opt_pin] (drop 2 ["sedcli"; "--setup"; "-5"; "--bogus"; "x"])
    = Some m
    /\ cardinality_error m
    /\ demo_args_parse (demo_flat [opt_device; opt_pin])
         ["sedcli"; "--setup"; "-5"; "--bogus"; "x"]
       = (Returned FAILURE, demo_flat [opt_device; opt_pin],
          usage_error demo_env demo_app m demo_state)
    /\ calls (usage_error demo_env demo_app m demo_state) = calls demo_state.
Proof.
  apply (cardinality_error_takes_precedence demo_mode demo_nvme_error demo_env demo_app
           (demo_flat [opt_device; opt_pin]) ["sedcli"; "--setup"; "-5"; "--bogus"; "x"]
           demo_state (demo_flat [opt_device; opt_pin]) demo_state 0%nat
           (demo_command 0 (Some [opt_device; opt_pin]) None) None
           [opt_device; opt_pin] 2%nat opt_device).
  - reach_flat.
  - apply list_elem_of_here.
  - vm_compute. discriminate.
Defined.

Lemma required_option_absent_witness :
  demo_args_parse (demo_flat [opt_device; opt_pin]) ["sedcli"; "--setup"; "--pin"; "a"]
  = (Returned FAILURE, demo_flat [opt_device; opt_pin],
     usage_error demo_env demo_app
       (missing_required (command_name_with_slash MAX_STR_LEN "d" "device")) demo_state).
Proof.
  refine (proj1 (proj2 (required_option_absent demo_mode demo_nvme_error demo_env demo_app
           (demo_flat [opt_device; opt_pin]) ["sedcli"; "--setup"; "--pin"; "a"]
           demo_state (demo_flat [opt_device; opt_pin]) demo_state 0%nat
           (demo_command 0 (Some [opt_device; opt_pin]) None) None
           [] opt_device [opt_pin] 2%nat _ _ _)) _).
  - reach_flat.
  - reflexivity.
  - reflexivity.
  - constructor.
Defined.

(** C1 as stated fails.  [--device] is required and absent, yet the error
    reported is that of [--pin], which stands before it in the table and
    occurs twice; and a required option without a short name is named by
    its long form alone. *)
Lemma required_option_absent_counterexample :
  (opt_device ∈ [opt_pin; opt_device]
   /\ has_flag (o_flags opt_device) CLI_OPTION_REQUIRED = true
   /\ occurrences opt_device (drop 2 argv_pin_twice) = O
   /\ demo_args_parse (demo_flat [opt_pin; opt_device]) argv_pin_twice
      = (Returned FAILURE, demo_flat [opt_pin; opt_device],
         usage_error demo_env demo_app (supplied_too_many_times "-p/--pin") demo_state)
   /\ forall name,
        demo_args_parse (demo_flat [opt_pin; opt_device]) argv_pin_twice
        <> (Returned FAILURE, demo_flat [opt_pin; opt_device],
            usage_error demo_env demo_app (missing_required name) demo_state))
  /\ (has_flag (o_flags opt_key) CLI_OPTION_REQUIRED = true
      /\ occurrences opt_key (drop 2 ["sedcli"; "--setup"]) = O
      /\ demo_args_parse (demo_flat [opt_key]) ["sedcli"; "--setup"]
         = (Returned FAILURE, demo_flat [opt_key],
            usage_error demo_env demo_app (missing_required "--key") demo_state)).
Proof.
  split; [split; [|split; [|split; [|split]]] | split; [|split]]; try reflexivity.
  - apply list_elem_of_further, list_elem_of_here.
  - intros name E. vm_compute in E. discriminate.
Qed.

Lemma option_repeated_beyond_limit_witness :
  demo_args_parse (demo_flat [opt_pin; opt_device]) argv_pin_twice
  = (Returned FAILURE, demo_flat [opt_pin; opt_device],
     usage_error demo_env demo_app
       (supplied_too_many_times (command_name_with_slash MAX_STR_LEN "p" "pin"))
       demo_state).
Proof.
  refine (proj1 (proj2 (option_repeated_beyond_limit demo_mode demo_nvme_error demo_env
           demo_app (demo_flat [opt_pin; opt_device]) argv_pin_twice
           demo_state (demo_flat [opt_pin; opt_device]) demo_state 0%nat
           (demo_command 0 (Some [opt_pin; opt_device]) None) None
           [] opt_pin [opt_device] 2%nat _ _ _)) _ _).
  - reach_flat.
  - discriminate.
  - reflexivity.
  - constructor.
  - discriminate.
Defined.

(** C3 as stated fails.  [--pin] has the limit 1 and occurs twice, yet the
    error reported is that of the required [--device], which stands before
    it in the table and is absent. *)
Lemma option_repeated_beyond_limit_counterexample :
  opt_pin ∈ [opt_device; opt_pin]
  /\ o_args_count opt_pin = 1
  /\ occurrences opt_pin (drop 2 argv_pin_twice) = 2%nat
  /\ demo_args_parse (demo_flat [opt_device; opt_pin]) argv_pin_twice
     = (Returned FAILURE, demo_flat [opt_device; opt_pin],
        usage_error demo_env demo_app (missing_required "-d/--device") demo_state)
  /\ forall name,
       demo_args_parse (demo_flat [opt_device; opt_pin]) argv_pin_twice
       <> (Returned FAILURE, demo_flat [opt_device; opt_pin],
           usage_error demo_env demo_app (supplied_too_many_times name) demo_state).
Proof.
  split; [|split; [|split; [|split]]]; try reflexivity.
  - apply list_elem_of_further, list_elem_of_here.
  - intros name E. vm_compute in E. discriminate.
Qed.

Lemma arity_limit_witness :
  walk demo_env demo_app 0 (demo_command 0 (Some [opt_pin]) None) None [opt_pin]
    ["--pin"; "a"; "b"] O (demo_walker 6) demo_state
  = fail_with demo_env demo_app
      (Msg "sedcli: Invalid number of arguments for %s.\n" [AStr "--pin"]) demo_state.
Proof.
  refine (proj1 (proj1 (arity_limit demo_mode demo_nvme_error demo_env demo_app 0%nat
           (demo_command 0 (Some [opt_pin]) None) None [opt_pin] "--pin" 0%nat opt_pin
           ["a"; "b"] [] (demo_walker 6) demo_state 1%nat _ _ _ _ _ _ _ _) _)).
  - reflexivity.
  - reflexivity.
  - reflexivity.
  - discriminate.
  - reflexivity.
  - lia.
  - repeat constructor.
  - exact I.
  - reflexivity.
Defined.

(** C2 as stated fails.  Neither ["a"] nor ["-5"] classifies as an
    option and [--pin] takes at most one parameter, yet [--pin a -5] is no
    arity error: ["-5"] ends the count at one parameter, the callback
    receives ["a"], and the walk then rejects ["-5"] for its format.  And
    the required [--device], with its limit of one, is given exactly one
    such token in [--device -5]: the count is zero and the arity check
    fails. *)
Lemma arity_limit_counterexample :
  (o_arg opt_pin <> None
   /\ o_args_count opt_pin = 1
   /\ args_is_unrecognized "a" = true
   /\ args_is_unrecognized "-5" = true
   /\ count_arg_params ["a"; "-5"] = 1%nat
   /\ demo_args_parse (demo_flat [opt_pin]) ["sedcli"; "--setup"; "--pin"; "a"; "-5"]
      = (Returned FAILURE, demo_flat [opt_pin],
         usage_error demo_env demo_app (Msg "sedcli: Invalid format %s.\n" [AStr "-5"])
           (record_call
              (CallOptionsParse 0 "pin" [Ptr "a"; Null; Uninit; Uninit; Uninit; Uninit])
              demo_state))
   /\ forall st,
        demo_args_parse (demo_flat [opt_pin]) ["sedcli"; "--setup"; "--pin"; "a"; "-5"]
        <> (Returned FAILURE, demo_flat [opt_pin],
            usage_error demo_env demo_app
              (Msg "sedcli: Invalid number of arguments for %s.\n" [AStr "--pin"]) st))
  /\ (o_arg opt_device <> None
      /\ o_args_count opt_device = 1
      /\ args_is_unrecognized "-5" = true
      /\ count_arg_params ["-5"] = O
      /\ invalid_arity opt_device (count_arg_params ["-5"]) = true
      /\ demo_args_parse (demo_flat [opt_device]) ["sedcli"; "--setup"; "--device"; "-5"]
         = (Returned FAILURE, demo_flat [opt_device],
            usage_error demo_env demo_app
              (Msg "sedcli: Invalid number of arguments for %s.\n" [AStr "--device"])
              demo_state)).
Proof.
  split; [split; [|split; [|split; [|split; [|split; [|split]]]]]
         | split; [|split; [|split; [|split; [|split]]]]];
    try reflexivity; try discriminate.
  intros [w out log called] E.
  apply (f_equal (fun r => logfile (snd r))) in E. vm_compute in E.
  destruct log as [|m [|m' log]]; discriminate.
Qed.

Lemma help_short_circuits_witness :
  exists commands' final lines called,
    demo_args_parse (demo_flat [opt_device]) ["sedcli"; "--setup"; "--bogus"; "-H"]
    = (Returned SUCCESS, commands', final)
    /\ console final = (console demo_state ++ ((fun m => (Stdout, m)) <$> lines))%list
    /\ logfile final = logfile demo_state
    /\ calls final = (calls demo_state ++ called)%list
    /\ Forall configure_or_help called.
Proof.
  apply (help_short_circuits demo_mode demo_nvme_error demo_env demo_app
           (demo_flat [opt_device]) ["sedcli"; "--setup"; "--bogus"; "-H"] demo_state
           0%nat 3%nat "-H").
  - unfold resolves. repeat split; [simpl; lia].
  - lia.
  - reflexivity.
  - by right.
Defined.

Lemma option_arguments_witness :
  count_arg_params ["-"; "x"; "--verbose"] = 2%nat
  /\ take 3 (drop 0 [Ptr "-"; Ptr "x"; Null; Uninit; Uninit; Uninit])
     = ((Ptr <$> take 2 ["-"; "x"; "--verbose"]) ++ [Null])%list.
Proof.
  assert (Hc : Forall cstring ["-"; "x"; "--verbose"]).
  { repeat (constructor;
            [unfold cstring; simpl; repeat (constructor; [discriminate|]); constructor|]).
    constructor. }
  destruct (option_arguments demo_env demo_app 0%nat
              (demo_command 0 (Some [opt_files; opt_verbose]) None) None
              [opt_files; opt_verbose] "--files" 0%nat opt_files
              ["-"; "x"; "--verbose"] (demo_walker 6)
              {| args_count := 2; args_offset := 0;
                 args_list := [Ptr "-"; Ptr "x"; Null; Uninit; Uninit; Uninit] |}
              2%nat demo_state
              (record_call
                 (CallOptionsParse 0 "files"
                    [Ptr "-"; Ptr "x"; Null; Uninit; Uninit; Uninit])
                 demo_state))
    as (Hn & _ & _ & _ & Hview & _ & _ & _);
    [reflexivity | reflexivity | reflexivity | discriminate | exact Hc
    | reflexivity | reflexivity | ].
  split; [symmetry; exact Hn | exact Hview].
Defined.

(** C6 as stated fails.  ["-5"] is not classified as an option, yet it ends
    the argument list of [--files]: the callback receives an empty list and
    the walk then rejects ["-5"].  The bare dash is taken as a value, and
    it begins with a dash. *)
Lemma option_arguments_counterexample :
  (args_is_unrecognized "-5" = true
   /\ count_arg_params ["-5"] = O
   /\ demo_args_parse (demo_flat [opt_files]) ["sedcli"; "--setup"; "--files"; "-5"]
      = (Returned FAILURE, demo_flat [opt_files],
         usage_error demo_env demo_app (Msg "sedcli: Invalid format %s.\n" [AStr "-5"])
           (record_call
              (CallOptionsParse 0 "files" [Null; Uninit; Uninit; Uninit; Uninit])
              demo_state)))
  /\ (char_at "-" 0 = "-"%char
      /\ count_arg_params ["-"] = 1%nat
      /\ calls (snd (demo_args_parse (demo_flat [opt_files])
                       ["sedcli"; "--setup"; "--files"; "-"]))
         = [CallOptionsParse 0 "files" [Ptr "-"; Null; Uninit; Uninit; Uninit];
            CallHandle 0]).
Proof. repeat split; reflexivity. Qed.

Lemma hidden_command_dispatch_witness :
  exists final,
    demo_args_parse [demo_command 0 None (Some negative_hook)] ["sedcli"; "--setup"]
    = (Returned 0, [demo_command 2 None (Some negative_hook)], final)
    /\ calls final = [CallConfigure 0; CallHandle 0].
Proof.
  refine (proj1 (proj2 (proj2 (hidden_command_dispatch demo_mode demo_nvme_error demo_env
           demo_app [demo_command 0 None (Some negative_hook)] ["sedcli"; "--setup"]
           demo_state 0%nat [demo_command 2 None (Some negative_hook)]
           (record_call (CallConfigure 0) demo_state)
           (demo_command 2 None (Some negative_hook)) _ _ _ _))) _ _ _ _).
  - unfold resolves. repeat split; [simpl; lia].
  - reflexivity.
  - reflexivity.
  - reflexivity.
  - reflexivity.
  - by left.
  - reflexivity.
  - reflexivity.
Defined.

(** C8 at [sedcli --setup -v -v].  [--verbose] is not required and leaves
    [args_count] at 0; it is supplied twice and nothing rejects it: the
    parse callback runs for each occurrence, [handle] runs, and args_parse
    returns its status. *)
Theorem repeated_option_accepted :
  has_flag (o_flags opt_verbose) CLI_OPTION_REQUIRED = false
  /\ o_args_count opt_verbose = 0
  /\ occurrences opt_verbose (drop 2 ["sedcli"; "--setup"; "-v"; "-v"]) = 2%nat
  /\ validate [opt_verbose] (drop 2 ["sedcli"; "--setup"; "-v"; "-v"]) = None
  /\ fst (fst (demo_args_parse (demo_flat [opt_verbose]) ["sedcli"; "--setup"; "-v"; "-v"]))
     = Returned 0
  /\ calls (snd (demo_args_parse (demo_flat [opt_verbose])
                   ["sedcli"; "--setup"; "-v"; "-v"]))
     = [CallOptionsParse 0 "verbose" [Uninit; Uninit; Uninit; Uninit; Uninit];
        CallOptionsParse 0 "verbose" [Uninit; Uninit; Uninit; Uninit; Uninit];
        CallHandle 0].
Proof. repeat split; reflexivity. Qed.

(** C9 at [sedcli --setup], a command without options whose short name is
    not [V].  The run reaches run_command and [handle]; every step of the
    log writer would succeed; yet the log file is as empty as before,
    because the audit line is sent at [LOG_DEBUG], above [MAX_LOG_LEVEL]. *)
Theorem audit_line_not_written :
  LOG_DEBUG > MAX_LOG_LEVEL
  /\ c_short_name (demo_command 0 None None) <> "V"%char
  /\ demo_args_parse [demo_command 0 None None] ["sedcli"; "--setup"]
     = (Returned 0, [demo_command 0 None None],
        {| world := tt;
           console := [(Stdout, Msg "status: 0x%02x %s\n" [AInt 0; AStr "SUCCESS"])];
           logfile := [];
           calls := [CallHandle 0] |}).
Proof. repeat split; try reflexivity. discriminate. Qed.

(** A rejection at parse time never reaches run_command, so [log_command]
    is not called; the error message itself goes to the log file, at
    [LOG_ERR], through [std_printf]. *)
Lemma rejection_logged_example :
  demo_args_parse (demo_flat [opt_device]) ["sedcli"; "--unknowncmd"]
  = (Returned FAILURE, demo_flat [opt_device],
     {| world := tt;
        console :=
          [(Stderr, Msg "sedcli: Unrecognized command %s.\n" [AStr "--unknowncmd"]);
           (Stdout, Msg "Try `%s --help' for more information.\n" [AStr "sedcli"])];
        logfile := [Msg "sedcli: Unrecognized command %s.\n" [AStr "--unknowncmd"]];
        calls := [] |}).
Proof. reflexivity. Qed.

(** An option without an argument label leaves [args_count] as the last
    option with parameters set it, and [args_offset] still advances by it.
    After [--files a b c] three bare [-v] push the offset to 12, and the
    parameter of the next [--files] would be stored past the 12 slots of
    the buffer. *)
Lemma stale_args_count_example :
  fst (fst (demo_args_parse (demo_flat [opt_files; opt_verbose])
              ["sedcli"; "--setup"; "--files"; "a"; "b"; "c"; "-v"; "-v"; "-v";
               "--files"; "d"]))
  = Undefined.
Proof. reflexivity. Qed.

(** ** Runs of the further properties *)

Ltac cstring_literal :=
  unfold cstring; simpl; repeat (constructor; [discriminate|]); constructor.

Lemma args_is_exact_witness :
  args_is "--pin" "pin" "p" = true
  <-> ("p"%char <> NUL /\ "--pin"%string = String "-" (String "p" EmptyString))
      \/ "--pin"%string = ("--" ++ "pin")%string.
Proof.
  apply (args_is_exact "--pin" "pin" "p"); [cstring_literal | cstring_literal | simpl; lia].
Defined.

Lemma pseudo_options_exact_witness :
  (is_help "--help" = true <-> "--help"%string = "-H"%string \/ "--help"%string = "--help"%string)
  /\ (is_version "--help" = true
      <-> "--help"%string = "-V"%string \/ "--help"%string = "--version"%string).
Proof.
  apply (pseudo_options_exact "--help"); [cstring_literal | simpl; lia].
Defined.

Lemma documented_forms_match_witness :
  (get_option [opt_device; opt_pin] ("--" ++ o_long_name opt_pin)%string <> None
   /\ (is_letter (char_at (o_long_name opt_pin) 0) = true ->
       args_is_unrecognized ("--" ++ o_long_name opt_pin)%string = false))
  /\ (o_short_name opt_pin <> NUL ->
      get_option [opt_device; opt_pin] (String "-" (String (o_short_name opt_pin) EmptyString))
      <> None
      /\ (is_letter (o_short_name opt_pin) = true ->
          args_is_unrecognized (String "-" (String (o_short_name opt_pin) EmptyString))
          = false)).
Proof.
  apply (documented_forms_match [opt_device; opt_pin] opt_pin).
  apply list_elem_of_further, list_elem_of_here.
Defined.

Lemma log_command_rebuilds_witness :
  log_command_loop demo_env ["sedcli"; "--setup"; "--pin"; "a"] 0 100 EmptyString
  = Some (join_tokens (truncated <$> ["sedcli"; "--setup"; "--pin"; "a"]))
  /\ (Forall (fun tok => (String.length tok <= MAX_STR_LEN)%nat)
        ["sedcli"; "--setup"; "--pin"; "a"] ->
      log_command_loop demo_env ["sedcli"; "--setup"; "--pin"; "a"] 0 100 EmptyString
      = Some (join_tokens ["sedcli"; "--setup"; "--pin"; "a"])).
Proof.
  apply (log_command_rebuilds demo_env ["sedcli"; "--setup"; "--pin"; "a"]);
    [discriminate | reflexivity].
Defined.

Lemma run_command_effect_witness :
  exists final out,
    run_command demo_mode demo_nvme_error demo_env (demo_flat [opt_pin]) 0
      ["sedcli"; "--setup"] demo_state
    = Some (fst (c_handle (demo_command 0 (Some [opt_pin]) None) (world demo_state)), final)
    /\ world final = snd (c_handle (demo_command 0 (Some [opt_pin]) None) (world demo_state))
    /\ transcript demo_env demo_state final out [CallHandle 0]
    /\ (length out <= 2)%nat
    /\ (c_short_name (demo_command 0 (Some [opt_pin]) None) = "V"%char ->
        is_version (token ["sedcli"; "--setup"] 1) = true -> out = []).
Proof.
  apply (run_command_effect demo_mode demo_nvme_error demo_env (demo_flat [opt_pin]) 0%nat
           (demo_command 0 (Some [opt_pin]) None) ["sedcli"; "--setup"] demo_state).
  reflexivity.
Defined.

Lemma configure_cli_commands_effect_witness :
  length [demo_command 2 None (Some negative_hook)]
  = length [demo_command 0 None (Some negative_hook)]
  /\ console (record_call (CallConfigure 0) demo_state) = console demo_state
  /\ logfile (record_call (CallConfigure 0) demo_state) = logfile demo_state
  /\ calls (record_call (CallConfigure 0) demo_state)
     = (calls demo_state
        ++ configure_calls_from 0 [demo_command 0 None (Some negative_hook)])%list
  /\ Forall2 (fun c c' =>
                (c' = c \/ c' = set_flags c (Z.lor (c_flags c) CLI_COMMAND_HIDDEN))
                /\ (c_configure c = None -> c' = c))
       [demo_command 0 None (Some negative_hook)]
       [demo_command 2 None (Some negative_hook)].
Proof.
  apply (configure_cli_commands_effect demo_env [demo_command 0 None (Some negative_hook)]
           [demo_command 2 None (Some negative_hook)] demo_state
           (record_call (CallConfigure 0) demo_state)).
  reflexivity.
Defined.

Lemma privilege_required_witness :
  args_parse demo_mode demo_nvme_error demo_user_env demo_app
    [demo_command 1 (Some [opt_pin]) None] ["sedcli"; "--setup"; "--pin"; "a"] demo_state
  = (Returned FAILURE, [demo_command 1 (Some [opt_pin]) None],
     sedcli_printf demo_user_env LOG_ERR (Msg "sedcli: Must be run as root.\n" [])
       demo_state)
  /\ only_prints demo_user_env demo_state
       (sedcli_printf demo_user_env LOG_ERR (Msg "sedcli: Must be run as root.\n" [])
          demo_state)
       [(Stderr, Msg "sedcli: Must be run as root.\n" [])].
Proof.
  apply (privilege_required demo_mode demo_nvme_error demo_user_env demo_app
           [demo_command 1 (Some [opt_pin]) None] [demo_command 1 (Some [opt_pin]) None]
           ["sedcli"; "--setup"; "--pin"; "a"] demo_state demo_state 0%nat).
  - unfold resolves. repeat split; [simpl; lia | reflexivity..].
  - reflexivity.
  - reflexivity.
  - reflexivity.
  - simpl. lia.
Defined.


Lemma argument_buffer_suffices_witness :
  fst (fst (demo_args_parse (demo_flat [opt_device; opt_pin])
              ["sedcli"; "--setup"; "--device"; "x"; "--pin"; "a"]))
  <> Undefined.
Proof.
  apply (argument_buffer_suffices demo_mode demo_nvme_error demo_env demo_app
           (demo_flat [opt_device; opt_pin])
           ["sedcli"; "--setup"; "--device"; "x"; "--pin"; "a"]
           demo_state (demo_flat [opt_device; opt_pin]) demo_state 0%nat
           (demo_command 0 (Some [opt_device; opt_pin]) None) None
           [opt_device; opt_pin] 2%nat).
  - reach_flat.
  - left. repeat constructor; discriminate.
Defined.

Lemma hidden_options_not_in_help_witness :
  print_command_help demo_env demo_app 0 (demo_command 0 (Some [opt_secret; opt_pin]) None)
    demo_state
  = print_command_help demo_env demo_app 0 (demo_command 0 (Some [opt_pin]) None) demo_state.
Proof.
  refine (proj1 (hidden_options_not_in_help demo_env demo_app 0%nat
            (demo_command 0 (Some [opt_secret; opt_pin]) None) demo_state _ _)).
  - reflexivity.
  - reflexivity.
Defined.

Lemma malloc_failure_is_silent_witness :
  args_parse demo_mode demo_nvme_error demo_no_memory_env demo_app (demo_flat [opt_pin])
    ["sedcli"; "--setup"; "--pin"; "a"] demo_state
  = (Returned FAILURE, demo_flat [opt_pin], demo_state).
Proof.
  apply (malloc_failure_is_silent demo_mode demo_nvme_error demo_no_memory_env demo_app
           (demo_flat [opt_pin]) ["sedcli"; "--setup"; "--pin"; "a"] demo_state
           (demo_flat [opt_pin]) demo_state 0%nat
           (demo_command 0 (Some [opt_pin]) None) None [opt_pin] 2%nat).
  - reach_flat.
  - reflexivity.
  - reflexivity.
Defined.

Lemma options_need_parse_callback_witness :
  exists out,
    fst (demo_args_parse [set_options demo_ns_command (Some [opt_pin])]
           ["sedcli"; "--list"; "--pin"; "a"])
    = (Returned FAILURE, [set_options demo_ns_command (Some [opt_pin])])
    /\ only_prints demo_env demo_state
         (snd (demo_args_parse [set_options demo_ns_command (Some [opt_pin])]
                 ["sedcli"; "--list"; "--pin"; "a"])) out
    /\ (length out <= 2)%nat.
Proof.
  apply (options_need_parse_callback demo_mode demo_nvme_error demo_env demo_app
           [set_options demo_ns_command (Some [opt_pin])]
           ["sedcli"; "--list"; "--pin"; "a"] demo_state
           [set_options demo_ns_command (Some [opt_pin])] demo_state 0%nat
           (set_options demo_ns_command (Some [opt_pin])) None [opt_pin] 2%nat).
  - reach_flat.
  - reflexivity.
  - by right.
  - simpl. lia.
Defined.

Lemma bare_command_ignores_tokens_witness :
  exists final out,
    demo_args_parse [demo_command 0 None None] ["sedcli"; "--setup"; "-5"; "--bogus"]
    = (Returned (fst (c_handle (demo_command 0 None None) (world demo_state))),
       [demo_command 0 None None], final)
    /\ world final = snd (c_handle (demo_command 0 None None) (world demo_state))
    /\ transcript demo_env demo_state final out [CallHandle 0].
Proof.
  apply (bare_command_ignores_tokens demo_mode demo_nvme_error demo_env demo_app
           [demo_command 0 None None] ["sedcli"; "--setup"; "-5"; "--bogus"] demo_state
           [demo_command 0 None None] demo_state 0%nat (demo_command 0 None None)).
  - unfold resolves. repeat split; [simpl; lia | reflexivity..].
  - reflexivity.
  - reflexivity.
  - reflexivity.
  - by left.
  - reflexivity.
  - reflexivity.
Defined.

Lemma no_options_given_witness :
  exists final out,
    demo_args_parse (demo_flat [opt_pin; opt_verbose]) ["sedcli"; "--setup"]
    = (Returned (fst (c_handle (demo_command 0 (Some [opt_pin; opt_verbose]) None)
                        (world demo_state))),
       demo_flat [opt_pin; opt_verbose], final)
    /\ world final
       = snd (c_handle (demo_command 0 (Some [opt_pin; opt_verbose]) None) (world demo_state))
    /\ transcript demo_env demo_state final out [CallHandle 0].
Proof.
  apply (no_options_given demo_mode demo_nvme_error demo_env demo_app
           (demo_flat [opt_pin; opt_verbose]) ["sedcli"; "--setup"] demo_state
           (demo_flat [opt_pin; opt_verbose]) demo_state 0%nat
           (demo_command 0 (Some [opt_pin; opt_verbose]) None) None
           [opt_pin; opt_verbose] 2%nat).
  - reach_flat.
  - simpl. lia.
  - repeat constructor; simpl; lia.
  - reflexivity.
Defined.

Lemma flag_options_in_order_witness :
  exists w final,
    demo_args_parse (demo_flat [opt_verbose]) ["sedcli"; "--setup"; "-v"; "--verbose"]
    = (Returned (fst (c_handle (demo_command 0 (Some [opt_verbose]) None) w)),
       demo_flat [opt_verbose], final)
    /\ calls final
       = (calls demo_state
          ++ map (fun tok => CallOptionsParse 0 (matched_name [opt_verbose] tok)
                               (replicate (length ["sedcli"; "--setup"; "-v"; "--verbose"] + 1)
                                  Uninit))
               (drop 2 ["sedcli"; "--setup"; "-v"; "--verbose"])
          ++ [CallHandle 0])%list.
Proof.
  apply (flag_options_in_order demo_mode demo_nvme_error demo_env demo_app
           (demo_flat [opt_verbose]) ["sedcli"; "--setup"; "-v"; "--verbose"] demo_state
           (demo_flat [opt_verbose]) demo_state 0%nat
           (demo_command 0 (Some [opt_verbose]) None) None [opt_verbose] 2%nat
           (fun _ _ w => (0, w))).
  - reach_flat.
  - reflexivity.
  - reflexivity.
  - repeat constructor.
  - reflexivity.
  - reflexivity.
  - repeat constructor; discriminate.
Defined.

Lemma options_with_arguments_in_order_witness :
  exists w final new,
    demo_args_parse (demo_flat [opt_pin; opt_files])
      ["sedcli"; "--setup"; "-f"; "a"; "b"; "--pin"; "1234"]
    = (Returned (fst (c_handle (demo_command 0 (Some [opt_pin; opt_files]) None) w)),
       demo_flat [opt_pin; opt_files], final)
    /\ calls final = (calls demo_state ++ new ++ [CallHandle 0])%list
    /\ Forall2 (fun k g =>
                  parse_call_of 0 (matched_name [opt_pin; opt_files] (fst g)) (snd g) k)
         new
         (option_groups (drop 2 ["sedcli"; "--setup"; "-f"; "a"; "b"; "--pin"; "1234"]) 0).
Proof.
  apply (options_with_arguments_in_order demo_mode demo_nvme_error demo_env demo_app
           (demo_flat [opt_pin; opt_files])
           ["sedcli"; "--setup"; "-f"; "a"; "b"; "--pin"; "1234"] demo_state
           (demo_flat [opt_pin; opt_files]) demo_state 0%nat
           (demo_command 0 (Some [opt_pin; opt_files]) None) None [opt_pin; opt_files] 2%nat
           (fun _ _ w => (0, w))).
  - reach_flat.
  - reflexivity.
  - reflexivity.
  - repeat constructor; discriminate.
  - reflexivity.
  - reflexivity.
  - repeat constructor.
Defined.

Lemma get_option_first_match_witness :
  (1 < length [opt_device; opt_pin])%nat
  /\ (exists o, [opt_device; opt_pin] !! 1%nat = Some o
                /\ args_is "-p" (o_long_name o) (o_short_name o) = true)
  /\ (forall j o', (j < 1)%nat -> [opt_device; opt_pin] !! j = Some o' ->
        args_is "-p" (o_long_name o') (o_short_name o') = false).
Proof.
  apply (proj1 (get_option_first_match [opt_device; opt_pin] "-p") 1%nat). reflexivity.
Defined.

Lemma get_help_position_first_witness :
  exists p t,
    get_help_position ["sedcli"; "--help"; "--pin"; "-H"; "--help"] = Z.of_nat p
    /\ (2 <= p < length ["sedcli"; "--help"; "--pin"; "-H"; "--help"])%nat
    /\ ["sedcli"; "--help"; "--pin"; "-H"; "--help"] !! p = Some t
    /\ is_help t = true
    /\ forall j t', (2 <= j < p)%nat ->
         ["sedcli"; "--help"; "--pin"; "-H"; "--help"] !! j = Some t' -> is_help t' = false.
Proof.
  apply (proj2 (get_help_position_first ["sedcli"; "--help"; "--pin"; "-H"; "--help"])).
  vm_compute. discriminate.
Defined.

Lemma sedcli_printf_effect_witness :
  logfile (sedcli_printf demo_env LOG_INFO (Msg "sedcli\n" []) demo_state)
  = logfile demo_state.
Proof.
  apply (proj2 (sedcli_printf_effect demo_env LOG_INFO (Msg "sedcli\n" []) demo_state)).
  reflexivity.
Defined.

Lemma print_sed_status_effect_witness :
  exists out m,
    only_prints demo_env demo_state
      (print_sed_status demo_mode demo_nvme_error demo_env (- EINVAL) demo_state) out
    /\ out = [(Stderr, m)].
Proof.
  destruct (print_sed_status_effect demo_mode demo_nvme_error demo_env (- EINVAL) demo_state)
    as (out & Hprints & _ & Hnegative).
  destruct (Hnegative eq_refl) as [m Hm].
  exists out, m. split; [exact Hprints | exact Hm].
Defined.

Lemma command_resolution_witness :
  exists m,
    demo_args_parse (demo_flat [opt_pin]) ["sedcli"; "--bogus"]
    = (Returned FAILURE, demo_flat [opt_pin], usage_error demo_env demo_app m demo_state)
    /\ only_prints demo_env demo_state (usage_error demo_env demo_app m demo_state)
         [(Stderr, m);
          (Stdout, Msg "Try `%s --help' for more information.\n" [AStr (app_name demo_app)])].
Proof.
  apply (proj1 (proj2 (command_resolution demo_mode demo_nvme_error demo_env demo_app
                         (demo_flat [opt_pin]) ["sedcli"; "--bogus"] demo_state))).
  right. right. split; reflexivity.
Defined.

